(** * Plantoid gallery: URI cache, batched loader, reveal matcher, pagination

    A shallow embedding of the gallery module of the Plantoid UI
    (the two revisions of the gallery script that the repository carries:
    the rate-limited on-chain loader and the later subgraph-only loader),
    followed by the properties proved about it.

    JavaScript values are embedded as follows.
    - Strings are [string] (byte strings; the identifiers handled here are
      ASCII: network names, hex addresses, decimal and hex token ids).
    - Integral Numbers are [Z]; [NaN] is [None] in an [option Z].  The
      embedding is exact for magnitudes below 2^53, where a JavaScript
      Number represents every integer.
    - [null]/[undefined] are [None] in an [option].
    - The [Map] behind the token-URI cache is a finite map ([gmap]); the
      order in which a [Map] is iterated is not observable in any function
      embedded here except through the [keys] array of [getStats], which
      is listed in the order of [map_to_list].
    - An object literal read by a computed key is the finite map of the
      properties it has of its own.  Where the key is an argument of the
      function or a tag stored in the cache (the guard [NETWORKS[k]] of
      [switchNetwork], the counters [stats.byNetwork[k]] of [getStats]),
      [Object.prototype] stands behind the map.  The functions that read
      the configuration of the current network are embedded for a current
      network that is a key of [NETWORKS] or names no property at all.
    - A field of a JSON document served by the gateway is a string, a
      falsy value, or a truthy value that is no string.
    - The contract, the subgraphs, the IPFS gateway and the wallet are
      outside the script: what they answer during a run is an argument of
      the embedded function, which says what the script does with it. *)

From Stdlib Require Import ZArith Ascii String List Lia.
From stdpp Require Import base tactics option list strings pretty gmap fin_maps sorting relations.

Local Open Scope string_scope.
Local Open Scope list_scope.
Local Open Scope Z_scope.

(* ===================================================================== *)
(** ** JavaScript primitives used by the gallery                          *)
(* ===================================================================== *)

Module Js.

(** [String.prototype.toLowerCase] on ASCII letters. *)
Definition lower_ascii (c : ascii) : ascii :=
  let n := nat_of_ascii c in
  if ((65 <=? n) && (n <=? 90))%nat then ascii_of_nat (n + 32) else c.

Fixpoint toLowerCase (s : string) : string :=
  match s with
  | EmptyString => EmptyString
  | String c s' => String (lower_ascii c) (toLowerCase s')
  end.

(** [s.endsWith(suffix)]: the last [length suffix] characters of [s]
    are [suffix]. *)
Definition endsWith (s suffix : string) : bool :=
  let n := String.length s in
  let m := String.length suffix in
  ((m <=? n)%nat && String.eqb (substring (n - m) m s) suffix)%bool.

(** [s.includes(needle)]: [needle] occurs at some position of [s]. *)
Fixpoint includes (s needle : string) : bool :=
  (String.prefix needle s ||
   match s with
   | EmptyString => false
   | String _ s' => includes s' needle
   end)%bool.

(** Truthiness of a string: only the empty string is falsy. *)
Definition truthy (s : string) : bool := negb (String.eqb s EmptyString).

(** Truthiness of a nullable string. *)
Definition truthy_opt (o : option string) : bool :=
  match o with
  | Some s => truthy s
  | None => false
  end.

(** [x || null] on a nullable string: falsy values collapse to [null]. *)
Definition or_null (o : option string) : option string :=
  if truthy_opt o then o else None.

(** *** [parseInt(s)] with no radix argument *)

(** StrWhiteSpaceChar, restricted to ASCII: TAB, LF, VT, FF, CR, SP. *)
Definition is_white (c : ascii) : bool :=
  let n := nat_of_ascii c in
  ((n =? 9) || (n =? 10) || (n =? 11) || (n =? 12) || (n =? 13) || (n =? 32))%nat.

Fixpoint trimStart (s : string) : string :=
  match s with
  | EmptyString => EmptyString
  | String c s' => if is_white c then trimStart s' else s
  end.

(** Value of a digit character in radices up to 36. *)
Definition digit_value (c : ascii) : option Z :=
  let n := Z.of_nat (nat_of_ascii c) in
  if (48 <=? n) && (n <=? 57) then Some (n - 48)
  else if (97 <=? n) && (n <=? 122) then Some (n - 87)
  else if (65 <=? n) && (n <=? 90) then Some (n - 55)
  else None.

(** Reads the longest prefix of radix-[R] digits; [acc] is [None] until a
    first digit has been read. *)
Fixpoint parse_digits (R : Z) (s : string) (acc : option Z) : option Z :=
  match s with
  | EmptyString => acc
  | String c s' =>
      match digit_value c with
      | Some d =>
          if d <? R then parse_digits R s' (Some (default 0 acc * R + d))
          else acc
      | None => acc
      end
  end.

(** Removes a leading sign and reports it. *)
Definition strip_sign (s : string) : Z * string :=
  match s with
  | String "-" s' => (-1, s')
  | String "+" s' => (1, s')
  | _ => (1, s)
  end.

(** With no radix given, a leading [0x]/[0X] selects radix 16. *)
Definition strip_prefix (s : string) : Z * string :=
  match s with
  | String "0" (String "x" s') => (16, s')
  | String "0" (String "X" s') => (16, s')
  | _ => (10, s)
  end.

(** [parseInt(s)]; [None] stands for [NaN].  The value is the integer
    the digits denote.  [parseInt] gives that integer as a Number, which
    is the same thing up to [Number.MAX_SAFE_INTEGER] = 2^53 - 1 in
    magnitude; above it the Number is a rounded one and how it prints in
    radix 16 is left to the implementation, so every property that
    depends on the value read is stated for token ids in that range. *)
Definition parseInt (s : string) : option Z :=
  let '(sign, s1) := strip_sign (trimStart s) in
  let '(R, s2) := strip_prefix s1 in
  match parse_digits R s2 None with
  | Some n => Some (sign * n)
  | None => None
  end.

(** *** [Number.prototype.toString(16)] on integral values *)

Definition hex_char (d : Z) : ascii :=
  if d <? 10 then ascii_of_nat (Z.to_nat (48 + d))
  else ascii_of_nat (Z.to_nat (87 + d)).

Fixpoint hex_go (fuel : nat) (n : Z) (acc : string) : string :=
  match fuel with
  | O => acc
  | S fuel' =>
      if n <=? 0 then acc
      else hex_go fuel' (n / 16) (String (hex_char (n mod 16)) acc)
  end.

(** Hexadecimal digits of a non-negative integer; a number below
    [2^k] has at most [k] hex digits, so the fuel never runs out. *)
Definition hex_of_nonneg (n : Z) : string :=
  if n =? 0 then "0" else hex_go (S (Z.to_nat (Z.log2 n))) n EmptyString.

Definition toString16 (x : option Z) : string :=
  match x with
  | None => "NaN"
  | Some n => if n <? 0 then "-" +:+ hex_of_nonneg (- n) else hex_of_nonneg n
  end.

(** Decimal rendering of an integral Number, as in a template literal. *)
Definition toString10 (n : Z) : string := pretty n.

(** Numbers that need not be finite: the outcome of a division. *)
Inductive Num :=
  | Finite (z : Z)
  | Infinity
  | NegInfinity
  | NaN.

Global Instance Num_eq_dec : EqDecision Num.
Proof. solve_decision. Defined.

(** [Math.ceil(a / b)] for integral [a] and [b]; dividing by zero gives
    an infinity of the sign of [a], and [0 / 0] is [NaN]. *)
Definition ceil_div (a b : Z) : Num :=
  if b =? 0 then
    (if 0 <? a then Infinity else if a <? 0 then NegInfinity else NaN)
  else Finite (- ((- a) / b)).

(** [x <= y] and [y > x] for an integral [x]; comparisons with [NaN]
    are false. *)
Definition le_num (x : Z) (y : Num) : bool :=
  match y with
  | Finite z => x <=? z
  | Infinity => true
  | NegInfinity => false
  | NaN => false
  end.

Definition gt_num (y : Num) (x : Z) : bool :=
  match y with
  | Finite z => x <? z
  | Infinity => true
  | NegInfinity => false
  | NaN => false
  end.

(** [arr.sort(compare)]: a stable sort; [compare a b] is the Number the
    callback returns, [None] for [NaN], which [sort] reads as [0].  An
    element moves behind another one only when the callback says
    "greater than zero". *)
Definition after {A} (compare : A -> A -> option Z) (a b : A) : bool :=
  match compare a b with
  | Some v => 0 <? v
  | None => false
  end.

Fixpoint sort_insert {A} (compare : A -> A -> option Z) (x : A) (l : list A)
    : list A :=
  match l with
  | [] => [x]
  | y :: l' =>
      if after compare x y then y :: sort_insert compare x l'
      else x :: y :: l'
  end.

Fixpoint sort {A} (compare : A -> A -> option Z) (l : list A) : list A :=
  match l with
  | [] => []
  | x :: l' => sort_insert compare x (sort compare l')
  end.

(** *** Properties every object literal inherits

    An object written [{...}] has [Object.prototype] behind it: reading a
    property it does not define itself finds, under these names, a
    function of [Object.prototype], and under [__proto__] the prototype
    itself.  All these values are truthy. *)
Definition Object_prototype_functions : list string :=
  [ "constructor"; "hasOwnProperty"; "isPrototypeOf"; "propertyIsEnumerable";
    "toLocaleString"; "toString"; "valueOf";
    "__defineGetter__"; "__defineSetter__"; "__lookupGetter__"; "__lookupSetter__" ].

Definition inherited (k : string) : bool :=
  bool_decide (k = "__proto__") || bool_decide (k ∈ Object_prototype_functions).

(** [arr.slice(start, end)] with integral arguments: negative indices
    count from the end and both bounds are clamped to the array. *)
Definition slice {A} (arr : list A) (start stop : Z) : list A :=
  let len := Z.of_nat (length arr) in
  let k := if start <? 0 then Z.max (len + start) 0 else Z.min start len in
  let final := if stop <? 0 then Z.max (len + stop) 0 else Z.min stop len in
  take (Z.to_nat (Z.max (final - k) 0)) (drop (Z.to_nat k) arr).

End Js.

(* ===================================================================== *)
(** ** Values shared by the components                                    *)
(* ===================================================================== *)

(** A token id reaches the cache either as a Number (the loop index of the
    batched loader) or as a string (the [tokenId] field of a subgraph
    record); a template literal renders both to text. *)
Inductive TokenId :=
  | IdNum (n : Z)
  | IdStr (s : string).

Definition template (t : TokenId) : string :=
  match t with
  | IdNum n => Js.toString10 n
  | IdStr s => s
  end.

(** What a function hands back to its caller, where a property depends on
    it: no [return] statement yields [undefined]. *)
Inductive JsResult :=
  | JsUndefined
  | JsNumber (n : Z)
  | JsBoolean (b : bool).

(** Lines written to the console, kept structured. *)
Inductive LogLine :=
  | LogClearedNetwork (cleared : nat) (networkKey : string)
  | LogClearedAll (size : nat)
  | LogFetchFailed (tokenId : TokenId)
  | LogRetryFailed (tokenId : TokenId)
  | LogLoadError (tokenId : TokenId)
  | LogNetworkNotFound (networkKey : string).

(* ===================================================================== *)
(** ** TOKEN_URI_CACHE                                                    *)
(* ===================================================================== *)

Module TOKEN_URI_CACHE.

Record Entry := {
  tokenURI : string;
  timestamp : Z;
  network : string;
  contractAddress : string
}.

Abbreviation Cache := (gmap string Entry).

Definition getCacheKey (contractAddress : string) (tokenId : TokenId)
    (networkKey : string) : string :=
  networkKey +:+ "_" +:+ Js.toLowerCase contractAddress +:+ "_" +:+ template tokenId.

(** The separator of the key does not occur in a name. *)
Fixpoint no_underscore (s : string) : bool :=
  match s with
  | EmptyString => true
  | String c s' => negb (Ascii.eqb c "_") && no_underscore s'
  end.

(** [get]: the stored pointer, or [null]. *)
Definition get (cache : Cache) (contractAddress : string) (tokenId : TokenId)
    (networkKey : string) : option string :=
  let key := getCacheKey contractAddress tokenId networkKey in
  match cache !! key with
  | Some cached => Some (tokenURI cached)
  | None => None
  end.

(** [set]: [now] is the reading of [Date.now()]. *)
Definition set (cache : Cache) (contractAddress : string) (tokenId : TokenId)
    (networkKey : string) (uri : string) (now : Z) : Cache :=
  let key := getCacheKey contractAddress tokenId networkKey in
  <[key := {| tokenURI := uri; timestamp := now; network := networkKey;
              contractAddress := Js.toLowerCase contractAddress |}]> cache.

(** One iteration of the loop of [clearNetwork]. *)
Definition clearNetwork_step (networkKey : string) (acc : Cache * nat)
    (kv : string * Entry) : Cache * nat :=
  if decide (network kv.2 = networkKey)
  then (delete kv.1 acc.1, S acc.2)
  else acc.

(** The loop of [clearNetwork] over the entries of the map. *)
Definition clearNetwork_loop (networkKey : string) (cache : Cache) : Cache * nat :=
  foldl (clearNetwork_step networkKey) (cache, 0%nat) (map_to_list cache).

(** [clearNetwork]: the new cache, the value returned and the console
    line.  The function has no [return] statement. *)
Definition clearNetwork (cache : Cache) (networkKey : string)
    : Cache * JsResult * list LogLine :=
  let r := clearNetwork_loop networkKey cache in
  (r.1, JsUndefined, [LogClearedNetwork r.2 networkKey]).

Definition clear (cache : Cache) : Cache * JsResult * list LogLine :=
  let size := size cache in
  (∅, JsUndefined, [LogClearedAll size]).

(** A property of [stats.byNetwork], an object literal.  [Count n] is the
    number [n].  [Text ones] is a string: the text of the function that
    [Object.prototype] holds under that name, followed by [ones]
    characters "1"; this is what [(f || 0) + 1] and then
    [(string || 0) + 1] give. *)
Inductive Counter :=
  | Count (n : nat)
  | Text (ones : nat).

Global Instance Counter_eq_dec : EqDecision Counter.
Proof. solve_decision. Defined.

Record Stats := {
  totalSize : nat;
  byNetwork : gmap string Counter;
  keys : list string
}.

(** [value.network || 'unknown'] *)
Definition network_label (e : Entry) : string :=
  if Js.truthy (network e) then network e else "unknown".

(** One iteration of the counting loop of [getStats]:
    [stats.byNetwork[network] = (stats.byNetwork[network] || 0) + 1].
    [counts] holds the properties [byNetwork] has of its own.  Where it
    has none, the read falls through to [Object.prototype]: an inherited
    function is truthy and [+ 1] turns it into a string, which the
    assignment stores; under [__proto__] the read gives the prototype and
    the assignment of the resulting string is ignored by the setter. *)
Definition getStats_step (counts : gmap string Counter) (kv : string * Entry)
    : gmap string Counter :=
  let network := network_label kv.2 in
  match counts !! network with
  | Some (Count n) => <[network := Count (n + 1)%nat]> counts
  | Some (Text ones) => <[network := Text (ones + 1)%nat]> counts
  | None =>
      if bool_decide (network = "__proto__") then counts
      else if bool_decide (network ∈ Js.Object_prototype_functions)
      then <[network := Text 1]> counts
      else <[network := Count 1]> counts
  end.

Definition getStats (cache : Cache) : Stats :=
  {| totalSize := size cache;
     byNetwork := foldl getStats_step ∅ (map_to_list cache);
     keys := (map_to_list cache).*1 |}.

End TOKEN_URI_CACHE.

(* ===================================================================== *)
(** ** Configuration ([config.js])                                        *)
(* ===================================================================== *)

Record NetworkConfig := {
  name : string;
  chainId : Z;
  rpcUrl : string;
  plantoidAddress : string;
  blockExplorer : string;
  isTestnet : bool
}.

Definition INFURA_PROJECT_ID : string := "460f40a260564ac4a4f4b3fffb032dad".

(** The [NETWORKS] table; [NETWORKS !! k] is the property read
    [NETWORKS[k]] on the keys the table defines. *)
Definition NETWORKS : gmap string NetworkConfig :=
  <["sepolia" := {|
      name := "Sepolia Testnet";
      chainId := 11155111;
      rpcUrl := "https://sepolia.infura.io/v3/" +:+ INFURA_PROJECT_ID;
      plantoidAddress := "0x66078a2061A68d5bA6cDdBc81517837dA0C7d7b5";
      blockExplorer := "https://sepolia.etherscan.io";
      isTestnet := true |}]>
  (<["mainnet" := {|
      name := "Ethereum Mainnet";
      chainId := 1;
      rpcUrl := "https://mainnet.infura.io/v3/" +:+ INFURA_PROJECT_ID;
      plantoidAddress := "0x4073E38f71b2612580E9e381031B0c38B3B4C27E";
      blockExplorer := "https://etherscan.io";
      isTestnet := false |}]> ∅).

(** What the read [NETWORKS[k]] gives: a configuration of the table, a
    value inherited from [Object.prototype], or [undefined]. *)
Inductive NetworksValue :=
  | OwnConfig (networkConfig : NetworkConfig)
  | InheritedValue
  | Undefined.

Definition NETWORKS_read (k : string) : NetworksValue :=
  match NETWORKS !! k with
  | Some networkConfig => OwnConfig networkConfig
  | None => if Js.inherited k then InheritedValue else Undefined
  end.

Record RateLimitConfig := {
  maxConcurrent : Z;
  delayBetweenBatches : Z;
  batchSize : Z;
  retryDelay : Z;
  randomDelay : Z
}.

Definition RATE_LIMIT_CONFIG : RateLimitConfig :=
  {| maxConcurrent := 3;
     delayBetweenBatches := 1000;
     batchSize := 5;
     retryDelay := 2000;
     randomDelay := 200 |}.

(* ===================================================================== *)
(** ** Records of the two subgraphs and the state of the gallery page     *)
(* ===================================================================== *)

(** A record of the main subgraph.  [holder] is the address found under
    [holder.address], when there is one. *)
Record Seed := {
  seed_id : string;
  tokenId : string;
  revealed : bool;
  holder : option string
}.

(** A record of the metadata subgraph; both reveal fields are nullable. *)
Record SeedMetadata := {
  md_id : string;
  md_revealedUri : option string;
  md_revealedSignature : option string
}.

(** [{...seed, revealedUri, revealedSignature}] *)
Record Combined := {
  seed : Seed;
  revealedUri : option string;
  revealedSignature : option string
}.

(** [UNREVEALED_PAGINATION] *)
Record Pagination := {
  itemsPerPage : Z;
  currentPage : Z;
  totalItems : Z;
  data : list Combined
}.

Definition UNREVEALED_PAGINATION_init : Pagination :=
  {| itemsPerPage := 5; currentPage := 1; totalItems := 0; data := [] |}.

(** The table written to [#unrevealed-table], kept structured: one row
    per record of the page, and the pager when there are several pages. *)
Record Row := {
  row_tokenId : string;
  row_holder : string;
  row_canReveal : bool;
  row_revealedUri : string;
  row_revealedSignature : string
}.

Record Pager := {
  pager_current : Z;
  pager_total : Js.Num;
  pager_prev_disabled : bool;
  pager_next_disabled : bool
}.

Record Table := {
  rows : list Row;
  pager : option Pager
}.

(** What [#unrevealed-table] holds: a rendered table or the error notice. *)
Inductive TableHtml :=
  | TableRows (t : Table)
  | TableErrorLoading.

(** A rejection value: an [Error] with its optional [code] and
    [message]. *)
Record Error := {
  code : option string;
  message : option string
}.

(** What the page does that is visible from outside, in order. *)
Inductive Event :=
  | EvJitter                                  (* setTimeout(_, Math.random() * randomDelay) *)
  | EvSleep (ms : Z)                          (* setTimeout(_, ms) *)
  | EvRpc (tokenId : TokenId)                 (* contract.tokenURI(tokenId) *)
  | EvDisplay (tokenId : TokenId) (uri : string)  (* displayNFT(tokenId, uri) *)
  | EvLog (line : LogLine).                   (* console output *)

(** The module-level state of the gallery script and what it has written
    to the page. *)
Record App := {
  currentNetwork : string;
  NETWORK_STORAGE : option string;
  cache : TOKEN_URI_CACHE.Cache;
  UNREVEALED_PAGINATION : Pagination;
  unrevealedTable : option TableHtml;
  trace : list Event
}.

Definition with_pagination (p : Pagination) (st : App) : App :=
  {| currentNetwork := currentNetwork st;
     NETWORK_STORAGE := NETWORK_STORAGE st;
     cache := cache st;
     UNREVEALED_PAGINATION := p;
     unrevealedTable := unrevealedTable st;
     trace := trace st |}.

Definition with_table (t : TableHtml) (st : App) : App :=
  {| currentNetwork := currentNetwork st;
     NETWORK_STORAGE := NETWORK_STORAGE st;
     cache := cache st;
     UNREVEALED_PAGINATION := UNREVEALED_PAGINATION st;
     unrevealedTable := Some t;
     trace := trace st |}.

Definition with_cache (c : TOKEN_URI_CACHE.Cache) (st : App) : App :=
  {| currentNetwork := currentNetwork st;
     NETWORK_STORAGE := NETWORK_STORAGE st;
     cache := c;
     UNREVEALED_PAGINATION := UNREVEALED_PAGINATION st;
     unrevealedTable := unrevealedTable st;
     trace := trace st |}.

Definition with_network (k : string) (st : App) : App :=
  {| currentNetwork := k;
     NETWORK_STORAGE := Some k;
     cache := cache st;
     UNREVEALED_PAGINATION := UNREVEALED_PAGINATION st;
     unrevealedTable := unrevealedTable st;
     trace := trace st |}.

Definition emit (e : Event) (st : App) : App :=
  {| currentNetwork := currentNetwork st;
     NETWORK_STORAGE := NETWORK_STORAGE st;
     cache := cache st;
     UNREVEALED_PAGINATION := UNREVEALED_PAGINATION st;
     unrevealedTable := unrevealedTable st;
     trace := trace st ++ [e] |}.

(** *** Computations that read and write the page state and may throw *)

Definition M (A : Type) : Type := App -> (Error + A) * App.

Definition ret {A} (a : A) : M A := fun st => (inr a, st).

Definition throw {A} (e : Error) : M A := fun st => (inl e, st).

Definition bind {A B} (m : M A) (k : A -> M B) : M B :=
  fun st =>
    match m st with
    | (inr a, st') => k a st'
    | (inl e, st') => (inl e, st')
    end.

(** [try { m } catch (e) { handler e }] *)
Definition try_catch {A} (m : M A) (handler : Error -> M A) : M A :=
  fun st =>
    match m st with
    | (inr a, st') => (inr a, st')
    | (inl e, st') => handler e st'
    end.

Definition tell (e : Event) : M unit := fun st => (inr tt, emit e st).

Declare Scope js_scope.
Delimit Scope js_scope with js.
Notation "'perform' x <~ m ;; k" := (bind m (fun x => k))
  (at level 10, x name, m at level 99, k at level 200) : js_scope.
Notation "'exec' m ;; k" := (bind m (fun _ => k))
  (at level 10, m at level 99, k at level 200) : js_scope.

Global Instance TokenId_eq_dec : EqDecision TokenId.
Proof. solve_decision. Defined.

(* ===================================================================== *)
(** ** Code shared by both revisions of the gallery script                *)
(* ===================================================================== *)

Module Gallery.

Local Open Scope js_scope.

(** *** Cross-reference of the two subgraphs *)

(** The callback given to [metadataSignatures.find]. *)
Definition md_matches (tokenIdStr : string) (md : SeedMetadata) : bool :=
  (* Strategy 1: direct match *)
  if String.eqb (md_id md) tokenIdStr then true
  (* Strategy 2: the id ends with the token id *)
  else if Js.endsWith (md_id md) ("_" +:+ tokenIdStr) then true
  else
    let hexTokenId := "0x" +:+ Js.toString16 (Js.parseInt tokenIdStr) in
    (* Strategy 3: the id ends with the hex token id *)
    if Js.endsWith (md_id md) ("_" +:+ hexTokenId) then true
    (* Strategy 4: the id is the hex token id *)
    else if String.eqb (md_id md) hexTokenId then true
    else false.

(** The callback of [mainSeeds.map]. *)
Definition combine (metadataSignatures : list SeedMetadata) (s : Seed) : Combined :=
  let tokenIdStr := tokenId s in
  let metadata := List.find (md_matches tokenIdStr) metadataSignatures in
  {| seed := s;
     revealedUri := Js.or_null (metadata ≫= md_revealedUri);
     revealedSignature := Js.or_null (metadata ≫= md_revealedSignature) |}.

Definition combinedData (mainSeeds : list Seed)
    (metadataSignatures : list SeedMetadata) : list Combined :=
  List.map (combine metadataSignatures) mainSeeds.

(** The four tests of the callback, one by one, and the first of them
    that succeeds on a record. *)
Inductive Strategy :=
  | DirectMatch
  | DecimalSuffix
  | HexSuffix
  | ExactHex.

Definition hexTokenId (tokenIdStr : string) : string :=
  "0x" +:+ Js.toString16 (Js.parseInt tokenIdStr).

Definition strategy_holds (k : Strategy) (tokenIdStr : string) (md : SeedMetadata)
    : bool :=
  match k with
  | DirectMatch => String.eqb (md_id md) tokenIdStr
  | DecimalSuffix => Js.endsWith (md_id md) ("_" +:+ tokenIdStr)
  | HexSuffix => Js.endsWith (md_id md) ("_" +:+ hexTokenId tokenIdStr)
  | ExactHex => String.eqb (md_id md) (hexTokenId tokenIdStr)
  end.

Definition rank (k : Strategy) : nat :=
  match k with
  | DirectMatch => 1
  | DecimalSuffix => 2
  | HexSuffix => 3
  | ExactHex => 4
  end.

Definition first_strategy (tokenIdStr : string) (md : SeedMetadata)
    : option Strategy :=
  if strategy_holds DirectMatch tokenIdStr md then Some DirectMatch
  else if strategy_holds DecimalSuffix tokenIdStr md then Some DecimalSuffix
  else if strategy_holds HexSuffix tokenIdStr md then Some HexSuffix
  else if strategy_holds ExactHex tokenIdStr md then Some ExactHex
  else None.

(** Modelled on the wording of the specification, for comparison with
    [List.find (md_matches _)]: the strategies are tried one after the
    other over the whole list, and the first strategy that finds a record
    decides. *)
Definition spec_priority_match (tokenIdStr : string) (mds : list SeedMetadata)
    : option SeedMetadata :=
  match List.find (strategy_holds DirectMatch tokenIdStr) mds with
  | Some md => Some md
  | None =>
      match List.find (strategy_holds DecimalSuffix tokenIdStr) mds with
      | Some md => Some md
      | None =>
          match List.find (strategy_holds HexSuffix tokenIdStr) mds with
          | Some md => Some md
          | None => List.find (strategy_holds ExactHex tokenIdStr) mds
          end
      end
  end.

(** [seed.revealedSignature && seed.revealedSignature !== "0x"] *)
Definition hasSignature (s : Combined) : bool :=
  Js.truthy_opt (revealedSignature s)
  && negb (bool_decide (revealedSignature s = Some "0x")).

(** [!seed.revealed] *)
Definition notRevealed (s : Combined) : bool := negb (revealed (seed s)).

(** What the data model calls valid for display: not revealed, and a
    signature that is present, not empty and not the empty-bytes
    sentinel. *)
Definition eligible (s : Combined) : Prop :=
  revealed (seed s) = false
  /\ exists sig, revealedSignature s = Some sig /\ sig <> EmptyString /\ sig <> "0x".

(** The numeric token id of [a] is at least that of [b]. *)
Definition tokenId_ge (a b : Combined) : Prop :=
  exists pa pb,
    Js.parseInt (tokenId (seed a)) = Some pa
    /\ Js.parseInt (tokenId (seed b)) = Some pb
    /\ pb <= pa.

(** The token id of a record reads as a number. *)
Definition numeric (s : Combined) : Prop :=
  is_Some (Js.parseInt (tokenId (seed s))).

(** *** The paginated table *)

Definition render_row (nft : Combined) : Row :=
  let holderAddress :=
    if Js.truthy_opt (holder (seed nft)) then default EmptyString (holder (seed nft))
    else "Unknown" in
  let tokenId :=
    if Js.truthy (tokenId (seed nft)) then tokenId (seed nft)
    else seed_id (seed nft) in
  let canReveal :=
    Js.truthy_opt (revealedSignature nft)
    && negb (bool_decide (revealedSignature nft = Some "0x"))
    && negb (revealed (seed nft)) in
  {| row_tokenId := tokenId;
     row_holder := holderAddress;
     row_canReveal := canReveal;
     row_revealedUri := default EmptyString (Js.or_null (revealedUri nft));
     row_revealedSignature := default EmptyString (Js.or_null (revealedSignature nft)) |}.

Definition totalPages (p : Pagination) : Js.Num :=
  Js.ceil_div (totalItems p) (itemsPerPage p).

Definition startIndex (p : Pagination) : Z :=
  (currentPage p - 1) * itemsPerPage p.

Definition endIndex (p : Pagination) : Z :=
  Z.min (startIndex p + itemsPerPage p) (totalItems p).

Definition currentPageData (p : Pagination) : list Combined :=
  Js.slice (data p) (startIndex p) (endIndex p).

Definition render (p : Pagination) : Table :=
  {| rows := List.map render_row (currentPageData p);
     pager :=
       if Js.gt_num (totalPages p) 1 then
         Some {| pager_current := currentPage p;
                 pager_total := totalPages p;
                 pager_prev_disabled := bool_decide (currentPage p = 1);
                 pager_next_disabled :=
                   bool_decide (Js.Finite (currentPage p) = totalPages p) |}
       else None |}.

Definition displayUnrevealedTablePaginated (st : App) : App :=
  with_table (TableRows (render (UNREVEALED_PAGINATION st))) st.

Definition set_currentPage (n : Z) (p : Pagination) : Pagination :=
  {| itemsPerPage := itemsPerPage p; currentPage := n;
     totalItems := totalItems p; data := data p |}.

(** [window.changePage] *)
Definition changePage (newPage : Z) (st : App) : App :=
  let p := UNREVEALED_PAGINATION st in
  let totalPages := Js.ceil_div (totalItems p) (itemsPerPage p) in
  if (1 <=? newPage) && Js.le_num newPage totalPages then
    displayUnrevealedTablePaginated
      (with_pagination (set_currentPage newPage p) st)
  else st.

(** Stores a list in the pagination state and shows its first page. *)
Definition store_and_display (l : list Combined) (st : App) : App :=
  let p := UNREVEALED_PAGINATION st in
  displayUnrevealedTablePaginated
    (with_pagination
       {| itemsPerPage := itemsPerPage p; currentPage := 1;
          totalItems := Z.of_nat (length l); data := l |} st).

(** *** Network switch *)

Section SwitchNetwork.

(** [initializeGallery]: the reload of the page for the selected
    network; it awaits the ABI, the provider and both loaders. *)
Variable initializeGallery : App -> App.

Definition reset_pagination (p : Pagination) : Pagination :=
  {| itemsPerPage := itemsPerPage p; currentPage := 1;
     totalItems := 0; data := [] |}.

(** The guard is [!NETWORKS[networkKey]]: it lets through every key
    under which the read gives a truthy value, the names inherited from
    [Object.prototype] included. *)
Definition switchNetwork (networkKey : string) (st : App) : JsResult * App :=
  match NETWORKS_read networkKey with
  | Undefined =>
      (JsBoolean false, emit (EvLog (LogNetworkNotFound networkKey)) st)
  | OwnConfig _ | InheritedValue =>
      let st1 := with_network networkKey st in
      let st2 :=
        with_pagination (reset_pagination (UNREVEALED_PAGINATION st1)) st1 in
      (JsBoolean true, initializeGallery st2)
  end.

End SwitchNetwork.

End Gallery.

(* ===================================================================== *)
(** ** First revision: rate-limited loading through the contract          *)
(* ===================================================================== *)

Module RateLimited.

Local Open Scope js_scope.

(** *** The two loops that cut the work of [loadNFTs] *)

(** [for (let i = batchStart; i >= batchEnd && i >= 1; i--)]: the indices
    pushed for one batch.  The loop counts down to [1] at the latest, so
    [Z.to_nat batchStart] iterations are all it can make. *)
Fixpoint batch_indices_from (fuel : nat) (i batchEnd : Z) : list Z :=
  match fuel with
  | O => []
  | S fuel' =>
      if (batchEnd <=? i) && (1 <=? i)
      then i :: batch_indices_from fuel' (i - 1) batchEnd
      else []
  end.

Definition batch_indices (batchStart batchEnd : Z) : list Z :=
  batch_indices_from (Z.to_nat batchStart) batchStart batchEnd.

Record Batch := {
  batchEnd : Z;
  indices : list Z
}.

(** [for (let batchStart = totalNFTs; batchStart >= 1; batchStart -= batchSize)].
    The loop does not end when [batchSize] is not positive: [None] means
    that [fuel] iterations were not enough. *)
Fixpoint batches_from (fuel : nat) (batchSize batchStart : Z) : option (list Batch) :=
  match fuel with
  | O => None
  | S fuel' =>
      if 1 <=? batchStart then
        let batchEnd := Z.max 1 (batchStart - batchSize + 1) in
        match batches_from fuel' batchSize (batchStart - batchSize) with
        | Some rest =>
            Some ({| batchEnd := batchEnd;
                     indices := batch_indices batchStart batchEnd |} :: rest)
        | None => None
        end
      else Some []
  end.

Definition batches (fuel : nat) (cfg : RateLimitConfig) (totalNFTs : Z)
    : option (list Batch) :=
  batches_from fuel (batchSize cfg) totalNFTs.

(** [for (let i = 0; i < batchPromises.length; i += maxConcurrent)
       chunk = batchPromises.slice(i, i + maxConcurrent)]. *)
Fixpoint chunks_from {A} (fuel : nat) (maxConcurrent : Z) (arr : list A) (i : Z)
    : option (list (list A)) :=
  match fuel with
  | O => None
  | S fuel' =>
      if i <? Z.of_nat (length arr) then
        match chunks_from fuel' maxConcurrent arr (i + maxConcurrent) with
        | Some rest => Some (Js.slice arr i (i + maxConcurrent) :: rest)
        | None => None
        end
      else Some []
  end.

Definition chunks {A} (fuel : nat) (maxConcurrent : Z) (arr : list A)
    : option (list (list A)) :=
  chunks_from fuel maxConcurrent arr 0.

(** The [n] consecutive indices [hi, hi - 1, ...], highest first. *)
Definition down_from (hi : Z) (n : nat) : list Z :=
  List.map (fun i => hi - Z.of_nat i) (seq 0 n).

(** *** What the main coroutine of [loadNFTs] does, in order *)

(** [Spawn i]: the call [loadNFT(i)], whose promise is pushed on
    [batchPromises]; an [async] function starts running when it is
    called.  [AwaitAllSettled chunk]: [await Promise.allSettled(chunk)].
    [Pause ms]: [await new Promise(r => setTimeout(r, ms))]. *)
Inductive Instr :=
  | Spawn (tokenId : Z)
  | AwaitAllSettled (chunk : list Z)
  | Pause (ms : Z).

Definition batch_program (fuel : nat) (cfg : RateLimitConfig) (b : Batch)
    : option (list Instr) :=
  match chunks fuel (maxConcurrent cfg) (indices b) with
  | Some cs =>
      Some (List.map Spawn (indices b)
            ++ List.map AwaitAllSettled cs
            ++ (if 1 <? batchEnd b then [Pause (delayBetweenBatches cfg)] else []))
  | None => None
  end.

Fixpoint batches_program (fuel : nat) (cfg : RateLimitConfig) (bs : list Batch)
    : option (list Instr) :=
  match bs with
  | [] => Some []
  | b :: bs' =>
      match batch_program fuel cfg b, batches_program fuel cfg bs' with
      | Some p, Some ps => Some (p ++ ps)
      | _, _ => None
      end
  end.

Definition loadNFTs_program (fuel : nat) (cfg : RateLimitConfig) (totalNFTs : Z)
    : option (list Instr) :=
  match batches fuel cfg totalNFTs with
  | Some bs => batches_program fuel cfg bs
  | None => None
  end.

(** *** The event loop, as far as [loadNFTs] exercises it

    [inflight] are the resolver tasks that have started and have not
    settled.  The main coroutine runs until it awaits; tasks make progress
    only while it is suspended. *)
Record Sched := {
  inflight : list Z;
  settled : list Z;
  main : list Instr
}.

Definition suspended (s : Sched) : bool :=
  match main s with
  | Spawn _ :: _ => false
  | _ => true
  end.

Inductive sched_step : Sched -> Sched -> Prop :=
  | step_spawn i rest fl se :
      sched_step {| inflight := fl; settled := se; main := Spawn i :: rest |}
                 {| inflight := fl ++ [i]; settled := se; main := rest |}
  | step_settle i s :
      suspended s = true ->
      i ∈ inflight s ->
      sched_step s {| inflight := List.filter (fun j => negb (j =? i)) (inflight s);
                      settled := i :: settled s;
                      main := main s |}
  | step_resume chunk rest fl se :
      Forall (fun i => i ∈ se) chunk ->
      sched_step {| inflight := fl; settled := se; main := AwaitAllSettled chunk :: rest |}
                 {| inflight := fl; settled := se; main := rest |}
  | step_pause ms rest fl se :
      sched_step {| inflight := fl; settled := se; main := Pause ms :: rest |}
                 {| inflight := fl; settled := se; main := rest |}.

Definition sched_init (program : list Instr) : Sched :=
  {| inflight := []; settled := []; main := program |}.

(** The synchronous run of the main coroutine up to its next [await]. *)
Fixpoint run_to_await (s : Sched) (program : list Instr) : Sched :=
  match program with
  | Spawn i :: rest =>
      run_to_await {| inflight := inflight s ++ [i]; settled := settled s;
                      main := rest |} rest
  | _ => {| inflight := inflight s; settled := settled s; main := program |}
  end.

(** *** One resolver task *)

Section Loader.

(** The ledger: the outcome of the [k]-th call of [contract.tokenURI] for
    a token ([k] counted from 0). *)
Variable tokenURI_rpc : TokenId -> nat -> Error + string.

(** [Date.now()], read when an entry is stored. *)
Variable Date_now : list Event -> Z.

Variable cfg : RateLimitConfig.

Definition is_rpc_of (tokenId : TokenId) (e : Event) : bool :=
  match e with
  | EvRpc t => bool_decide (t = tokenId)
  | _ => false
  end.

(** Number of calls of [contract.tokenURI] made so far for a token. *)
Definition attempts (tokenId : TokenId) (tr : list Event) : nat :=
  length (List.filter (is_rpc_of tokenId) tr).

(** Reading [networkConfig.plantoidAddress] when the current network has
    no configuration. *)
Definition TypeError_plantoidAddress : Error :=
  {| code := None;
     message := Some "Cannot read properties of undefined (reading 'plantoidAddress')" |}.

Definition getCachedTokenURI (tokenId : TokenId) : M string :=
  fun st =>
    match NETWORKS !! currentNetwork st with
    | None => (inl TypeError_plantoidAddress, st)
    | Some networkConfig =>
        let cachedURI :=
          TOKEN_URI_CACHE.get (cache st) (plantoidAddress networkConfig)
            tokenId (currentNetwork st) in
        if Js.truthy_opt cachedURI then (inr (default EmptyString cachedURI), st)
        else
          let st1 := emit (EvRpc tokenId) st in
          match tokenURI_rpc tokenId (attempts tokenId (trace st)) with
          | inr tokenURI =>
              (inr tokenURI,
               with_cache
                 (TOKEN_URI_CACHE.set (cache st1) (plantoidAddress networkConfig)
                    tokenId (currentNetwork st1) tokenURI (Date_now (trace st1)))
                 st1)
          | inl error => (inl error, emit (EvLog (LogFetchFailed tokenId)) st1)
          end
    end.

(** [displayNFT] catches every failure of its own; only the call is kept. *)
Definition displayNFT (tokenId : TokenId) (tokenURI : string) : M unit :=
  tell (EvDisplay tokenId tokenURI).

(** [error.message?.includes(needle)] *)
Definition message_includes (error : Error) (needle : string) : bool :=
  match message error with
  | Some m => Js.includes m needle
  | None => false
  end.

(** The condition of the [catch] block of [loadNFT]. *)
Definition is_throttling (error : Error) : bool :=
  bool_decide (code error = Some "BAD_DATA")
  || message_includes error "Too Many Requests"
  || message_includes error "429".

Definition loadNFT (tokenId : TokenId) : M unit :=
  try_catch
    (exec tell EvJitter ;;
     perform tokenURI <~ getCachedTokenURI tokenId ;;
     displayNFT tokenId tokenURI)
    (fun error =>
       if is_throttling error then
         exec tell (EvSleep (retryDelay cfg)) ;;
         try_catch
           (perform tokenURI <~ getCachedTokenURI tokenId ;;
            displayNFT tokenId tokenURI)
           (fun retryError => tell (EvLog (LogRetryFailed tokenId)))
       else tell (EvLog (LogLoadError tokenId))).

(** The state in which a promise settles. *)
Inductive Settled :=
  | Fulfilled
  | Rejected (reason : Error).

Definition settle (m : M unit) (st : App) : Settled * App :=
  match m st with
  | (inr _, st') => (Fulfilled, st')
  | (inl e, st') => (Rejected e, st')
  end.

(** The tasks of one batch, each run to its end in the order of creation.
    Two tasks of a batch use different cache keys and the ledger answers
    per token, so what a task does is the same in every interleaving. *)
Fixpoint run_tasks (ids : list Z) (st : App) : list Settled * App :=
  match ids with
  | [] => ([], st)
  | i :: ids' =>
      let '(r, st1) := settle (loadNFT (IdNum i)) st in
      let '(rs, st2) := run_tasks ids' st1 in
      (r :: rs, st2)
  end.

(** One turn of the outer loop: the promises, the chunked
    [Promise.allSettled] and the pause. *)
Definition process_batch (fuel : nat) (b : Batch) (st : App)
    : option (list Settled * App) :=
  let '(promises, st1) := run_tasks (indices b) st in
  match chunks fuel (maxConcurrent cfg) promises with
  | Some cs =>
      let results := concat cs in
      Some (results,
            if 1 <? batchEnd b
            then emit (EvSleep (delayBetweenBatches cfg)) st1
            else st1)
  | None => None
  end.

Fixpoint process_batches (fuel : nat) (bs : list Batch) (st : App) : option App :=
  match bs with
  | [] => Some st
  | b :: bs' =>
      match process_batch fuel b st with
      | Some (_, st1) => process_batches fuel bs' st1
      | None => None
      end
  end.

(** The batch loop of [loadNFTs] for a positive total supply. *)
Definition loadNFTs_loop (fuel : nat) (totalNFTs : Z) (st : App) : option App :=
  match batches fuel cfg totalNFTs with
  | Some bs => process_batches fuel bs st
  | None => None
  end.

(** *** [loadUnrevealedNFTs], first revision: the index is checked
    against the contract *)

(** The body of [for (const seed of combinedData)]. *)
Definition check_seed (acc : list Combined) (s : Combined) (st : App)
    : list Combined * App :=
  if Gallery.notRevealed s && Gallery.hasSignature s then
    match getCachedTokenURI (IdStr (tokenId (seed s))) st with
    | (inr currentUri, st') =>
        let isActuallyRevealed := bool_decide (Some currentUri = revealedUri s) in
        if negb isActuallyRevealed then (acc ++ [s], st') else (acc, st')
    | (inl error, st') => (acc ++ [s], st')
    end
  else (acc, st).

Fixpoint check_seeds (acc : list Combined) (l : list Combined) (st : App)
    : list Combined * App :=
  match l with
  | [] => (acc, st)
  | s :: l' =>
      let '(acc1, st1) := check_seed acc s st in
      check_seeds acc1 l' st1
  end.

(** [mainSeeds] and [metadataSignatures] are what the two subgraph queries
    returned. *)
Definition loadUnrevealedNFTs (mainSeeds : list Seed)
    (metadataSignatures : list SeedMetadata) (st : App) : App :=
  match NETWORKS !! currentNetwork st with
  | None => with_table TableErrorLoading st
  | Some _ =>
      let combined := Gallery.combinedData mainSeeds metadataSignatures in
      let '(unrevealedWithSignatures, st1) := check_seeds [] combined st in
      if (0 <? length unrevealedWithSignatures)%nat
      then Gallery.store_and_display unrevealedWithSignatures st1
      else st1
  end.

End Loader.

End RateLimited.

(* ===================================================================== *)
(** ** Second revision: the subgraph is trusted                           *)
(* ===================================================================== *)

Module Subgraph.

(** The body of [for (const seed of combinedData)]. *)
Definition push_if_eligible (acc : list Combined) (s : Combined) : list Combined :=
  if Gallery.notRevealed s && Gallery.hasSignature s then acc ++ [s] else acc.

Definition unrevealedWithSignatures (combined : list Combined) : list Combined :=
  foldl push_if_eligible [] combined.

(** [(a, b) => parseInt(b.tokenId) - parseInt(a.tokenId)] *)
Definition by_tokenId_desc (a b : Combined) : option Z :=
  match Js.parseInt (tokenId (seed b)), Js.parseInt (tokenId (seed a)) with
  | Some pb, Some pa => Some (pb - pa)
  | _, _ => None
  end.

Definition loadUnrevealedNFTs (mainSeeds : list Seed)
    (metadataSignatures : list SeedMetadata) (st : App) : App :=
  match NETWORKS !! currentNetwork st with
  | None => with_table TableErrorLoading st
  | Some _ =>
      let combined := Gallery.combinedData mainSeeds metadataSignatures in
      let eligible := unrevealedWithSignatures combined in
      if (0 <? length eligible)%nat then
        let sortedUnrevealedSeeds := Js.sort by_tokenId_desc eligible in
        Gallery.store_and_display sortedUnrevealedSeeds st
      else st
  end.

End Subgraph.

(* ===================================================================== *)
(** ** Measures used to state properties of the cache                     *)
(* ===================================================================== *)

(** The number of entries of a cache that [getStats] counts under a
    label. *)
Definition labelled (cache : TOKEN_URI_CACHE.Cache) (L : string) : nat :=
  length (filter (fun kv : string * TOKEN_URI_CACHE.Entry =>
                    TOKEN_URI_CACHE.network_label kv.2 = L)
            (map_to_list cache)).

(** The sum of the counters of [getStats] that are numbers. *)
Definition byNetwork_total (st : TOKEN_URI_CACHE.Stats) : nat :=
  map_fold (fun (_ : string) (c : TOKEN_URI_CACHE.Counter) (acc : nat) =>
              match c with
              | TOKEN_URI_CACHE.Count n => (n + acc)%nat
              | TOKEN_URI_CACHE.Text _ => acc
              end) 0%nat
    (TOKEN_URI_CACHE.byNetwork st).

(** What one more entry under a label makes of the property [byNetwork]
    has for that label. *)
Definition bump (L : string) (c : option TOKEN_URI_CACHE.Counter)
    : option TOKEN_URI_CACHE.Counter :=
  match c with
  | Some (TOKEN_URI_CACHE.Count n) => Some (TOKEN_URI_CACHE.Count (n + 1)%nat)
  | Some (TOKEN_URI_CACHE.Text ones) => Some (TOKEN_URI_CACHE.Text (ones + 1)%nat)
  | None =>
      if bool_decide (L = "__proto__") then None
      else if bool_decide (L ∈ Js.Object_prototype_functions)
      then Some (TOKEN_URI_CACHE.Text 1)
      else Some (TOKEN_URI_CACHE.Count 1)
  end.

(* ===================================================================== *)
(** ** Conditions used to state properties of the paginated table        *)
(* ===================================================================== *)

(** The pagination state holds the list [l] with its length, the current
    page is a page of that list (page 1 when the list is empty), and the
    table on the page is the rendering of the pagination state. *)
Definition paged_in_sync (l : list Combined) (ipp : Z) (st : App) : Prop :=
  let p := UNREVEALED_PAGINATION st in
  data p = l
  /\ totalItems p = Z.of_nat (length l)
  /\ itemsPerPage p = ipp
  /\ 1 <= currentPage p
  /\ (currentPage p - 1) * ipp < Z.max 1 (Z.of_nat (length l))
  /\ unrevealedTable st = Some (TableRows (Gallery.render p)).

(** The records of page [k] of a pagination state. *)
Definition page_records (p : Pagination) (k : Z) : list Combined :=
  Gallery.currentPageData (Gallery.set_currentPage k p).

(** A run of page requests, in order. *)
Definition changePages (pages : list Z) (st : App) : App :=
  foldl (fun s k => Gallery.changePage k s) st pages.

(* ===================================================================== *)
(** ** Sample inputs                                                      *)
(* ===================================================================== *)

(** A cache with two entries of one network and one of another. *)
Definition sample_cache : TOKEN_URI_CACHE.Cache :=
  TOKEN_URI_CACHE.set
    (TOKEN_URI_CACHE.set
       (TOKEN_URI_CACHE.set ∅ "0xAB" (IdNum 1) "sepolia" "ipfs://a" 10)
       "0xAB" (IdNum 2) "sepolia" "ipfs://b" 11)
    "0xCD" (IdStr "1") "mainnet" "ipfs://c" 12.

(** The three records of the eligibility example: not revealed with the
    signature "0x", revealed with a signature, not revealed with a
    signature. *)
Definition eligibility_record (n : string) (isRevealed : bool) (sig : string)
    : Combined :=
  {| seed := {| seed_id := "0xab_" +:+ n; tokenId := n; revealed := isRevealed;
                holder := Some "0x00000000000000000000000000000000000000aa" |};
     revealedUri := Some "ipfs://revealed";
     revealedSignature := Some sig |}.

Definition eligibility_examples : list Combined :=
  [ eligibility_record "1" false "0x";
    eligibility_record "2" true "0xdead";
    eligibility_record "3" false "0xdead" ].

(** A cache with one entry that was stored with an empty network tag. *)
Definition untagged_cache : TOKEN_URI_CACHE.Cache :=
  TOKEN_URI_CACHE.set ∅ "0xAB" (IdNum 1) EmptyString "ipfs://a" 10.

(** Twelve records eligible for a reveal, token ids 12 down to 1. *)
Definition sample_record (n : Z) : Combined :=
  {| seed := {| seed_id := "0xab_" +:+ Js.toString10 n;
                tokenId := Js.toString10 n;
                revealed := false;
                holder := Some "0x00000000000000000000000000000000000000aa" |};
     revealedUri := Some "ipfs://revealed";
     revealedSignature := Some "0xdead" |}.

Definition sample_records : list Combined :=
  List.map sample_record [12; 11; 10; 9; 8; 7; 6; 5; 4; 3; 2; 1].

(** The page state with those records stored, showing page [page]. *)
Definition sample_app (page : Z) : App :=
  {| currentNetwork := "sepolia";
     NETWORK_STORAGE := Some "sepolia";
     cache := sample_cache;
     UNREVEALED_PAGINATION :=
       {| itemsPerPage := 5; currentPage := page;
          totalItems := 12; data := sample_records |};
     unrevealedTable := None;
     trace := [] |}.

(** The secondary records of the matcher example of the specification. *)
Definition example_md (i : string) : SeedMetadata :=
  {| md_id := i;
     md_revealedUri := Some ("ipfs://reveal-" +:+ i);
     md_revealedSignature := Some "0xdead" |}.

Definition example_metadata : list SeedMetadata :=
  [example_md "0xabc_7"; example_md "0x7"; example_md "7"].

Definition example_seed : Seed :=
  {| seed_id := "0xabc_7"; tokenId := "7"; revealed := false;
     holder := Some "0x00000000000000000000000000000000000000aa" |}.

(** Two seeds as the main subgraph lists them, lowest id first, both
    with a signature in the metadata subgraph; a ledger that still
    answers the unrevealed pointer. *)
Definition seed_of (n : string) : Seed :=
  {| seed_id := "0x66078a2061a68d5ba6cddbc81517837da0c7d7b5_" +:+ n;
     tokenId := n; revealed := false;
     holder := Some "0x00000000000000000000000000000000000000aa" |}.

Definition metadata_of (n : string) : SeedMetadata :=
  {| md_id := "0x66078a2061a68d5ba6cddbc81517837da0c7d7b5_" +:+ n;
     md_revealedUri := Some ("ipfs://revealed-" +:+ n);
     md_revealedSignature := Some "0xdead" |}.

Definition unrevealed_ledger (t : TokenId) (k : nat) : Error + string :=
  inr "ipfs://unrevealed".

Definition fresh_app : App :=
  {| currentNetwork := "sepolia";
     NETWORK_STORAGE := Some "sepolia";
     cache := ∅;
     UNREVEALED_PAGINATION := UNREVEALED_PAGINATION_init;
     unrevealedTable := None;
     trace := [] |}.

(** A ledger that throttles the first call for every token and answers
    the second, and one that fails every call with a timeout. *)
Definition throttled_once_ledger (t : TokenId) (k : nat) : Error + string :=
  match k with
  | O => inl {| code := Some "SERVER_ERROR";
                message := Some "429 Too Many Requests" |}
  | S _ => inr "ipfs://unrevealed"
  end.

Definition timeout_ledger (t : TokenId) (k : nat) : Error + string :=
  inl {| code := Some "TIMEOUT"; message := Some "request timeout" |}.

(** The configuration of the test network, a page state whose cache
    already holds the pointer of token 12 on that network, and a ledger
    that answers every call with the empty string. *)
Definition sepolia_config : NetworkConfig :=
  {| name := "Sepolia Testnet";
     chainId := 11155111;
     rpcUrl := "https://sepolia.infura.io/v3/" +:+ INFURA_PROJECT_ID;
     plantoidAddress := "0x66078a2061A68d5bA6cDdBc81517837dA0C7d7b5";
     blockExplorer := "https://sepolia.etherscan.io";
     isTestnet := true |}.

Definition cached_app : App :=
  {| currentNetwork := "sepolia";
     NETWORK_STORAGE := Some "sepolia";
     cache := TOKEN_URI_CACHE.set ∅ (plantoidAddress sepolia_config) (IdNum 12)
                "sepolia" "ipfs://unrevealed" 0;
     UNREVEALED_PAGINATION := UNREVEALED_PAGINATION_init;
     unrevealedTable := None;
     trace := [] |}.

Definition empty_pointer_ledger (t : TokenId) (k : nat) : Error + string :=
  inr EmptyString.

(** A configuration whose [batchSize] and [maxConcurrent] are zero. *)
Definition stalled_config : RateLimitConfig :=
  {| maxConcurrent := 0;
     delayBetweenBatches := 1000;
     batchSize := 0;
     retryDelay := 2000;
     randomDelay := 200 |}.

(** What a run of the loader leaves as it was: the network, the stored
    reveal list and the table are the same, the trace is extended, every
    cache key is still present, and an entry with a non-empty pointer is
    unchanged. *)
Definition loader_frame (st st' : App) : Prop :=
  currentNetwork st' = currentNetwork st
  /\ NETWORK_STORAGE st' = NETWORK_STORAGE st
  /\ UNREVEALED_PAGINATION st' = UNREVEALED_PAGINATION st
  /\ unrevealedTable st' = unrevealedTable st
  /\ (exists evs, trace st' = trace st ++ evs)
  /\ (forall k, is_Some (cache st !! k) -> is_Some (cache st' !! k))
  /\ (forall k e, cache st !! k = Some e ->
        Js.truthy (TOKEN_URI_CACHE.tokenURI e) = true -> cache st' !! k = Some e).

(* ===================================================================== *)
(** ** Conditions used to state properties of the matcher                 *)
(* ===================================================================== *)

(** A decimal digit. *)
Definition is_digit (c : ascii) : bool :=
  let n := nat_of_ascii c in ((48 <=? n) && (n <=? 57))%nat.

(** A string made of decimal digits only. *)
Fixpoint all_digits (s : string) : bool :=
  match s with
  | EmptyString => true
  | String c s' => is_digit c && all_digits s'
  end.

(** [Number.MAX_SAFE_INTEGER] *)
Definition MAX_SAFE_INTEGER : Z := 9007199254740991.

(** The token id reads as no number, or as an integer that a Number holds
    exactly. *)
Definition safe_tokenId (t : string) : Prop :=
  match Js.parseInt t with
  | Some n => - MAX_SAFE_INTEGER <= n <= MAX_SAFE_INTEGER
  | None => True
  end.

(** The token id reads as an integer between 0 and
    [Number.MAX_SAFE_INTEGER]. *)
Definition safe_numeric (t : string) : Prop :=
  exists n, Js.parseInt t = Some n /\ 0 <= n <= MAX_SAFE_INTEGER.

(* ===================================================================== *)
(** ** Second revision: the gallery of revealed seeds                     *)
(* ===================================================================== *)

Module JsStr.

(** [s.startsWith(p)] *)
Definition startsWith (s p : string) : bool := String.prefix p s.

(** The string without its first [n] characters. *)
Fixpoint skip (n : nat) (s : string) : string :=
  match n, s with
  | O, _ => s
  | S n', String _ s' => skip n' s'
  | S _, EmptyString => EmptyString
  end.

(** [s.replace(pattern, replacement)] with a string pattern: the first
    occurrence is replaced, and nothing is when there is none. *)
Fixpoint replace (s pattern replacement : string) : string :=
  if String.prefix pattern s
  then replacement +:+ skip (String.length pattern) s
  else match s with
       | EmptyString => EmptyString
       | String c s' => String c (replace s' pattern replacement)
       end.

End JsStr.

(** [queryRevealedSeeds], [fetchIPFSMetadata], [getOpenSeaUrl] and
    [loadNFTs] of the revision that reads the revealed seeds from the
    subgraph.  The object [ipfsContent] is used as a table from [seed.id]
    to the parsed document; the ids are those of subgraph entities, none
    of which is a property name of [Object.prototype]. *)
Module RevealedGallery.

(** A record of the query [getRevealedSeeds]; [uri] is nullable. *)
Record RevealedSeed := {
  rs_id : string;
  rs_tokenId : string;
  rs_uri : option string
}.

(** A field of a parsed JSON document, as far as the gallery tells values
    apart: a string; a value that is absent or falsy without being a string
    ([null], [false], [0]); or a truthy value that is no string ([true], a
    number other than 0, an object, an array), on which [startsWith] is no
    function. *)
Inductive Field :=
  | FieldString (s : string)
  | FieldFalsy
  | FieldTruthy.

(** The metadata document of a seed, as far as the gallery reads it.  The
    gateway decides what the document holds.  A document that is no object
    ([null], a number, a string, an array) reads as one with both fields
    absent. *)
Record IpfsMetadata := {
  animation_url : Field;
  image : Field
}.

(** The truth value of a field in a condition. *)
Definition field_truthy (f : Field) : bool :=
  match f with
  | FieldString s => Js.truthy s
  | FieldFalsy => false
  | FieldTruthy => true
  end.

(** What [fetch(metadataUrl)] followed by [response.json()] comes to. *)
Inductive FetchResult :=
  | FetchJson (metadata : IpfsMetadata)   (* response.ok, body parsed *)
  | FetchNotOk                            (* response.ok is false *)
  | FetchThrows.                          (* fetch or json() rejects *)

(** What the POST to the subgraph comes to. *)
Inductive GraphReply :=
  | ReplyThrows                                     (* fetch or json() rejects *)
  | ReplyErrors                                     (* result.errors is set *)
  | ReplyData (seeds : option (list RevealedSeed)). (* result.data?.plantoidInstance?.seeds *)

Definition mainSubgraphs : gmap string string :=
  <["sepolia" := "https://api.studio.thegraph.com/query/68539/plantoid-sep/3"]>
  (<["mainnet" := "https://gateway-arbitrum.network.thegraph.com/api/5aa71d6a9735426594a4f8c82de56afc/subgraphs/id/HCzhXN9mNjupmWemF6NsTmuoYFUonfwSmjHJ5MC8z3Rq"]> ∅).

(** [queryRevealedSeeds]: every failure comes out as the empty list. *)
Definition queryRevealedSeeds (reply : GraphReply) (currentNetwork : string)
    : list RevealedSeed :=
  match mainSubgraphs !! currentNetwork with
  | None => []
  | Some subgraphUrl =>
      match reply with
      | ReplyThrows => []
      | ReplyErrors => []
      | ReplyData seeds => default [] seeds
      end
  end.

(** [`https://ipfs.io/ipfs/${seed.uri.replace("ipfs://", "")}`] *)
Definition metadataUrl (uri : string) : string :=
  "https://ipfs.io/ipfs/" +:+ JsStr.replace uri "ipfs://" EmptyString.

(** One turn of the loop of [fetchIPFSMetadata]: the table so far and the
    URLs requested so far, in order.  [fetch k url] is the outcome of the
    [k]-th request (from 0) when it asks for [url]. *)
Definition fetch_step (fetch : nat -> string -> FetchResult)
    (acc : gmap string IpfsMetadata * list string) (seed : RevealedSeed)
    : gmap string IpfsMetadata * list string :=
  if negb (Js.truthy_opt (rs_uri seed)) then acc
  else
    let url := metadataUrl (default EmptyString (rs_uri seed)) in
    match fetch (length acc.2) url with
    | FetchJson metadata => (<[rs_id seed := metadata]> acc.1, acc.2 ++ [url])
    | FetchNotOk => (acc.1, acc.2 ++ [url])
    | FetchThrows => (acc.1, acc.2 ++ [url])
    end.

Definition fetchIPFSMetadata (fetch : nat -> string -> FetchResult)
    (seeds : list RevealedSeed) : gmap string IpfsMetadata * list string :=
  foldl (fetch_step fetch) (∅, []) seeds.

(** An element of [nftsWithVideos]. *)
Record Nft := {
  nft_tokenId : string;
  nft_animationUrl : string;
  nft_imageUrl : string
}.

(** [u.startsWith("ipfs://") ? "https://ipfs.io/ipfs/" + u.replace("ipfs://", "") : u] *)
Definition gateway (u : string) : string :=
  if JsStr.startsWith u "ipfs://"
  then "https://ipfs.io/ipfs/" +:+ JsStr.replace u "ipfs://" EmptyString
  else u.

(** The same expression on a field of the document; [None] is the
    [TypeError] of calling [startsWith] on a value that is no string. *)
Definition gateway_field (f : Field) : option string :=
  match f with
  | FieldString u => Some (gateway u)
  | FieldFalsy | FieldTruthy => None
  end.

(** The callback of [revealedSeeds.forEach]; [None] when it throws. *)
Definition push_if_video (ipfsContent : gmap string IpfsMetadata)
    (acc : list Nft) (seed : RevealedSeed) : option (list Nft) :=
  match ipfsContent !! rs_id seed with
  | Some metadata =>
      if field_truthy (animation_url metadata) then
        match gateway_field (animation_url metadata) with
        | None => None
        | Some animationUrl =>
            match (if field_truthy (image metadata)
                   then gateway_field (image metadata)
                   else Some EmptyString) with
            | None => None
            | Some imageUrl =>
                Some (acc ++ [ {| nft_tokenId := rs_tokenId seed;
                                  nft_animationUrl := animationUrl;
                                  nft_imageUrl := imageUrl |} ])
            end
        end
      else Some acc
  | None => Some acc
  end.

(** [revealedSeeds.forEach(callback)]: the first call that throws ends the
    loop. *)
Fixpoint forEach_push (ipfsContent : gmap string IpfsMetadata)
    (acc : list Nft) (seeds : list RevealedSeed) : option (list Nft) :=
  match seeds with
  | [] => Some acc
  | seed :: rest =>
      match push_if_video ipfsContent acc seed with
      | Some acc' => forEach_push ipfsContent acc' rest
      | None => None
      end
  end.

(** [(a, b) => parseInt(b.tokenId) - parseInt(a.tokenId)] *)
Definition by_tokenId_desc (a b : Nft) : option Z :=
  match Js.parseInt (nft_tokenId b), Js.parseInt (nft_tokenId a) with
  | Some pb, Some pa => Some (pb - pa)
  | _, _ => None
  end.

Definition getOpenSeaUrl (contractAddress tokenId : string) (isTestnet : bool)
    : string :=
  if isTestnet
  then "https://testnets.opensea.io/assets/sepolia/" +:+ contractAddress
       +:+ "/" +:+ tokenId
  else "https://opensea.io/assets/ethereum/" +:+ contractAddress
       +:+ "/" +:+ tokenId.

(** A card appended to [#nft-gallery]. *)
Record Card := {
  card_href : string;
  card_video : string;
  card_poster : string;
  card_seed : string
}.

Definition card (networkConfig : NetworkConfig) (nft : Nft) : Card :=
  {| card_href := getOpenSeaUrl (plantoidAddress networkConfig) (nft_tokenId nft)
                    (isTestnet networkConfig);
     card_video := nft_animationUrl nft;
     card_poster := nft_imageUrl nft;
     card_seed := nft_tokenId nft |}.

(** What [loadNFTs] leaves on the page: the cards, the loading notice and
    whether it shows, and the error notice when it shows. *)
Record View := {
  gallery : list Card;
  loadingText : string;
  loadingShown : bool;
  errorShown : option string
}.

(** [loadNFTs], second revision, with the URLs it requested. *)
Definition loadNFTs (reply : GraphReply) (fetch : nat -> string -> FetchResult)
    (currentNetwork : string) : View * list string :=
  match NETWORKS !! currentNetwork with
  | None =>
      (* [networkConfig.plantoidAddress] throws; [showError] *)
      ({| gallery := [];
          loadingText := "Loading revealed NFTs with videos...";
          loadingShown := false;
          errorShown := Some "Failed to load NFTs. Please try again." |}, [])
  | Some networkConfig =>
      let revealedSeeds := queryRevealedSeeds reply currentNetwork in
      if (length revealedSeeds =? 0)%nat then
        ({| gallery := [];
            loadingText := "No revealed NFTs with videos found";
            loadingShown := true;
            errorShown := None |}, [])
      else
        let '(ipfsContent, requested) := fetchIPFSMetadata fetch revealedSeeds in
        match forEach_push ipfsContent [] revealedSeeds with
        | None =>
            (* the callback throws before any card is made; [showError] *)
            ({| gallery := [];
                loadingText := "Loading revealed NFTs with videos...";
                loadingShown := false;
                errorShown := Some "Failed to load NFTs. Please try again." |},
             requested)
        | Some nftsWithVideos =>
            let sorted := Js.sort by_tokenId_desc nftsWithVideos in
            let cards := List.map (card networkConfig) sorted in
            (if (length nftsWithVideos =? 0)%nat then
               {| gallery := cards;
                  loadingText := "No revealed NFTs with videos found";
                  loadingShown := true;
                  errorShown := None |}
             else
               {| gallery := cards;
                  loadingText := "Loading revealed NFTs with videos...";
                  loadingShown := false;
                  errorShown := None |},
             requested)
        end
  end.

End RevealedGallery.

(* ===================================================================== *)
(** ** Conditions used to state properties of the gallery                 *)
(* ===================================================================== *)

(** The comparator [(a, b) => key(b) - key(a)] of a descending sort, and
    the order it stands for. *)
Definition desc_by {A} (key : A -> option Z) (a b : A) : option Z :=
  match key b, key a with
  | Some pb, Some pa => Some (pb - pa)
  | _, _ => None
  end.

Definition key_ge {A} (key : A -> option Z) (a b : A) : Prop :=
  exists pa pb, key a = Some pa /\ key b = Some pb /\ pb <= pa.

(** The seed has a pointer to its metadata. *)
Definition has_uri (seed : RevealedGallery.RevealedSeed) : bool :=
  Js.truthy_opt (RevealedGallery.rs_uri seed).

(** The element of [nftsWithVideos] a seed gives rise to, when it does. *)
Definition video_of (ipfsContent : gmap string RevealedGallery.IpfsMetadata)
    (seed : RevealedGallery.RevealedSeed) : option RevealedGallery.Nft :=
  match RevealedGallery.push_if_video ipfsContent [] seed with
  | Some pushed => pushed !! 0%nat
  | None => None
  end.

(** The document names a video and one of the two fields the gallery calls
    [startsWith] on is no string. *)
Definition ill_typed (metadata : RevealedGallery.IpfsMetadata) : bool :=
  match RevealedGallery.animation_url metadata, RevealedGallery.image metadata with
  | RevealedGallery.FieldTruthy, _ => true
  | RevealedGallery.FieldString u, RevealedGallery.FieldTruthy => Js.truthy u
  | _, _ => false
  end.

(** The view after [showError("Failed to load NFTs. Please try again.")]
    before any card was made. *)
Definition failed_view : RevealedGallery.View :=
  {| RevealedGallery.gallery := [];
     RevealedGallery.loadingText := "Loading revealed NFTs with videos...";
     RevealedGallery.loadingShown := false;
     RevealedGallery.errorShown := Some "Failed to load NFTs. Please try again." |}.

(** Sample data: three revealed seeds, the second without a pointer, and
    a gateway that serves a video for the first and fails for the third. *)
Definition revealed_seed (n : string) (uri : option string)
    : RevealedGallery.RevealedSeed :=
  {| RevealedGallery.rs_id := "0x66078a2061a68d5ba6cddbc81517837da0c7d7b5_" +:+ n;
     RevealedGallery.rs_tokenId := n;
     RevealedGallery.rs_uri := uri |}.

Definition sample_revealed : list RevealedGallery.RevealedSeed :=
  [ revealed_seed "3" (Some "ipfs://Qm3");
    revealed_seed "4" None;
    revealed_seed "11" (Some "ipfs://Qm11") ].

Definition sample_fetch (k : nat) (url : string) : RevealedGallery.FetchResult :=
  if String.eqb url "https://ipfs.io/ipfs/Qm3" then
    RevealedGallery.FetchJson
      {| RevealedGallery.animation_url := RevealedGallery.FieldString "ipfs://video3";
         RevealedGallery.image := RevealedGallery.FieldString "https://example.org/3.png" |}
  else if String.eqb url "https://ipfs.io/ipfs/Qm11" then
    RevealedGallery.FetchJson
      {| RevealedGallery.animation_url := RevealedGallery.FieldString "https://example.org/11.mp4";
         RevealedGallery.image := RevealedGallery.FieldFalsy |}
  else RevealedGallery.FetchThrows.

(** A gateway whose document for the third seed names a list of videos
    where a string is expected. *)
Definition listed_fetch (k : nat) (url : string) : RevealedGallery.FetchResult :=
  if String.eqb url "https://ipfs.io/ipfs/Qm11" then
    RevealedGallery.FetchJson
      {| RevealedGallery.animation_url := RevealedGallery.FieldTruthy;
         RevealedGallery.image := RevealedGallery.FieldFalsy |}
  else sample_fetch k url.

(* ===================================================================== *)
(** ** [window.revealNFT]                                                  *)
(* ===================================================================== *)

(** The handler of the reveal button.  The constructors
    [ethers.BrowserProvider] and [ethers.Contract] are taken not to
    throw; every awaited call may reject. *)
Module Reveal.

(** A rejection raised by the wallet, the provider or the contract, as
    far as the handlers read it: [code], [message] and [data]. *)
Record WalletError := {
  we_code : option string;
  we_message : option string;
  we_data : option string
}.

(** What the wallet, the provider and the contract answer during one call
    of [revealNFT]; [None] stands for success. *)
Record Wallet := {
  ethereum : bool;                          (* window.ethereum is set *)
  eth_requestAccounts : option WalletError; (* window.ethereum.request *)
  getSigner : option WalletError;           (* provider.getSigner() *)
  getNetwork : WalletError + Z;             (* (await provider.getNetwork()).chainId *)
  estimateGas : option WalletError;         (* revealContent.estimateGas(...) *)
  revealContent : option WalletError;       (* revealContent(...) *)
  tx_wait : option WalletError              (* tx.wait() *)
}.

(** What a call of [revealNFT] does that is visible from outside, in
    order: the alerts and the calls it makes. *)
Inductive Effect :=
  | Alert (text : string)
  | RequestAccounts
  | EstimateGas (tokenId revealedUri revealedSignature : string)
  | RevealContent (tokenId revealedUri revealedSignature : string)
  | Reload.                                 (* loadUnrevealedNFTs(); loadNFTs() *)

Global Instance Effect_eq_dec : EqDecision Effect.
Proof. solve_decision. Defined.

(** Reading [networkConfig.chainId] when the current network has no
    configuration. *)
Definition TypeError_chainId : WalletError :=
  {| we_code := None;
     we_message := Some "Cannot read properties of undefined (reading 'chainId')";
     we_data := None |}.

(** The alert of the inner [catch (gasError)]. *)
Definition gas_alert (gasError : WalletError) : string :=
  if bool_decide (we_data gasError = Some "0xa89ac151")
  then "Reveal failed: Invalid signature or this NFT cannot be revealed yet."
  else "Reveal failed: " +:+
       (if Js.truthy_opt (we_message gasError)
        then default EmptyString (we_message gasError)
        else "Unknown contract error").

(** The alert of the outer [catch (error)]. *)
Definition catch_alert (error : WalletError) : string :=
  if bool_decide (we_code error = Some "CALL_EXCEPTION")
  then "Transaction failed: The smart contract rejected this reveal. This could mean the signature is invalid, expired, or the NFT is already revealed."
  else if bool_decide (we_code error = Some "ACTION_REJECTED")
  then "Transaction cancelled by user."
  else "Error revealing NFT: " +:+ default "undefined" (we_message error).

(** The body of the outer [try]: what it did, the error it threw if it
    threw one, and the page state.  [alreadyRevealed] is the check made
    between the network test and the gas estimate; the two revisions of
    the script differ in it only. *)
Definition try_body (alreadyRevealed : App -> bool * App) (w : Wallet)
    (tokenId revealedUri revealedSignature : string) (st : App)
    : list Effect * option WalletError * App :=
  if negb (ethereum w) then
    ([Alert "Please install MetaMask to reveal NFTs!"], None, st)
  else if negb (Js.truthy tokenId) || negb (Js.truthy revealedUri)
          || negb (Js.truthy revealedSignature) then
    ([Alert "Missing required data for reveal. Please try again."], None, st)
  else
    match eth_requestAccounts w with
    | Some error => ([RequestAccounts], Some error, st)
    | None =>
    match getSigner w with
    | Some error => ([RequestAccounts], Some error, st)
    | None =>
    match getNetwork w with
    | inl error => ([RequestAccounts], Some error, st)
    | inr chain =>
    match NETWORKS !! currentNetwork st with
    | None => ([RequestAccounts], Some TypeError_chainId, st)
    | Some networkConfig =>
        if negb (chain =? chainId networkConfig) then
          ([RequestAccounts;
            Alert ("Please switch to " +:+ name networkConfig +:+ " in MetaMask!")],
           None, st)
        else
          let '(already, st1) := alreadyRevealed st in
          if already then
            ([RequestAccounts; Alert "This NFT appears to already be revealed!"],
             None, st1)
          else
            match estimateGas w with
            | Some gasError =>
                ([RequestAccounts;
                  EstimateGas tokenId revealedUri revealedSignature;
                  Alert (gas_alert gasError)], None, st1)
            | None =>
            match revealContent w with
            | Some error =>
                ([RequestAccounts;
                  EstimateGas tokenId revealedUri revealedSignature;
                  RevealContent tokenId revealedUri revealedSignature],
                 Some error, st1)
            | None =>
            match tx_wait w with
            | Some error =>
                ([RequestAccounts;
                  EstimateGas tokenId revealedUri revealedSignature;
                  RevealContent tokenId revealedUri revealedSignature],
                 Some error, st1)
            | None =>
                ([RequestAccounts;
                  EstimateGas tokenId revealedUri revealedSignature;
                  RevealContent tokenId revealedUri revealedSignature;
                  Reload], None, st1)
            end end end
    end end end end.

Definition revealNFT_with (alreadyRevealed : App -> bool * App) (w : Wallet)
    (tokenId revealedUri revealedSignature : string) (st : App)
    : list Effect * App :=
  let '(effects, thrown, st') :=
    try_body alreadyRevealed w tokenId revealedUri revealedSignature st in
  match thrown with
  | Some error => (effects ++ [Alert (catch_alert error)], st')
  | None => (effects, st')
  end.

Section OnChain.

Variable tokenURI_rpc : TokenId -> nat -> Error + string.
Variable Date_now : list Event -> Z.

(** First revision: [currentUri === revealedUri], with the pointer read
    through [getCachedTokenURI]; a failure of the read is logged and the
    reveal goes on. *)
Definition currentUri_is (tokenId revealedUri : string) (st : App) : bool * App :=
  match RateLimited.getCachedTokenURI tokenURI_rpc Date_now (IdStr tokenId) st with
  | (inr currentUri, st') => (String.eqb currentUri revealedUri, st')
  | (inl error, st') => (false, st')
  end.

Definition revealNFT_onchain (w : Wallet)
    (tokenId revealedUri revealedSignature : string) (st : App) : list Effect * App :=
  revealNFT_with (currentUri_is tokenId revealedUri) w
    tokenId revealedUri revealedSignature st.

End OnChain.

(** Second revision: no check, the subgraph is trusted. *)
Definition revealNFT (w : Wallet)
    (tokenId revealedUri revealedSignature : string) (st : App) : list Effect * App :=
  revealNFT_with (fun st => (false, st)) w tokenId revealedUri revealedSignature st.


(** The calls of a reveal that goes through, in order. *)
Definition script (tokenId revealedUri revealedSignature : string) : list Effect :=
  [ RequestAccounts;
    EstimateGas tokenId revealedUri revealedSignature;
    RevealContent tokenId revealedUri revealedSignature;
    Reload ].

Definition is_alert (e : Effect) : bool :=
  match e with
  | Alert _ => true
  | _ => false
  end.

(** A wallet on the test network that accepts everything. *)
Definition willing_wallet : Wallet :=
  {| ethereum := true;
     eth_requestAccounts := None;
     getSigner := None;
     getNetwork := inr 11155111;
     estimateGas := None;
     revealContent := None;
     tx_wait := None |}.

End Reveal.

(* ===================================================================== *)
(** * Properties                                                          *)
(* ===================================================================== *)

(** ** JavaScript primitives *)

Example toLowerCase_ex :
  Js.toLowerCase "0x4073E38f71b2612580E9e381031B0c38B3B4C27E"
  = "0x4073e38f71b2612580e9e381031b0c38b3b4c27e".
Proof. reflexivity. Qed.

Example parseInt_ex :
  Js.parseInt "7" = Some 7 /\ Js.parseInt " 42abc" = Some 42 /\
  Js.parseInt "0x1f" = Some 31 /\ Js.parseInt "abc" = None /\
  Js.parseInt "-12" = Some (-12) /\ Js.parseInt EmptyString = None.
Proof. repeat split; reflexivity. Qed.

Example toString16_ex :
  Js.toString16 (Some 255) = "ff" /\ Js.toString16 (Some 0) = "0" /\
  Js.toString16 None = "NaN" /\ Js.toString16 (Some 4096) = "1000" /\
  Js.toString16 (Some (-26)) = "-1a".
Proof. repeat split; reflexivity. Qed.

Example endsWith_ex :
  Js.endsWith "0xabc_7" "_7" = true /\ Js.endsWith "7" "_7" = false /\
  Js.endsWith "0xabc_17" "_7" = false /\ Js.endsWith "abc" EmptyString = true.
Proof. repeat split; reflexivity. Qed.

Example includes_ex :
  Js.includes "HTTP 429 error" "429" = true /\
  Js.includes "timeout" "429" = false /\ Js.includes EmptyString EmptyString = true.
Proof. repeat split; reflexivity. Qed.

Example slice_ex :
  Js.slice [1;2;3;4;5] 1 3 = [2;3] /\ Js.slice [1;2;3;4;5] 3 10 = [4;5] /\
  Js.slice [1;2;3;4;5] (-2) 5 = [4;5] /\ Js.slice [1;2;3;4;5] 4 2 = [].
Proof. repeat split; reflexivity. Qed.

(** ** The token-URI cache *)

Section CacheFacts.

Import TOKEN_URI_CACHE.

Lemma list_ascii_of_string_app (a b : string) :
  list_ascii_of_string (a +:+ b) = list_ascii_of_string a ++ list_ascii_of_string b.
Proof. induction a as [|c a IH]; simpl; [done|]. by rewrite IH. Qed.

Lemma string_app_inj_r (s1 s2 r : string) : s1 +:+ r = s2 +:+ r -> s1 = s2.
Proof.
  intros H. apply (f_equal list_ascii_of_string) in H.
  rewrite !list_ascii_of_string_app in H. apply app_inv_tail in H.
  rewrite <- (string_of_list_ascii_of_string s1), <- (string_of_list_ascii_of_string s2).
  by rewrite H.
Qed.

Lemma getCacheKey_network_inj c i N1 N2 :
  getCacheKey c i N1 = getCacheKey c i N2 -> N1 = N2.
Proof. unfold getCacheKey. apply string_app_inj_r. Qed.

(** Two keys built from network names without an underscore agree only on
    one network, whatever the addresses and the token ids are. *)
Lemma app_underscore_inj (N1 N2 r1 r2 : string) :
  no_underscore N1 = true -> no_underscore N2 = true ->
  N1 +:+ "_" +:+ r1 = N2 +:+ "_" +:+ r2 -> N1 = N2.
Proof.
  revert N2. induction N1 as [|c N1 IH]; intros [|c' N2] H1 H2 H; simpl in *.
  - done.
  - injection H as <- _. apply andb_prop in H2 as [H2 _].
    by destruct (Ascii.eqb_spec "_" "_").
  - injection H as -> _. apply andb_prop in H1 as [H1 _].
    by destruct (Ascii.eqb_spec "_" "_").
  - injection H as -> H. apply andb_prop in H1 as [_ H1].
    apply andb_prop in H2 as [_ H2]. f_equal. by apply IH.
Qed.

Lemma cache_network_isolation_any_token (cache : Cache) (c1 c2 : string)
    (i1 i2 : TokenId) (N1 N2 p : string) (now : Z) :
  no_underscore N1 = true -> no_underscore N2 = true -> N1 <> N2 ->
  get (set cache c1 i1 N1 p now) c2 i2 N2 = get cache c2 i2 N2.
Proof.
  intros H1 H2 Hne. unfold get, set. rewrite lookup_insert_ne; [done|].
  unfold getCacheKey. intros H. by apply app_underscore_inj in H.
Qed.

Lemma NETWORKS_keys_no_underscore (k : string) :
  is_Some (NETWORKS !! k) -> no_underscore k = true.
Proof.
  unfold NETWORKS. intros [nc H].
  destruct (decide (k = "sepolia")) as [->|?]; [done|].
  rewrite lookup_insert_ne in H by done.
  destruct (decide (k = "mainnet")) as [->|?]; [done|].
  by rewrite lookup_insert_ne, lookup_empty in H.
Qed.

Lemma map_to_list_filter_perm (P : string * Entry -> Prop) `{!forall x, Decision (P x)}
    (m : Cache) :
  map_to_list (filter P m) ≡ₚ filter P (map_to_list m).
Proof.
  apply NoDup_Permutation.
  - apply NoDup_map_to_list.
  - apply NoDup_filter, NoDup_map_to_list.
  - intros [k e]. rewrite elem_of_map_to_list, map_lookup_filter_Some,
      list_elem_of_filter, elem_of_map_to_list. tauto.
Qed.

Lemma clear_fold_lookup N (l : list (string * Entry)) (m : Cache) (n : nat) k e :
  (foldl (clearNetwork_step N) (m, n) l).1 !! k = Some e
  <-> m !! k = Some e /\ ~ Exists (fun kv => kv.1 = k /\ network kv.2 = N) l.
Proof.
  revert m n. induction l as [|[k' e'] l IH]; intros m n; simpl.
  - rewrite Exists_nil. tauto.
  - unfold clearNetwork_step at 2. simpl. rewrite Exists_cons. simpl.
    destruct (decide (network e' = N)) as [HN|HN].
    + rewrite IH, lookup_delete_Some. intuition congruence.
    + rewrite IH. intuition congruence.
Qed.

Lemma clear_fold_count N (l : list (string * Entry)) (m : Cache) (n : nat) :
  (foldl (clearNetwork_step N) (m, n) l).2
  = (n + length (filter (fun kv : string * Entry => network kv.2 = N) l))%nat.
Proof.
  revert m n. induction l as [|[k' e'] l IH]; intros m n; simpl.
  - lia.
  - unfold clearNetwork_step at 2. simpl. rewrite filter_cons. simpl.
    destruct (decide (network e' = N)) as [HN|HN]; rewrite IH; simpl; lia.
Qed.

Lemma clearNetwork_loop_lookup N (cache : Cache) k e :
  (clearNetwork_loop N cache).1 !! k = Some e
  <-> cache !! k = Some e /\ network e <> N.
Proof.
  unfold clearNetwork_loop. rewrite clear_fold_lookup, Exists_exists.
  split.
  - intros [Hk Hno]. split; [done|]. intros HN. apply Hno.
    exists (k, e). rewrite elem_of_map_to_list. done.
  - intros [Hk HN]. split; [done|]. intros [[k' e'] [Hin [Hk' HN']]].
    simpl in *. subst k'. apply elem_of_map_to_list in Hin. congruence.
Qed.

Lemma clearNetwork_loop_filter N (cache : Cache) :
  (clearNetwork_loop N cache).1
  = filter (fun kv : string * Entry => network kv.2 <> N) cache.
Proof.
  apply map_eq. intros k. apply option_eq. intros e.
  rewrite clearNetwork_loop_lookup, map_lookup_filter_Some. done.
Qed.

Lemma clearNetwork_loop_count N (cache : Cache) :
  (clearNetwork_loop N cache).2 = (size cache - size (clearNetwork_loop N cache).1)%nat.
Proof.
  rewrite clearNetwork_loop_filter. unfold clearNetwork_loop.
  rewrite clear_fold_count. simpl.
  rewrite <- !length_map_to_list, map_to_list_filter_perm.
  pose proof (filter_app_complement (fun kv : string * Entry => network kv.2 = N) (map_to_list cache)) as Hp.
  apply Permutation_length in Hp. rewrite length_app in Hp.
  lia.
Qed.



Lemma getStats_step_lookup (counts : gmap string Counter) (kv : string * Entry)
    (L : string) :
  getStats_step counts kv !! L
  = if decide (network_label kv.2 = L) then bump L (counts !! L) else counts !! L.
Proof.
  unfold getStats_step, bump. destruct (decide (network_label kv.2 = L)) as [HL|Hne].
  - rewrite HL. destruct (counts !! L) as [[n|ones]|] eqn:Hc;
      rewrite ?lookup_insert_eq; try done.
    destruct (bool_decide (L = "__proto__")); [exact Hc|].
    destruct (bool_decide (L ∈ Js.Object_prototype_functions));
      by rewrite lookup_insert_eq.
  - destruct (counts !! network_label kv.2) as [[n|ones]|];
      rewrite ?lookup_insert_ne by done; try done.
    destruct (bool_decide (network_label kv.2 = "__proto__")); [done|].
    destruct (bool_decide (network_label kv.2 ∈ Js.Object_prototype_functions));
      by rewrite lookup_insert_ne.
Qed.

Lemma getStats_fold_lookup (L : string) (l : list (string * Entry))
    (counts : gmap string Counter) :
  foldl getStats_step counts l !! L
  = Nat.iter (length (filter (fun kv : string * Entry => network_label kv.2 = L) l))
      (bump L) (counts !! L).
Proof.
  revert counts. induction l as [|kv l IH]; intros counts; simpl; [done|].
  rewrite IH, getStats_step_lookup, filter_cons.
  destruct (decide (network_label kv.2 = L)); [|done].
  cbn [length]. by rewrite Nat.iter_succ_r.
Qed.

Lemma bump_iter_None (L : string) (n : nat) :
  Nat.iter n (bump L) None
  = if decide (n = 0%nat) then None
    else if decide (L = "__proto__") then None
    else if decide (L ∈ Js.Object_prototype_functions) then Some (Text n)
    else Some (Count n).
Proof.
  induction n as [|n IH]; [done|]. simpl. rewrite IH. unfold bump.
  destruct (decide (L = "__proto__")) as [Hp|Hp].
  - rewrite (bool_decide_eq_true_2 _ Hp). by destruct (decide (n = 0%nat)).
  - rewrite (bool_decide_eq_false_2 _ Hp).
    destruct (decide (L ∈ Js.Object_prototype_functions)) as [Hf|Hf].
    + rewrite (bool_decide_eq_true_2 _ Hf).
      destruct (decide (n = 0%nat)) as [->|]; [done|]. do 2 f_equal. lia.
    + rewrite (bool_decide_eq_false_2 _ Hf).
      destruct (decide (n = 0%nat)) as [->|]; [done|]. do 2 f_equal. lia.
Qed.

(** The property [byNetwork] has for a label, from the number of entries
    counted under it. *)
Lemma byNetwork_lookup (cache : Cache) (L : string) :
  byNetwork (getStats cache) !! L
  = if decide (labelled cache L = 0%nat) then None
    else if decide (L = "__proto__") then None
    else if decide (L ∈ Js.Object_prototype_functions) then Some (Text (labelled cache L))
    else Some (Count (labelled cache L)).
Proof.
  unfold getStats, labelled. cbn [byNetwork].
  by rewrite getStats_fold_lookup, lookup_empty, bump_iter_None.
Qed.

Lemma network_label_eq (e : Entry) (N : string) :
  N <> "unknown" -> network_label e = N -> network e = N.
Proof.
  unfold network_label, Js.truthy. intros Hu.
  destruct (String.eqb_spec (network e) EmptyString); simpl; congruence.
Qed.

Lemma network_label_of_tag (e : Entry) :
  network e <> EmptyString -> network_label e = network e.
Proof.
  unfold network_label, Js.truthy. intros Hn.
  destruct (String.eqb_spec (network e) EmptyString); simpl; congruence.
Qed.

Lemma labelled_after_clear (cache : Cache) (N L : string) :
  labelled (clearNetwork_loop N cache).1 L
  = length (filter (fun kv : string * Entry => network_label kv.2 = L /\ network kv.2 <> N)
              (map_to_list cache)).
Proof.
  unfold labelled. rewrite clearNetwork_loop_filter, map_to_list_filter_perm.
  rewrite list_filter_filter. done.
Qed.


Lemma filter_none {A} (l : list A) : filter (fun _ : A => False) l = [].
Proof.
  induction l as [|x l IH]; [done|].
  rewrite filter_cons_False by tauto. exact IH.
Qed.

(** C4: for distinct network keys N1 and N2 and one contract address and
    token index, storing a pointer with [set] under N1 leaves what [get]
    answers under N2 as it was; in a cache that was empty, [get] under N2
    finds nothing.  A lookup under one network does not read the entry
    stored under the other. *)
Theorem cache_get_set_other_network (cache : Cache) (c : string) (i : TokenId)
    (N1 N2 p : string) (now : Z) :
  N1 <> N2 ->
  get (set cache c i N1 p now) c i N2 = get cache c i N2
  /\ get (set ∅ c i N1 p now) c i N2 = None.
Proof.
  intros Hne.
  assert (Hk : getCacheKey c i N1 <> getCacheKey c i N2).
  { intros H. by apply getCacheKey_network_inj in H. }
  unfold get, set. split.
  - by rewrite lookup_insert_ne.
  - by rewrite lookup_insert_ne, lookup_empty.
Qed.

Lemma cache_get_set_other_network_witness :
  "sepolia" <> "mainnet"
  /\ get (set sample_cache "0xAB" (IdNum 1) "sepolia" "ipfs://z" 13)
       "0xAB" (IdNum 1) "mainnet"
     = get sample_cache "0xAB" (IdNum 1) "mainnet".
Proof.
  split; [discriminate|].
  apply (cache_get_set_other_network sample_cache "0xAB" (IdNum 1)
           "sepolia" "mainnet" "ipfs://z" 13).
  discriminate.
Defined.

(** C6, as the claim states it, fails on the value returned:
    [clearNetwork] has no [return] statement.  On a cache with two
    entries tagged "sepolia" it removes both and writes the count to the
    console, and what it returns is [undefined], not the number 2.  What
    the claim says of [getStats] fails on entries stored with an empty
    tag, which [getStats] counts under "unknown": on a cache with one such
    entry, [clearNetwork("unknown")] removes nothing and [getStats] still
    counts one entry for "unknown", and [clearNetwork("")] removes the
    entry and with it the counter of the other network "unknown". *)
Lemma clearNetwork_returns_no_count :
  let r := clearNetwork sample_cache "sepolia" in
  (size sample_cache - size r.1.1)%nat = 2%nat
  /\ r.2 = [LogClearedNetwork 2 "sepolia"]
  /\ r.1.2 = JsUndefined
  /\ r.1.2 <> JsNumber 2
  /\ (clearNetwork untagged_cache "unknown").1.1 = untagged_cache
  /\ byNetwork (getStats (clearNetwork untagged_cache "unknown").1.1) !! "unknown"
     = Some (Count 1)
  /\ byNetwork (getStats untagged_cache) !! "unknown" = Some (Count 1)
  /\ byNetwork (getStats (clearNetwork untagged_cache EmptyString).1.1) !! "unknown"
     = None.
Proof. vm_compute. repeat split; discriminate. Qed.

(** C6 (amended): [clearNetwork(N)] removes exactly the entries whose
    network tag is N and no other entry; it returns [undefined] and writes
    the number of removed entries to the console.  Afterwards, for N other
    than the literal "unknown", [getStats] has no counter for N, and for a
    non-empty N it has for every other network the counter it had
    before. *)
Theorem clearNetwork_removes_tagged_entries (cache : Cache) (N : string) :
  let r := clearNetwork cache N in
  (forall k e, r.1.1 !! k = Some e <-> cache !! k = Some e /\ network e <> N)
  /\ r.1.2 = JsUndefined
  /\ r.2 = [LogClearedNetwork (size cache - size r.1.1) N]
  /\ (N <> "unknown" -> byNetwork (getStats r.1.1) !! N = None)
  /\ (N <> EmptyString ->
      forall M, M <> N ->
        byNetwork (getStats r.1.1) !! M = byNetwork (getStats cache) !! M).
Proof.
  cbv zeta. unfold clearNetwork. cbn [fst snd].
  split; [|split; [|split; [|split]]].
  - intros k e. apply clearNetwork_loop_lookup.
  - done.
  - by rewrite <- clearNetwork_loop_count.
  - intros Hunknown. rewrite byNetwork_lookup.
    assert (labelled (clearNetwork_loop N cache).1 N = 0%nat) as ->; [|done].
    rewrite labelled_after_clear.
    rewrite (list_filter_iff _ (fun _ => False)).
    + by rewrite filter_none.
    + intros [k e]. simpl. split; [|done].
      intros [Hl Hn]. by apply network_label_eq in Hl.
  - intros Hempty M HM. rewrite !byNetwork_lookup.
    assert (labelled (clearNetwork_loop N cache).1 M = labelled cache M) as ->; [|done].
    rewrite labelled_after_clear. unfold labelled.
    f_equal. apply list_filter_iff. intros [k e]. simpl.
    split; [tauto|]. intros Hl. split; [done|]. intros Hn.
    rewrite network_label_of_tag in Hl; congruence.
Qed.

Lemma clearNetwork_removes_tagged_entries_witness :
  "sepolia" <> "unknown" /\ "sepolia" <> EmptyString
  /\ byNetwork (getStats (clearNetwork sample_cache "sepolia").1.1) !! "sepolia" = None
  /\ byNetwork (getStats (clearNetwork sample_cache "sepolia").1.1) !! "mainnet"
     = byNetwork (getStats sample_cache) !! "mainnet".
Proof.
  assert (H1 : "sepolia" <> "unknown") by discriminate.
  assert (H2 : "sepolia" <> EmptyString) by discriminate.
  split; [exact H1|]. split; [exact H2|].
  destruct (clearNetwork_removes_tagged_entries sample_cache "sepolia")
    as (_ & _ & _ & Hzero & Hother).
  split; [exact (Hzero H1)|]. apply (Hother H2). discriminate.
Defined.

End CacheFacts.

(** ** Pagination *)

Section PaginationFacts.

Import Gallery.

Lemma ceil_div_spec (a b : Z) :
  0 < b ->
  exists n, Js.ceil_div a b = Js.Finite n /\ a <= n * b < a + b.
Proof.
  intros Hb. unfold Js.ceil_div.
  destruct (Z.eqb_spec b 0) as [->|_]; [lia|].
  exists (- (- a / b)). split; [done|].
  pose proof (Z.div_mod (- a) b ltac:(lia)) as Hdm.
  pose proof (Z.mod_pos_bound (- a) b Hb) as Hr.
  nia.
Qed.

Lemma slice_lookup {A} (arr : list A) (start stop : Z) (j : nat) :
  0 <= start -> 0 <= stop <= Z.of_nat (length arr) ->
  Js.slice arr start stop !! j
  = if decide (start + Z.of_nat j < stop)
    then arr !! Z.to_nat (start + Z.of_nat j) else None.
Proof.
  intros Hs He. unfold Js.slice.
  destruct (Z.ltb_spec start 0) as [?|_]; [lia|].
  destruct (Z.ltb_spec stop 0) as [?|_]; [lia|].
  rewrite (Z.min_l stop) by lia.
  destruct (decide (start + Z.of_nat j < stop)) as [Hlt|Hge].
  - rewrite (Z.min_l start) by lia.
    rewrite lookup_take_lt by lia. rewrite lookup_drop. f_equal. lia.
  - apply lookup_take_ge.
    destruct (Z.min_spec start (Z.of_nat (length arr))) as [[? ->]|[? ->]]; lia.
Qed.

Lemma slice_length {A} (arr : list A) (start stop : Z) :
  0 <= start -> 0 <= stop <= Z.of_nat (length arr) ->
  Z.of_nat (length (Js.slice arr start stop)) = Z.max (stop - start) 0.
Proof.
  intros Hs He. unfold Js.slice.
  destruct (Z.ltb_spec start 0) as [?|_]; [lia|].
  destruct (Z.ltb_spec stop 0) as [?|_]; [lia|].
  rewrite (Z.min_l stop) by lia.
  rewrite length_take, length_drop.
  destruct (Z.min_spec start (Z.of_nat (length arr))) as [[? ->]|[? ->]]; lia.
Qed.

(** C9: with [itemsPerPage > 0] and [totalItems] the length of the stored
    list, [totalPages] is the ceiling of [totalItems / itemsPerPage]; the
    page shown for [currentPage = p >= 1] holds exactly the records at the
    indices from [(p-1)*itemsPerPage] up to, not including,
    [min(p*itemsPerPage, totalItems)], and these are the rows rendered;
    [changePage(newPage)] sets [currentPage] to [newPage], leaves the
    list, its length and [itemsPerPage] as they are and renders the page
    [newPage] when [1 <= newPage <= totalPages], and changes nothing
    otherwise.  With [itemsPerPage = 5] and 12 records there are 3 pages,
    page 3 holds 2 records, [changePage(2)] shows page 2, and
    [changePage(0)] and [changePage(4)] do nothing. *)
Theorem pagination_slice_and_changePage (st : App) :
  let p := UNREVEALED_PAGINATION st in
  0 < itemsPerPage p ->
  totalItems p = Z.of_nat (length (data p)) ->
  1 <= currentPage p ->
  exists n : Z,
    totalPages p = Js.Finite n
    /\ totalItems p <= n * itemsPerPage p < totalItems p + itemsPerPage p
    /\ (forall j : nat,
          currentPageData p !! j
          = if decide ((currentPage p - 1) * itemsPerPage p + Z.of_nat j
                       < Z.min (currentPage p * itemsPerPage p) (totalItems p))
            then data p !! Z.to_nat ((currentPage p - 1) * itemsPerPage p + Z.of_nat j)
            else None)
    /\ Z.of_nat (length (currentPageData p))
       = Z.max (Z.min (currentPage p * itemsPerPage p) (totalItems p)
                - (currentPage p - 1) * itemsPerPage p) 0
    /\ rows (render p) = List.map render_row (currentPageData p)
    /\ (forall newPage, 1 <= newPage <= n ->
          UNREVEALED_PAGINATION (changePage newPage st) = set_currentPage newPage p
          /\ unrevealedTable (changePage newPage st)
             = Some (TableRows (render (set_currentPage newPage p)))
          /\ currentPage (UNREVEALED_PAGINATION (changePage newPage st)) = newPage
          /\ itemsPerPage (UNREVEALED_PAGINATION (changePage newPage st))
             = itemsPerPage p
          /\ totalItems (UNREVEALED_PAGINATION (changePage newPage st)) = totalItems p
          /\ data (UNREVEALED_PAGINATION (changePage newPage st)) = data p
          /\ unrevealedTable (changePage newPage st)
             = Some (TableRows
                       (render (UNREVEALED_PAGINATION (changePage newPage st))))
          /\ currentNetwork (changePage newPage st) = currentNetwork st
          /\ cache (changePage newPage st) = cache st)
    /\ (forall newPage, ~ (1 <= newPage <= n) -> changePage newPage st = st).
Proof.
  intros p Hipp Htotal Hpage.
  destruct (ceil_div_spec (totalItems p) (itemsPerPage p) Hipp) as (n & Hn & Hbounds).
  assert (Hend : endIndex p = Z.min (currentPage p * itemsPerPage p) (totalItems p)).
  { unfold endIndex, startIndex. f_equal. lia. }
  assert (Hstart : 0 <= startIndex p) by (unfold startIndex; nia).
  assert (Hstop : 0 <= endIndex p <= Z.of_nat (length (data p))).
  { rewrite Hend. nia. }
  exists n. split; [exact Hn|]. split; [exact Hbounds|].
  split; [|split; [|split; [|split]]].
  - intros j. unfold currentPageData.
    rewrite slice_lookup by done. rewrite Hend. done.
  - unfold currentPageData. rewrite slice_length by done. rewrite Hend. done.
  - done.
  - intros newPage Hrange. unfold changePage. cbv zeta. fold p.
    unfold totalPages in Hn. rewrite Hn. simpl.
    destruct (Z.leb_spec 1 newPage) as [_|?]; [|lia].
    destruct (Z.leb_spec newPage n) as [_|?]; [|lia].
    by repeat split.
  - intros newPage Hrange. unfold changePage. cbv zeta. fold p.
    unfold totalPages in Hn. rewrite Hn. simpl.
    destruct (Z.leb_spec 1 newPage) as [?|?]; [|done].
    destruct (Z.leb_spec newPage n) as [?|?]; [lia|done].
Qed.

Lemma pagination_slice_and_changePage_witness :
  let st := sample_app 3 in
  let p := UNREVEALED_PAGINATION st in
  0 < itemsPerPage p /\ totalItems p = Z.of_nat (length (data p))
  /\ 1 <= currentPage p
  /\ totalPages p = Js.Finite 3
  /\ length (currentPageData p) = 2%nat
  /\ currentPage (UNREVEALED_PAGINATION (changePage 2 st)) = 2
  /\ data (UNREVEALED_PAGINATION (changePage 2 st)) = data p
  /\ List.map row_tokenId
       (match unrevealedTable (changePage 2 st) with
        | Some (TableRows t) => rows t
        | _ => []
        end)
     = ["7"; "6"; "5"; "4"; "3"]
  /\ changePage 0 st = st /\ changePage 4 st = st.
Proof.
  assert (H1 : 0 < itemsPerPage (UNREVEALED_PAGINATION (sample_app 3))) by (simpl; lia).
  assert (H2 : totalItems (UNREVEALED_PAGINATION (sample_app 3))
               = Z.of_nat (length (data (UNREVEALED_PAGINATION (sample_app 3)))))
    by reflexivity.
  assert (H3 : 1 <= currentPage (UNREVEALED_PAGINATION (sample_app 3))) by (simpl; lia).
  destruct (pagination_slice_and_changePage (sample_app 3) H1 H2 H3)
    as (n & Hn & Hb & _ & Hlen & _ & Hin & Hnoop).
  change (12 <= n * 5 < 12 + 5) in Hb. assert (n = 3) as -> by lia.
  destruct (Hin 2 ltac:(lia)) as (_ & _ & Hcur & _ & _ & Hdata & Htable & _).
  split; [exact H1|]. split; [exact H2|]. split; [exact H3|].
  split; [exact Hn|]. split; [|split; [|split; [|split; [|split]]]].
  - apply Nat2Z.inj. rewrite Hlen. reflexivity.
  - exact Hcur.
  - exact Hdata.
  - rewrite Htable. reflexivity.
  - apply Hnoop. lia.
  - apply Hnoop. lia.
Defined.

End PaginationFacts.

(** ** The cross-reference of the two subgraphs *)

Section MatcherFacts.

Import Gallery.

Lemma find_Some_split {A} (f : A -> bool) (l : list A) (x : A) :
  List.find f l = Some x
  <-> exists before after,
        l = before ++ x :: after
        /\ Forall (fun y => f y = false) before
        /\ f x = true.
Proof.
  induction l as [|y l IH]; simpl.
  - split; [discriminate|]. intros (b & a & H & _). by destruct b.
  - destruct (f y) eqn:Hy.
    + split.
      * intros [= ->]. exists [], l. by repeat split.
      * intros (b & a & H & Hb & Hx). destruct b as [|z b]; simpl in H.
        -- by injection H as -> _.
        -- injection H as -> _. inversion Hb; subst. congruence.
    + rewrite IH. split.
      * intros (b & a & -> & Hb & Hx). exists (y :: b), a.
        repeat split; [|done]. by constructor.
      * intros (b & a & H & Hb & Hx). destruct b as [|z b]; simpl in H.
        -- injection H as -> _. congruence.
        -- injection H as -> ->. inversion Hb; subst. by exists b, a.
Qed.

Lemma find_None_Forall {A} (f : A -> bool) (l : list A) :
  List.find f l = None <-> Forall (fun y => f y = false) l.
Proof.
  induction l as [|y l IH]; simpl.
  - split; [constructor|done].
  - destruct (f y) eqn:Hy.
    + split; [discriminate|]. intros H. inversion H; subst. congruence.
    + rewrite IH. split; [by constructor|]. intros H. by inversion H.
Qed.

Lemma md_matches_first_strategy (tokenIdStr : string) (md : SeedMetadata) :
  md_matches tokenIdStr md = bool_decide (is_Some (first_strategy tokenIdStr md)).
Proof.
  unfold md_matches, first_strategy, strategy_holds, hexTokenId.
  repeat match goal with
         | |- context [if ?b then _ else _] => destruct b
         end; done.
Qed.

Lemma first_strategy_Some (tokenIdStr : string) (md : SeedMetadata) (k : Strategy) :
  first_strategy tokenIdStr md = Some k ->
  strategy_holds k tokenIdStr md = true
  /\ forall k', (rank k' < rank k)%nat -> strategy_holds k' tokenIdStr md = false.
Proof.
  unfold first_strategy.
  destruct (strategy_holds DirectMatch tokenIdStr md) eqn:H1;
    [intros [= <-]; split; [done|intros []; simpl; lia]|].
  destruct (strategy_holds DecimalSuffix tokenIdStr md) eqn:H2;
    [intros [= <-]; split; [done|intros []; simpl; done || lia]|].
  destruct (strategy_holds HexSuffix tokenIdStr md) eqn:H3;
    [intros [= <-]; split; [done|intros []; simpl; done || lia]|].
  destruct (strategy_holds ExactHex tokenIdStr md) eqn:H4;
    [intros [= <-]; split; [done|intros []; simpl; done || lia]|].
  discriminate.
Qed.

Lemma first_strategy_None (tokenIdStr : string) (md : SeedMetadata) :
  first_strategy tokenIdStr md = None
  <-> forall k, strategy_holds k tokenIdStr md = false.
Proof.
  unfold first_strategy. split.
  - intros H k.
    destruct (strategy_holds DirectMatch tokenIdStr md) eqn:H1; [done|].
    destruct (strategy_holds DecimalSuffix tokenIdStr md) eqn:H2; [done|].
    destruct (strategy_holds HexSuffix tokenIdStr md) eqn:H3; [done|].
    destruct (strategy_holds ExactHex tokenIdStr md) eqn:H4; [done|].
    by destruct k.
  - intros H.
    by rewrite (H DirectMatch), (H DecimalSuffix), (H HexSuffix), (H ExactHex).
Qed.

Lemma md_matches_false (tokenIdStr : string) (md : SeedMetadata) :
  md_matches tokenIdStr md = false
  <-> forall k, strategy_holds k tokenIdStr md = false.
Proof.
  rewrite md_matches_first_strategy, <- first_strategy_None.
  rewrite bool_decide_eq_false, <- eq_None_not_Some. done.
Qed.

Lemma md_matches_true (tokenIdStr : string) (md : SeedMetadata) :
  md_matches tokenIdStr md = true
  <-> exists k, first_strategy tokenIdStr md = Some k.
Proof. rewrite md_matches_first_strategy, bool_decide_eq_true. done. Qed.

(** C1, as the claim states it, fails on its own example: for token id
    "7" and the records with ids "0xabc_7", "0x7", "7", in this order, the
    callback of [find] accepts the first record through its suffix test,
    so the record matched is "0xabc_7"; a search by strategy priority
    over the whole list would return the record "7". *)
Lemma matcher_example_matches_first_record :
  List.find (md_matches "7") example_metadata = Some (example_md "0xabc_7")
  /\ first_strategy "7" (example_md "0xabc_7") = Some DecimalSuffix
  /\ List.find (md_matches "7") example_metadata <> Some (example_md "7")
  /\ spec_priority_match "7" example_metadata = Some (example_md "7")
  /\ revealedUri (combine example_metadata example_seed) = Some "ipfs://reveal-0xabc_7".
Proof. vm_compute. repeat split; discriminate. Qed.

(** C1 (amended): for every primary record whose token id t reads as no
    number or as an integer of magnitude at most 2^53 - 1, and every list
    of secondary records, the record matched is the first one, in the
    order of the list, whose id passes at least one of the four tests
    (equal to the decimal string of t; ending in "_" and that string;
    ending in "_" and the 0x-prefixed lowercase hex form of t; equal to
    the hex form); on each record the tests are tried in this order, and
    the order of the tests never lets a later record win over an earlier
    one; no record is matched exactly when every record fails all four
    tests, and then the signature and the pointer of the combined record
    are null, while a matched record gives them (an empty one counting as
    null).  For token id "7" and the records "0xabc_7", "0x7", "7" the
    record matched is "0xabc_7". *)
Theorem matcher_takes_first_matching_record (tokenIdStr : string)
    (mds : list SeedMetadata) :
  safe_tokenId tokenIdStr ->
  (forall md,
     List.find (md_matches tokenIdStr) mds = Some md
     <-> exists before after,
           mds = before ++ md :: after
           /\ Forall (fun m => forall k, strategy_holds k tokenIdStr m = false) before
           /\ exists k, first_strategy tokenIdStr md = Some k)
  /\ (List.find (md_matches tokenIdStr) mds = None
      <-> Forall (fun m => forall k, strategy_holds k tokenIdStr m = false) mds)
  /\ (forall md k,
        first_strategy tokenIdStr md = Some k ->
        strategy_holds k tokenIdStr md = true
        /\ forall k', (rank k' < rank k)%nat -> strategy_holds k' tokenIdStr md = false)
  /\ (forall s, tokenId s = tokenIdStr ->
        seed (combine mds s) = s
        /\ match List.find (md_matches tokenIdStr) mds with
           | Some md =>
               revealedUri (combine mds s) = Js.or_null (md_revealedUri md)
               /\ revealedSignature (combine mds s)
                  = Js.or_null (md_revealedSignature md)
           | None =>
               revealedUri (combine mds s) = None
               /\ revealedSignature (combine mds s) = None
           end)
  /\ List.find (md_matches "7") example_metadata = Some (example_md "0xabc_7").
Proof.
  intros _. split; [|split; [|split; [|split]]].
  - intros md. rewrite find_Some_split. split.
    + intros (b & a & -> & Hb & Hx). exists b, a. split; [done|]. split.
      * eapply Forall_impl; [exact Hb|]. intros m Hm. by apply md_matches_false.
      * by apply md_matches_true.
    + intros (b & a & -> & Hb & Hx). exists b, a. split; [done|]. split.
      * eapply Forall_impl; [exact Hb|]. intros m Hm. by apply md_matches_false.
      * by apply md_matches_true.
  - rewrite find_None_Forall. split; intros H; (eapply Forall_impl; [exact H|]);
      intros m Hm; by apply md_matches_false.
  - apply first_strategy_Some.
  - intros s <-. split; [done|]. unfold combine. cbn [revealedUri revealedSignature].
    by destruct (List.find (md_matches (tokenId s)) mds).
  - reflexivity.
Qed.

Lemma matcher_takes_first_matching_record_witness :
  safe_tokenId "7"
  /\ List.find (md_matches "7") example_metadata = Some (example_md "0xabc_7")
  /\ revealedUri (combine example_metadata example_seed) = Some "ipfs://reveal-0xabc_7"
  /\ (List.find (md_matches "7") [example_md "0x8"; example_md "0xabc_17"] = None
      /\ revealedSignature (combine [example_md "0x8"; example_md "0xabc_17"] example_seed)
         = None).
Proof.
  assert (Hsafe : safe_tokenId "7") by (vm_compute; split; discriminate).
  split; [exact Hsafe|].
  destruct (matcher_takes_first_matching_record "7" example_metadata Hsafe)
    as (_ & _ & _ & Hc & Hex).
  split; [exact Hex|].
  destruct (Hc example_seed eq_refl) as [_ Hm]. rewrite Hex in Hm.
  split; [exact (proj1 Hm)|].
  destruct (matcher_takes_first_matching_record "7"
              [example_md "0x8"; example_md "0xabc_17"] Hsafe)
    as (_ & Hnone & _ & Hc' & _).
  assert (Hf : List.find (md_matches "7") [example_md "0x8"; example_md "0xabc_17"] = None)
    by reflexivity.
  split; [exact Hf|].
  destruct (Hc' example_seed eq_refl) as [_ Hm']. rewrite Hf in Hm'. exact (proj2 Hm').
Defined.

End MatcherFacts.

(** ** Eligibility for the reveal table *)

Section EligibilityFacts.

Import Gallery.

Lemma truthy_spec (x : string) : Js.truthy x = true <-> x <> EmptyString.
Proof.
  unfold Js.truthy. destruct (String.eqb_spec x EmptyString); simpl; split; congruence.
Qed.

Lemma gate_eligible (s : Combined) :
  notRevealed s && hasSignature s = true <-> eligible s.
Proof.
  unfold notRevealed, hasSignature, eligible, Js.truthy_opt.
  rewrite !andb_true_iff, !negb_true_iff, bool_decide_eq_false.
  destruct (revealedSignature s) as [sig|].
  - rewrite truthy_spec. split.
    + intros (Hr & Ht & Hx). split; [done|]. exists sig. repeat split; congruence.
    + intros (Hr & sig' & [= <-] & Ht & Hx). repeat split; congruence.
  - split.
    + intros (_ & Hf & _). discriminate.
    + intros (_ & sig' & Hf & _). discriminate.
Qed.

Lemma foldl_push_if_eligible (acc l : list Combined) :
  foldl Subgraph.push_if_eligible acc l
  = acc ++ List.filter (fun s => notRevealed s && hasSignature s) l.
Proof.
  revert acc. induction l as [|s l IH]; intros acc; simpl.
  - by rewrite app_nil_r.
  - rewrite IH. unfold Subgraph.push_if_eligible.
    destruct (notRevealed s && hasSignature s); [|done].
    by rewrite <- app_assoc.
Qed.

Lemma unrevealedWithSignatures_filter (combined : list Combined) :
  Subgraph.unrevealedWithSignatures combined
  = List.filter (fun s => notRevealed s && hasSignature s) combined.
Proof. unfold Subgraph.unrevealedWithSignatures. apply foldl_push_if_eligible. Qed.

Lemma elem_of_unrevealedWithSignatures (combined : list Combined) (s : Combined) :
  s ∈ Subgraph.unrevealedWithSignatures combined <-> s ∈ combined /\ eligible s.
Proof.
  rewrite unrevealedWithSignatures_filter, !list_elem_of_In, filter_In.
  by rewrite gate_eligible.
Qed.

Section OnChain.

Variable tokenURI_rpc : TokenId -> nat -> Error + string.
Variable Date_now : list Event -> Z.

Lemma check_seed_not_eligible (acc : list Combined) (s : Combined) (st : App) :
  ~ eligible s ->
  RateLimited.check_seed tokenURI_rpc Date_now acc s st = (acc, st).
Proof.
  intros Hn. unfold RateLimited.check_seed.
  destruct (notRevealed s && hasSignature s) eqn:Hg; [|done].
  by apply gate_eligible in Hg.
Qed.

Lemma check_seed_eligible (acc : list Combined) (s : Combined) (st : App) :
  eligible s ->
  let r := RateLimited.getCachedTokenURI tokenURI_rpc Date_now
             (IdStr (tokenId (seed s))) st in
  RateLimited.check_seed tokenURI_rpc Date_now acc s st
  = (match r.1 with
     | inr currentUri =>
         if bool_decide (Some currentUri = revealedUri s) then acc else acc ++ [s]
     | inl _ => acc ++ [s]
     end, r.2).
Proof.
  intros He r. unfold RateLimited.check_seed.
  apply gate_eligible in He. rewrite He. fold r.
  destruct r as [[e|uri] st']; simpl; [done|].
  by destruct (bool_decide (Some uri = revealedUri s)).
Qed.

Lemma check_seed_sound (acc : list Combined) (x : Combined) (st : App) (s : Combined) :
  s ∈ (RateLimited.check_seed tokenURI_rpc Date_now acc x st).1 ->
  s ∈ acc \/ (s = x /\ eligible x).
Proof.
  unfold RateLimited.check_seed.
  destruct (notRevealed x && hasSignature x) eqn:Hg; [|by left].
  apply gate_eligible in Hg.
  assert (Hs : s ∈ acc ++ [x] -> s ∈ acc \/ (s = x /\ eligible x)).
  { rewrite elem_of_app, list_elem_of_singleton. intros [? | ->]; [by left|by right]. }
  destruct (RateLimited.getCachedTokenURI _ _ _ _) as [[e|uri] st']; simpl; [done|].
  destruct (bool_decide (Some uri = revealedUri x)); simpl; [by left|done].
Qed.

Lemma check_seeds_sound (l acc : list Combined) (st : App) (s : Combined) :
  s ∈ (RateLimited.check_seeds tokenURI_rpc Date_now acc l st).1 ->
  s ∈ acc \/ (s ∈ l /\ eligible s).
Proof.
  revert acc st. induction l as [|x l IH]; intros acc st; simpl.
  - by left.
  - pose proof (check_seed_sound acc x st s) as Hx.
    destruct (RateLimited.check_seed tokenURI_rpc Date_now acc x st) as [acc1 st1].
    intros Hin. apply IH in Hin as [Hin|[Hin He]].
    + apply Hx in Hin as [?|[-> ?]]; [by left|right]. split; [by left|done].
    + right. split; [by right|done].
Qed.

End OnChain.

End EligibilityFacts.

(** ** Order of the stored reveal list *)

Section SortFacts.

Import Gallery.

Lemma sort_insert_perm {A} (compare : A -> A -> option Z) (x : A) (l : list A) :
  Js.sort_insert compare x l ≡ₚ x :: l.
Proof.
  induction l as [|y l IH]; simpl; [done|].
  destruct (Js.after compare x y); [|done].
  rewrite IH. apply Permutation_swap.
Qed.

Lemma sort_perm {A} (compare : A -> A -> option Z) (l : list A) :
  Js.sort compare l ≡ₚ l.
Proof.
  induction l as [|x l IH]; simpl; [done|].
  by rewrite sort_insert_perm, IH.
Qed.

Lemma after_by_tokenId (x y : Combined) :
  numeric x -> numeric y ->
  if Js.after Subgraph.by_tokenId_desc x y then tokenId_ge y x else tokenId_ge x y.
Proof.
  intros [px Hx] [py Hy]. unfold Js.after, Subgraph.by_tokenId_desc, tokenId_ge.
  rewrite Hx, Hy. destruct (Z.ltb_spec 0 (py - px)).
  - exists py, px. repeat split; [done..|lia].
  - exists px, py. repeat split; [done..|lia].
Qed.

Lemma tokenId_ge_trans (a b c : Combined) :
  tokenId_ge a b -> tokenId_ge b c -> tokenId_ge a c.
Proof.
  intros (pa & pb & Ha & Hb & Hab) (pb' & pc & Hb' & Hc & Hbc).
  exists pa, pc. repeat split; [done..|]. rewrite Hb in Hb'. injection Hb' as <-. lia.
Qed.

Lemma sort_insert_sorted (x : Combined) (l : list Combined) :
  numeric x -> Forall numeric l ->
  StronglySorted tokenId_ge l ->
  StronglySorted tokenId_ge (Js.sort_insert Subgraph.by_tokenId_desc x l).
Proof.
  intros Hx Hl Hs. induction Hs as [|y l Hs IH Hy]; simpl.
  - repeat constructor.
  - apply Forall_cons in Hl as [Hny Hnl].
    pose proof (after_by_tokenId x y Hx Hny) as Hxy.
    destruct (Js.after Subgraph.by_tokenId_desc x y).
    + constructor; [by apply IH|].
      rewrite sort_insert_perm. by constructor.
    + constructor; [by constructor|].
      constructor; [done|].
      eapply Forall_impl; [exact Hy|]. intros z Hz. by eapply tokenId_ge_trans.
Qed.

Lemma sort_sorted (l : list Combined) :
  Forall numeric l ->
  StronglySorted tokenId_ge (Js.sort Subgraph.by_tokenId_desc l).
Proof.
  induction l as [|x l IH]; simpl; intros Hl.
  - constructor.
  - apply Forall_cons in Hl as [Hx Hl].
    apply sort_insert_sorted; [done| |by apply IH].
    by rewrite sort_perm.
Qed.

Lemma StronglySorted_lookup_lt {A} (R : A -> A -> Prop) (l : list A) (j k : nat) (a b : A) :
  StronglySorted R l -> (j < k)%nat ->
  l !! j = Some a -> l !! k = Some b -> R a b.
Proof.
  intros Hs. revert j k. induction Hs as [|x l Hs IH Hx]; intros j k Hjk Hj Hk.
  - done.
  - destruct k as [|k]; [lia|]. simpl in Hk.
    destruct j as [|j]; simpl in Hj.
    + injection Hj as ->. eapply Forall_forall in Hx; [exact Hx|].
      by eapply list_elem_of_lookup_2.
    + eapply IH; [|exact Hj|exact Hk]. lia.
Qed.

Lemma seed_combine (mds : list SeedMetadata) (s : Seed) :
  seed (combine mds s) = s.
Proof. done. Qed.

Lemma combinedData_numeric (mainSeeds : list Seed) (mds : list SeedMetadata) :
  Forall (fun s => is_Some (Js.parseInt (tokenId s))) mainSeeds ->
  Forall numeric (combinedData mainSeeds mds).
Proof.
  unfold combinedData. induction 1 as [|s l Hs Hl IH]; simpl; by constructor.
Qed.

(** X28: the revision that trusts the subgraph: when the network is
    configured, the token ids read as integers between 0 and
    [Number.MAX_SAFE_INTEGER] and at least one record is eligible, the
    list stored in the pagination state is the eligible records in
    descending numeric order of token id, and the table shows its first
    page. *)
Lemma subgraph_revision_stores_sorted (mainSeeds : list Seed)
    (mds : list SeedMetadata) (st : App) :
  is_Some (NETWORKS !! currentNetwork st) ->
  Forall (fun s => safe_numeric (tokenId s)) mainSeeds ->
  Subgraph.unrevealedWithSignatures (combinedData mainSeeds mds) <> [] ->
  let st' := Subgraph.loadUnrevealedNFTs mainSeeds mds st in
  let p := UNREVEALED_PAGINATION st' in
  data p ≡ₚ Subgraph.unrevealedWithSignatures (combinedData mainSeeds mds)
  /\ totalItems p = Z.of_nat (length (data p))
  /\ currentPage p = 1
  /\ (forall j k a b, (j < k)%nat ->
        data p !! j = Some a -> data p !! k = Some b -> tokenId_ge a b)
  /\ unrevealedTable st' = Some (TableRows (render p)).
Proof.
  intros [cfg Hcfg] Hsafe Hne st' p. subst p st'.
  assert (Hnum : Forall (fun s => is_Some (Js.parseInt (tokenId s))) mainSeeds).
  { eapply Forall_impl; [exact Hsafe|]. intros s (n & Hn & _). by exists n. }
  unfold Subgraph.loadUnrevealedNFTs. rewrite Hcfg.
  destruct (Subgraph.unrevealedWithSignatures (combinedData mainSeeds mds))
    as [|e l] eqn:He; [done|].
  change (0 <? length (e :: l))%nat with true. cbv iota.
  unfold store_and_display, displayUnrevealedTablePaginated. simpl.
  split; [apply (sort_perm Subgraph.by_tokenId_desc (e :: l))|].
  split; [done|]. split; [done|]. split; [|done].
  intros j k a b Hjk Hj Hk.
  eapply (StronglySorted_lookup_lt tokenId_ge); [|exact Hjk|exact Hj|exact Hk].
  apply (sort_sorted (e :: l)).
  rewrite <- He, unrevealedWithSignatures_filter.
  apply Forall_forall. intros x Hx.
  apply list_elem_of_In, filter_In in Hx as [Hx _].
  apply list_elem_of_In in Hx.
  eapply Forall_forall in Hx; [exact Hx|]. by apply combinedData_numeric.
Qed.

Lemma subgraph_revision_stores_sorted_example :
  let seeds := [seed_of "1"; seed_of "2"] in
  let mds := [metadata_of "1"; metadata_of "2"] in
  is_Some (NETWORKS !! currentNetwork fresh_app)
  /\ Forall (fun s => safe_numeric (tokenId s)) seeds
  /\ Subgraph.unrevealedWithSignatures (combinedData seeds mds) <> []
  /\ (forall a b,
        data (UNREVEALED_PAGINATION (Subgraph.loadUnrevealedNFTs seeds mds fresh_app))
          !! 0%nat = Some a ->
        data (UNREVEALED_PAGINATION (Subgraph.loadUnrevealedNFTs seeds mds fresh_app))
          !! 1%nat = Some b ->
        tokenId_ge a b).
Proof.
  assert (H1 : is_Some (NETWORKS !! currentNetwork fresh_app)) by (vm_compute; eauto).
  assert (H2 : Forall (fun s => safe_numeric (tokenId s)) [seed_of "1"; seed_of "2"]).
  { repeat constructor.
    - exists 1. split; [reflexivity|]. unfold MAX_SAFE_INTEGER. lia.
    - exists 2. split; [reflexivity|]. unfold MAX_SAFE_INTEGER. lia. }
  assert (H3 : Subgraph.unrevealedWithSignatures
                 (combinedData [seed_of "1"; seed_of "2"]
                    [metadata_of "1"; metadata_of "2"]) <> [])
    by (vm_compute; discriminate).
  split; [exact H1|]. split; [exact H2|]. split; [exact H3|].
  intros a b Ha Hb.
  destruct (subgraph_revision_stores_sorted _ _ fresh_app H1 H2 H3)
    as (_ & _ & _ & Hs & _).
  eapply (Hs 0%nat 1%nat); [lia|exact Ha|exact Hb].
Defined.

(** C8 fails in the revision that checks each record against the
    contract: nothing sorts the list there.  For a main subgraph that lists
    seed 1 before seed 2, both unrevealed and signed, that revision stores
    the records in this order, token id 1 at position 0 and token id 2 at
    position 1, while the revision that trusts the subgraph stores them as
    2, 1 on the same input. *)
Theorem onchain_revision_stores_index_order :
  let seeds := [seed_of "1"; seed_of "2"] in
  let mds := [metadata_of "1"; metadata_of "2"] in
  let stored :=
    data (UNREVEALED_PAGINATION
            (RateLimited.loadUnrevealedNFTs unrevealed_ledger (fun _ => 0)
               seeds mds fresh_app)) in
  List.map (fun s => tokenId (seed s)) stored = ["1"; "2"]
  /\ (exists a b, stored !! 0%nat = Some a /\ stored !! 1%nat = Some b
                 /\ ~ tokenId_ge a b)
  /\ List.map (fun s => tokenId (seed s))
       (data (UNREVEALED_PAGINATION
                (Subgraph.loadUnrevealedNFTs seeds mds fresh_app)))
     = ["2"; "1"].
Proof.
  split; [by vm_compute|]. split; [|by vm_compute].
  eexists _, _. split; [by vm_compute|]. split; [by vm_compute|].
  intros (pa & pb & Ha & Hb & Hle).
  vm_compute in Ha. vm_compute in Hb.
  injection Ha as <-. injection Hb as <-. lia.
Qed.

End SortFacts.

(** ** The batches of [loadNFTs] *)

Section BatchFacts.

Import RateLimited.

Lemma down_from_S (hi : Z) (n : nat) :
  down_from hi (S n) = hi :: down_from (hi - 1) n.
Proof.
  unfold down_from. simpl. f_equal; [lia|].
  rewrite <- seq_shift, map_map. apply map_ext. intros i. lia.
Qed.

Lemma down_from_app (hi : Z) (a b : nat) :
  down_from hi (a + b) = down_from hi a ++ down_from (hi - Z.of_nat a) b.
Proof.
  revert hi. induction a as [|a IH]; intros hi.
  - simpl. f_equal. lia.
  - change (S a + b)%nat with (S (a + b)). rewrite !down_from_S, IH. simpl.
    do 3 f_equal. lia.
Qed.

Lemma down_from_length (hi : Z) (n : nat) : length (down_from hi n) = n.
Proof. unfold down_from. by rewrite length_map, length_seq. Qed.

Lemma batch_indices_from_spec (fuel : nat) (i e : Z) :
  1 <= e ->
  batch_indices_from fuel i e = down_from i (Nat.min fuel (Z.to_nat (i - e + 1))).
Proof.
  intros He. revert i. induction fuel as [|fuel IH]; intros i; simpl; [done|].
  destruct (Z.leb_spec e i) as [Hei|Hei]; simpl.
  - destruct (Z.leb_spec 1 i) as [_|?]; [|lia].
    rewrite IH. replace (Z.to_nat (i - e + 1)) with (S (Z.to_nat (i - 1 - e + 1))) by lia.
    simpl. by rewrite down_from_S.
  - replace (Z.to_nat (i - e + 1)) with 0%nat by lia. done.
Qed.

Lemma batch_indices_spec (batchStart bsz : Z) :
  1 <= bsz -> 1 <= batchStart ->
  batch_indices batchStart (Z.max 1 (batchStart - bsz + 1))
  = down_from batchStart (Z.to_nat (Z.min bsz batchStart)).
Proof.
  intros Hb Hs. unfold batch_indices. rewrite batch_indices_from_spec by lia.
  f_equal. lia.
Qed.

Lemma batches_from_spec (fuel : nat) (bsz start : Z) :
  1 <= bsz -> (Z.to_nat start < fuel)%nat ->
  exists bs,
    batches_from fuel bsz start = Some bs
    /\ (forall (k : nat) b, bs !! k = Some b ->
          indices b = down_from (start - Z.of_nat k * bsz)
                        (Z.to_nat (Z.min bsz (start - Z.of_nat k * bsz)))
          /\ batchEnd b = Z.max 1 (start - Z.of_nat k * bsz - bsz + 1)
          /\ 1 <= start - Z.of_nat k * bsz)
    /\ concat (List.map indices bs) = down_from start (Z.to_nat start).
Proof.
  intros Hb. revert start. induction fuel as [|fuel IH]; intros start Hf; [lia|].
  simpl. destruct (Z.leb_spec 1 start) as [Hs|Hs].
  - destruct (IH (start - bsz)) as (rest & -> & Hk & Hc); [lia|].
    eexists. split; [done|]. split.
    + intros [|k] b Hl.
      * assert (E : start - Z.of_nat 0 * bsz = start) by lia. rewrite E.
        injection Hl as <-. cbn [indices batchEnd].
        rewrite batch_indices_spec by lia. repeat split; (done || lia).
      * apply Hk in Hl as (Hi & He & Hp).
        replace (start - Z.of_nat (S k) * bsz)
          with (start - bsz - Z.of_nat k * bsz) by lia.
        done.
    + simpl. rewrite Hc, batch_indices_spec by lia.
      replace (Z.to_nat start)
        with (Z.to_nat (Z.min bsz start) + Z.to_nat (start - bsz))%nat by lia.
      rewrite down_from_app. f_equal.
      destruct (Z.le_gt_cases bsz start).
      * f_equal. lia.
      * replace (Z.to_nat (start - bsz)) with 0%nat by lia. done.
  - exists []. split; [done|]. split; [by intros k b|].
    replace (Z.to_nat start) with 0%nat by lia. done.
Qed.

(** C5: for a positive [batchSize] and every total supply N >= 1, the
    outer loop of [loadNFTs] ends and cuts the indices N, N-1, ..., 1 into
    consecutive batches taken highest index first: the k-th batch (from 0)
    starts at [N - k*batchSize], runs downwards, and holds [batchSize]
    indices, or the [N - k*batchSize] that remain when these are fewer,
    which can only happen in the last batch; together the batches list
    every index from N down to 1 once, in descending order.  With
    [batchSize = 5] and N = 12 the batches are 12..8, 7..3, 2..1 in this
    order. *)
Theorem loadNFTs_batches_descending (cfg : RateLimitConfig) (N : Z) (fuel : nat) :
  1 <= batchSize cfg -> 1 <= N -> (Z.to_nat N < fuel)%nat ->
  exists bs,
    batches fuel cfg N = Some bs
    /\ concat (List.map indices bs) = down_from N (Z.to_nat N)
    /\ (forall (k : nat) b, bs !! k = Some b ->
          let first := N - Z.of_nat k * batchSize cfg in
          1 <= first
          /\ indices b = down_from first (Z.to_nat (Z.min (batchSize cfg) first))
          /\ (Z.of_nat (length (indices b)) < batchSize cfg -> bs !! S k = None)).
Proof.
  intros Hb HN Hf. unfold batches.
  destruct (batches_from_spec fuel (batchSize cfg) N Hb Hf) as (bs & Hbs & Hk & Hc).
  exists bs. split; [done|]. split; [done|].
  intros k b Hl. destruct (Hk k b Hl) as (Hi & He & Hp).
  split; [done|]. split; [done|].
  rewrite Hi, down_from_length. intros Hshort.
  destruct (bs !! S k) as [b'|] eqn:Hn; [|done].
  apply Hk in Hn as (_ & _ & Hp'). lia.
Qed.

Lemma loadNFTs_batches_descending_witness :
  1 <= batchSize RATE_LIMIT_CONFIG /\ 1 <= 12 /\ (Z.to_nat 12 < 13)%nat
  /\ (exists bs,
        batches 13 RATE_LIMIT_CONFIG 12 = Some bs
        /\ concat (List.map indices bs) = [12; 11; 10; 9; 8; 7; 6; 5; 4; 3; 2; 1])
  /\ List.map indices <$> batches 13 RATE_LIMIT_CONFIG 12
     = Some [[12; 11; 10; 9; 8]; [7; 6; 5; 4; 3]; [2; 1]].
Proof.
  assert (H1 : 1 <= batchSize RATE_LIMIT_CONFIG) by (simpl; lia).
  assert (H2 : 1 <= 12) by lia.
  assert (H3 : (Z.to_nat 12 < 13)%nat) by (simpl; lia).
  split; [exact H1|]. split; [exact H2|]. split; [exact H3|].
  split; [|reflexivity].
  destruct (loadNFTs_batches_descending RATE_LIMIT_CONFIG 12 13 H1 H2 H3)
    as (bs & Hbs & Hc & _).
  exists bs. split; [exact Hbs|exact Hc].
Defined.

End BatchFacts.

(** ** The chunks of a batch and the end of the batch loop *)

Section ChunkFacts.

Import RateLimited.

Lemma slice_take_drop {A} (arr : list A) (i w : Z) :
  0 <= i -> 0 <= w ->
  Js.slice arr i (i + w) = take (Z.to_nat w) (drop (Z.to_nat i) arr).
Proof.
  intros Hi Hw. unfold Js.slice.
  destruct (Z.ltb_spec i 0) as [?|_]; [lia|].
  destruct (Z.ltb_spec (i + w) 0) as [?|_]; [lia|].
  destruct (Z.le_gt_cases (Z.of_nat (length arr)) i) as [Hlen|Hlen].
  - rewrite !drop_ge by lia. by rewrite !take_nil.
  - rewrite (Z.min_l i) by lia.
    destruct (Z.le_gt_cases (i + w) (Z.of_nat (length arr))).
    + rewrite (Z.min_l (i + w)) by lia. f_equal. lia.
    + rewrite (Z.min_r (i + w)) by lia.
      rewrite !take_ge; [done|rewrite length_drop; lia..].
Qed.

(** With a positive [maxConcurrent] the chunk loop ends, its chunks hold at
    most [maxConcurrent] promises each and, put together, are the whole
    list in order. *)
Lemma chunks_from_spec {A} (fuel : nat) (mc : Z) (arr : list A) (i : Z) :
  1 <= mc -> 0 <= i ->
  (length arr - Z.to_nat i < fuel)%nat ->
  exists cs,
    chunks_from fuel mc arr i = Some cs
    /\ concat cs = drop (Z.to_nat i) arr
    /\ Forall (fun c => Z.of_nat (length c) <= mc) cs.
Proof.
  intros Hmc. revert i. induction fuel as [|fuel IH]; intros i Hi Hf; [lia|].
  simpl. destruct (Z.ltb_spec i (Z.of_nat (length arr))) as [Hlt|Hge].
  - destruct (IH (i + mc)) as (cs & -> & Hc & Hall); [lia|lia|].
    eexists. split; [done|]. split.
    + simpl. rewrite Hc, slice_take_drop by lia.
      replace (Z.to_nat (i + mc)) with (Z.to_nat i + Z.to_nat mc)%nat by lia.
      rewrite <- drop_drop. apply take_drop.
    + constructor; [|done].
      rewrite slice_take_drop by lia. rewrite length_take. lia.
  - exists []. split; [done|]. split; [|constructor].
    simpl. rewrite drop_ge by lia. done.
Qed.

Lemma chunks_spec {A} (fuel : nat) (mc : Z) (arr : list A) :
  1 <= mc -> (length arr < fuel)%nat ->
  exists cs,
    chunks fuel mc arr = Some cs
    /\ concat cs = arr
    /\ Forall (fun c => Z.of_nat (length c) <= mc) cs.
Proof.
  intros Hmc Hf. unfold chunks.
  destruct (chunks_from_spec fuel mc arr 0 Hmc) as (cs & Hcs & Hc & Hall); [lia|simpl; lia|].
  exists cs. split; [done|]. split; [|done]. by rewrite Hc.
Qed.

End ChunkFacts.

Section LoopFacts.

Import RateLimited.

Variable tokenURI_rpc : TokenId -> nat -> Error + string.
Variable Date_now : list Event -> Z.
Variable cfg : RateLimitConfig.

Lemma run_tasks_length (ids : list Z) (st : App) :
  length (run_tasks tokenURI_rpc Date_now cfg ids st).1 = length ids.
Proof.
  revert st. induction ids as [|i ids IH]; intros st; simpl; [done|].
  destruct (settle _ st) as [r st1]. specialize (IH st1).
  destruct (run_tasks _ _ _ ids st1) as [rs st2]. simpl in *. by rewrite IH.
Qed.

(** With positive [batchSize] and [maxConcurrent] the batch loop of
    [loadNFTs] runs to its end, whatever the ledger answers. *)
Lemma loadNFTs_loop_completes (fuel : nat) (N : Z) (st : App) :
  1 <= batchSize cfg -> 1 <= maxConcurrent cfg -> (Z.to_nat N < fuel)%nat ->
  is_Some (loadNFTs_loop tokenURI_rpc Date_now cfg fuel N st).
Proof.
  intros Hb Hm Hf. unfold loadNFTs_loop, batches.
  destruct (batches_from_spec fuel (batchSize cfg) N Hb Hf) as (bs & -> & Hk & _).
  assert (Hlen : Forall (fun b => (length (indices b) < fuel)%nat) bs).
  { apply Forall_lookup. intros k b Hl. apply Hk in Hl as (-> & _ & Hp).
    rewrite down_from_length. lia. }
  clear Hk. revert st. induction Hlen as [|b bs Hb' _ IH]; intros st; simpl; [done|].
  unfold process_batch.
  pose proof (run_tasks_length (indices b) st) as Hl.
  destruct (run_tasks _ _ _ (indices b) st) as [promises st1]. simpl in Hl.
  destruct (chunks_spec fuel (maxConcurrent cfg) promises Hm) as (cs & -> & _ & _);
    [lia|].
  apply IH.
Qed.

End LoopFacts.

(** ** One resolver task and its retry *)

Section RetryFacts.

Import RateLimited.

Variable tokenURI_rpc : TokenId -> nat -> Error + string.
Variable Date_now : list Event -> Z.
Variable cfg : RateLimitConfig.

Local Abbreviation getCachedTokenURI := (RateLimited.getCachedTokenURI tokenURI_rpc Date_now).
Local Abbreviation loadNFT := (RateLimited.loadNFT tokenURI_rpc Date_now cfg).
Local Abbreviation run_tasks := (RateLimited.run_tasks tokenURI_rpc Date_now cfg).

Lemma attempts_app (t : TokenId) (tr1 tr2 : list Event) :
  attempts t (tr1 ++ tr2) = (attempts t tr1 + attempts t tr2)%nat.
Proof. unfold attempts. by rewrite List.filter_app, length_app. Qed.

(** What [getCachedTokenURI] does on a cache miss. *)
Lemma getCachedTokenURI_miss (i : TokenId) (st : App) (nc : NetworkConfig) :
  NETWORKS !! currentNetwork st = Some nc ->
  Js.truthy_opt (TOKEN_URI_CACHE.get (cache st) (plantoidAddress nc) i
                   (currentNetwork st)) = false ->
  getCachedTokenURI i st
  = match tokenURI_rpc i (attempts i (trace st)) with
    | inr tokenURI =>
        (inr tokenURI,
         with_cache
           (TOKEN_URI_CACHE.set (cache st) (plantoidAddress nc) i
              (currentNetwork st) tokenURI (Date_now (trace st ++ [EvRpc i])))
           (emit (EvRpc i) st))
    | inl error =>
        (inl error, emit (EvLog (LogFetchFailed i)) (emit (EvRpc i) st))
    end.
Proof.
  intros Hnc Hmiss. unfold RateLimited.getCachedTokenURI. rewrite Hnc, Hmiss. done.
Qed.

Lemma loadNFT_fulfilled (i : TokenId) (st : App) : (loadNFT i st).1 = inr tt.
Proof.
  unfold RateLimited.loadNFT, try_catch, bind, tell, displayNFT.
  destruct (getCachedTokenURI i (emit EvJitter st)) as [[e|uri] st1]; simpl; [|done].
  destruct (is_throttling e); simpl; [|done].
  destruct (getCachedTokenURI i (emit (EvSleep (retryDelay cfg)) st1))
    as [[e2|uri] st2]; done.
Qed.

Lemma run_tasks_fulfilled (ids : list Z) (st : App) :
  Forall (fun r => r = Fulfilled) (run_tasks ids st).1.
Proof.
  revert st. induction ids as [|i ids IH]; intros st; simpl; [constructor|].
  unfold settle. pose proof (loadNFT_fulfilled (IdNum i) st) as Hf.
  destruct (loadNFT (IdNum i) st) as [[e|[]] st1]; simpl in Hf; [done|].
  specialize (IH st1). destruct (run_tasks ids st1) as [rs st2].
  by constructor.
Qed.

(** The events a call of [getCachedTokenURI] adds concern its own token. *)
Lemma getCachedTokenURI_attempts_other (i j : TokenId) (st : App) :
  j <> i ->
  attempts j (trace (getCachedTokenURI i st).2) = attempts j (trace st)
  /\ currentNetwork (getCachedTokenURI i st).2 = currentNetwork st.
Proof.
  intros Hne. unfold RateLimited.getCachedTokenURI.
  destruct (NETWORKS !! currentNetwork st) as [nc|]; [|done].
  destruct (Js.truthy_opt _); [done|].
  destruct (tokenURI_rpc i _) as [e|uri]; simpl; split; try done;
    rewrite ?attempts_app; unfold attempts; simpl;
    rewrite bool_decide_eq_false_2 by congruence; simpl; lia.
Qed.

Lemma loadNFT_attempts_other (i j : TokenId) (st : App) :
  j <> i -> attempts j (trace (loadNFT i st).2) = attempts j (trace st).
Proof.
  intros Hne. unfold RateLimited.loadNFT, try_catch, bind, tell, displayNFT.
  pose proof (getCachedTokenURI_attempts_other i j (emit EvJitter st) Hne) as [H1 _].
  destruct (getCachedTokenURI i (emit EvJitter st)) as [[e|uri] st1]; simpl in *.
  - destruct (is_throttling e); simpl.
    + pose proof (getCachedTokenURI_attempts_other i j
                    (emit (EvSleep (retryDelay cfg)) st1) Hne) as [H2 _].
      destruct (getCachedTokenURI i (emit (EvSleep (retryDelay cfg)) st1))
        as [[e2|uri] st2]; simpl in *;
        rewrite ?attempts_app in *; unfold attempts in *; simpl in *; lia.
    + rewrite ?attempts_app in *; unfold attempts in *; simpl in *; lia.
  - rewrite ?attempts_app in *; unfold attempts in *; simpl in *; lia.
Qed.

Lemma attempts_jitter (i : TokenId) (tr : list Event) :
  attempts i (tr ++ [EvJitter]) = attempts i tr.
Proof. rewrite attempts_app. unfold attempts. simpl. lia. Qed.

Lemma attempts_first_failure (i : TokenId) (tr : list Event) (d : Z) :
  attempts i ((((tr ++ [EvJitter]) ++ [EvRpc i]) ++ [EvLog (LogFetchFailed i)])
              ++ [EvSleep d])
  = S (attempts i tr).
Proof.
  rewrite !attempts_app. unfold attempts. simpl.
  rewrite bool_decide_eq_true_2 by done. simpl. lia.
Qed.

Lemma is_throttling_spec (e : Error) :
  is_throttling e = true
  <-> code e = Some "BAD_DATA"
      \/ exists m, message e = Some m
                   /\ (Js.includes m "Too Many Requests" = true
                       \/ Js.includes m "429" = true).
Proof.
  unfold is_throttling, message_includes.
  rewrite !orb_true_iff, bool_decide_eq_true.
  destruct (message e) as [m|]; split.
  - intros [[?|?]|?]; [by left|right; exists m; auto..].
  - intros [?|(m' & [= <-] & [?|?])]; auto.
  - intros [[?|?]|?]; [by left|done..].
  - intros [?|(m' & ? & _)]; [auto|done].
Qed.

(** C3: when the first attempt for an item fails with an error classified
    as throttling (code BAD_DATA, or a message containing "Too Many
    Requests" or "429"), the task waits [retryDelay] and calls the ledger
    exactly once more; when that retry fails too the failure is logged and
    the item is not displayed; a failure that is not classified as
    throttling is logged with no retry; in every case the task settles as
    fulfilled, it never calls the ledger for another item, and every task
    of a batch settles as fulfilled, so nothing is thrown out of the batch
    loop. *)
Theorem loadNFT_retry_policy (i : TokenId) (st : App) (nc : NetworkConfig) :
  NETWORKS !! currentNetwork st = Some nc ->
  Js.truthy_opt (TOKEN_URI_CACHE.get (cache st) (plantoidAddress nc) i
                   (currentNetwork st)) = false ->
  let n0 := attempts i (trace st) in
  let r := loadNFT i st in
  (forall e, tokenURI_rpc i n0 = inl e -> is_throttling e = true ->
     (forall uri, tokenURI_rpc i (S n0) = inr uri ->
        trace r.2
        = trace st ++ [EvJitter; EvRpc i; EvLog (LogFetchFailed i);
                       EvSleep (retryDelay cfg); EvRpc i; EvDisplay i uri])
     /\ (forall e2, tokenURI_rpc i (S n0) = inl e2 ->
          trace r.2
          = trace st ++ [EvJitter; EvRpc i; EvLog (LogFetchFailed i);
                         EvSleep (retryDelay cfg); EvRpc i;
                         EvLog (LogFetchFailed i); EvLog (LogRetryFailed i)]
          /\ cache r.2 = cache st))
  /\ (forall e, tokenURI_rpc i n0 = inl e -> is_throttling e = false ->
        trace r.2
        = trace st ++ [EvJitter; EvRpc i; EvLog (LogFetchFailed i);
                       EvLog (LogLoadError i)]
        /\ cache r.2 = cache st)
  /\ (forall e, is_throttling e = true
        <-> code e = Some "BAD_DATA"
            \/ exists m, message e = Some m
                         /\ (Js.includes m "Too Many Requests" = true
                             \/ Js.includes m "429" = true))
  /\ r.1 = inr tt
  /\ (forall j, j <> i -> attempts j (trace r.2) = attempts j (trace st))
  /\ (forall ids st0, Forall (fun x => x = Fulfilled) (run_tasks ids st0).1).
Proof.
  intros Hnc Hmiss n0 r.
  assert (Hfirst : forall e, tokenURI_rpc i n0 = inl e ->
            getCachedTokenURI i (emit EvJitter st)
            = (inl e, emit (EvLog (LogFetchFailed i))
                        (emit (EvRpc i) (emit EvJitter st)))).
  { intros e He.
    rewrite (getCachedTokenURI_miss i (emit EvJitter st) nc Hnc Hmiss).
    simpl. rewrite attempts_jitter. fold n0. by rewrite He. }
  split; [|split; [|split; [|split; [|split]]]].
  - intros e He Hthr. subst r.
    unfold RateLimited.loadNFT, try_catch, bind, tell, displayNFT.
    rewrite (Hfirst e He), Hthr. cbv beta iota.
    set (st2 := emit (EvSleep (retryDelay cfg)) _).
    rewrite (getCachedTokenURI_miss i st2 nc Hnc Hmiss).
    subst st2. cbn [trace emit]. rewrite attempts_first_failure. fold n0.
    split.
    + intros uri ->. simpl. by rewrite <- !app_assoc.
    + intros e2 ->. simpl. by rewrite <- !app_assoc.
  - intros e He Hthr. subst r.
    unfold RateLimited.loadNFT, try_catch, bind, tell, displayNFT.
    rewrite (Hfirst e He), Hthr. simpl. by rewrite <- !app_assoc.
  - apply is_throttling_spec.
  - apply loadNFT_fulfilled.
  - intros j Hj. by apply loadNFT_attempts_other.
  - apply run_tasks_fulfilled.
Qed.

End RetryFacts.

Lemma loadNFT_retry_policy_witness :
  let st := fresh_app in
  let i := IdNum 12 in
  let r := RateLimited.loadNFT throttled_once_ledger (fun _ => 0)
             RATE_LIMIT_CONFIG i st in
  (exists nc, NETWORKS !! currentNetwork st = Some nc
              /\ Js.truthy_opt (TOKEN_URI_CACHE.get (cache st) (plantoidAddress nc) i
                                  (currentNetwork st)) = false)
  /\ trace r.2
     = [EvJitter; EvRpc i; EvLog (LogFetchFailed i); EvSleep 2000; EvRpc i;
        EvDisplay i "ipfs://unrevealed"]
  /\ (forall j, j <> i ->
        RateLimited.attempts j (trace r.2) = RateLimited.attempts j (trace st)).
Proof.
  assert (Hnc : NETWORKS !! currentNetwork fresh_app
                = Some {| name := "Sepolia Testnet"; chainId := 11155111;
                          rpcUrl := "https://sepolia.infura.io/v3/" +:+ INFURA_PROJECT_ID;
                          plantoidAddress := "0x66078a2061A68d5bA6cDdBc81517837dA0C7d7b5";
                          blockExplorer := "https://sepolia.etherscan.io";
                          isTestnet := true |}) by reflexivity.
  assert (Hmiss : Js.truthy_opt
                    (TOKEN_URI_CACHE.get (cache fresh_app)
                       "0x66078a2061A68d5bA6cDdBc81517837dA0C7d7b5" (IdNum 12)
                       (currentNetwork fresh_app)) = false) by reflexivity.
  destruct (loadNFT_retry_policy throttled_once_ledger (fun _ => 0)
              RATE_LIMIT_CONFIG (IdNum 12) fresh_app _ Hnc Hmiss)
    as (Hretry & _ & _ & _ & Hother & _).
  split; [eexists; split; [exact Hnc|exact Hmiss]|].
  split; [|exact Hother].
  destruct (Hretry {| code := Some "SERVER_ERROR";
                      message := Some "429 Too Many Requests" |})
    as [Hok _]; [reflexivity|reflexivity|].
  apply (Hok "ipfs://unrevealed"). reflexivity.
Defined.


(** A failure that is not throttling: one call, two log lines, no retry
    and nothing displayed. *)
Example loadNFT_timeout_no_retry :
  trace (RateLimited.loadNFT timeout_ledger (fun _ => 0) RATE_LIMIT_CONFIG
           (IdNum 12) fresh_app).2
  = [EvJitter; EvRpc (IdNum 12); EvLog (LogFetchFailed (IdNum 12));
     EvLog (LogLoadError (IdNum 12))].
Proof. reflexivity. Qed.

(** A batch of three with a ledger that throttles every first call: each
    item is retried once, in its own task. *)
Example run_tasks_throttled_batch :
  List.map (fun i => RateLimited.attempts (IdNum i)
                       (trace (RateLimited.run_tasks throttled_once_ledger
                                 (fun _ => 0) RATE_LIMIT_CONFIG [12; 11; 10]
                                 fresh_app).2))
    [12; 11; 10]
  = [2; 2; 2]%nat.
Proof. reflexivity. Qed.

(** ** Tasks in flight while [loadNFTs] runs *)

Section SchedulerFacts.

Import RateLimited.

(** While the main coroutine has a [Spawn] in front, that call is the only
    thing that can happen. *)
Lemma spawn_step_det (s s' : Sched) (i : Z) (rest : list Instr) :
  main s = Spawn i :: rest ->
  sched_step s s' ->
  s' = {| inflight := inflight s ++ [i]; settled := settled s; main := rest |}.
Proof.
  intros Hm Hstep. destruct Hstep as [j r fl se|j t Hsusp Hin|c r fl se Hall|ms r fl se];
    simpl in Hm.
  - by injection Hm as -> ->.
  - unfold suspended in Hsusp. by rewrite Hm in Hsusp.
  - discriminate.
  - discriminate.
Qed.

Lemma run_to_await_reachable (program : list Instr) (s : Sched) :
  main s = program ->
  rtc sched_step s (run_to_await s program).
Proof.
  revert s. induction program as [|ins rest IH]; intros s Hm.
  - simpl. destruct s as [fl se m]. simpl in Hm. subst m. apply rtc_refl.
  - destruct s as [fl se m]. simpl in Hm. subst m.
    destruct ins as [i|c|ms]; simpl; try apply rtc_refl.
    eapply rtc_l; [apply step_spawn|]. by apply IH.
Qed.

(** C2 fails on the code: [loadNFT(i)] is called, and so starts, for every
    index of a batch while the promises are collected, before the first
    [await Promise.allSettled]; the chunks only bound how many settled
    promises are waited for together.  With [batchSize = 5],
    [maxConcurrent = 3] and a total supply of 12, every run of [loadNFTs]
    reaches, after its first five steps, the state in which the five tasks
    12, 11, 10, 9, 8 are in flight and the main coroutine is about to
    await the first chunk 12, 11, 10: more than [maxConcurrent] tasks are
    in flight, and the tasks 9 and 8 of the second chunk run before the
    first chunk has settled. *)
Theorem loadNFTs_whole_batch_in_flight :
  exists program s,
    loadNFTs_program 13 RATE_LIMIT_CONFIG 12 = Some program
    /\ s = run_to_await (sched_init program) program
    /\ rtc sched_step (sched_init program) s
    /\ (forall s', nsteps sched_step 5 (sched_init program) s' -> s' = s)
    /\ inflight s = [12; 11; 10; 9; 8]
    /\ settled s = []
    /\ (exists rest, main s = AwaitAllSettled [12; 11; 10] :: AwaitAllSettled [9; 8] :: rest)
    /\ maxConcurrent RATE_LIMIT_CONFIG < Z.of_nat (length (inflight s)).
Proof.
  eexists _, _. split; [by vm_compute|]. split; [reflexivity|].
  split; [by apply run_to_await_reachable|].
  split.
  - intros s' Hn.
    do 5 (inversion Hn as [|n x y z Hstep Hrest]; subst; clear Hn;
          eapply spawn_step_det in Hstep; [|reflexivity]; subst y;
          rename Hrest into Hn).
    inversion Hn; subst. reflexivity.
  - vm_compute. repeat split; eauto.
Qed.

End SchedulerFacts.

(** ** Network switch *)

Section SwitchFacts.

Import Gallery.

Variable initializeGallery : App -> App.


(** A key of the table selects the network, stores the preference, resets
    the pagination and reloads the page. *)
Lemma switchNetwork_known (networkKey : string) (st : App) :
  is_Some (NETWORKS !! networkKey) ->
  switchNetwork initializeGallery networkKey st
  = (JsBoolean true,
     initializeGallery
       (with_pagination (reset_pagination (UNREVEALED_PAGINATION st))
          (with_network networkKey st))).
Proof. intros [nc Hnc]. unfold switchNetwork, NETWORKS_read. by rewrite Hnc. Qed.



End SwitchFacts.



(** ** More on the token-URI cache *)

Section CacheExtras.

Import TOKEN_URI_CACHE.

Lemma getCacheKey_normalised (a a' : string) (i i' : TokenId) (N : string) :
  Js.toLowerCase a = Js.toLowerCase a' -> template i = template i' ->
  getCacheKey a i N = getCacheKey a' i' N.
Proof. intros Ha Hi. unfold getCacheKey. by rewrite Ha, Hi. Qed.

(** X1: what [set] stores under a network, [get] returns under the same
    network for every spelling of the same address (upper or lower case)
    and for the token id given as a Number or as its decimal string. *)
Theorem cache_get_after_set (cache : Cache) (a a' : string) (i i' : TokenId)
    (N p : string) (now : Z) :
  Js.toLowerCase a = Js.toLowerCase a' -> template i = template i' ->
  get (set cache a i N p now) a' i' N = Some p.
Proof.
  intros Ha Hi. unfold get, set.
  rewrite (getCacheKey_normalised a a' i i' N Ha Hi), lookup_insert_eq. done.
Qed.

Lemma cache_get_after_set_witness :
  Js.toLowerCase "0xAB" = Js.toLowerCase "0xab"
  /\ template (IdNum 7) = template (IdStr "7")
  /\ get (set sample_cache "0xAB" (IdNum 7) "sepolia" "ipfs://seven" 20)
       "0xab" (IdStr "7") "sepolia" = Some "ipfs://seven".
Proof.
  split; [reflexivity|]. split; [reflexivity|].
  apply (cache_get_after_set sample_cache "0xAB" "0xab" (IdNum 7) (IdStr "7"));
    reflexivity.
Defined.

(** X2: [set] is an upsert: on a key that is present it replaces the entry
    and the number of entries stays, on a fresh key the number grows by
    one; the last pointer written is the one read back. *)
Theorem cache_set_upsert (cache : Cache) (a : string) (i : TokenId)
    (N p1 p2 : string) (t1 t2 : Z) :
  let c1 := set cache a i N p1 t1 in
  let c2 := set c1 a i N p2 t2 in
  totalSize (getStats c1)
  = match cache !! getCacheKey a i N with
    | Some _ => totalSize (getStats cache)
    | None => S (totalSize (getStats cache))
    end
  /\ totalSize (getStats c2) = totalSize (getStats c1)
  /\ get c2 a i N = Some p2
  /\ c2 = set cache a i N p2 t2.
Proof.
  unfold set, get, getStats. simpl. split; [|split; [|split]].
  - destruct (cache !! getCacheKey a i N) as [e|] eqn:He.
    + apply map_size_insert_Some. eauto.
    + by apply map_size_insert_None.
  - apply map_size_insert_Some. rewrite lookup_insert_eq. by eexists.
  - by rewrite lookup_insert_eq.
  - by rewrite insert_insert_eq.
Qed.

(** X3: [clearNetwork] for a network without entries leaves the cache as
    it is and logs a count of zero; in particular a second [clearNetwork]
    for the same network changes nothing more. *)
Theorem clearNetwork_idempotent (cache : Cache) (N : string) :
  ((forall k e, cache !! k = Some e -> network e <> N) ->
   clearNetwork cache N = (cache, JsUndefined, [LogClearedNetwork 0 N]))
  /\ clearNetwork (clearNetwork cache N).1.1 N
     = ((clearNetwork cache N).1.1, JsUndefined, [LogClearedNetwork 0 N]).
Proof.
  assert (Hnone : forall c : Cache,
             (forall k e, c !! k = Some e -> network e <> N) ->
             clearNetwork c N = (c, JsUndefined, [LogClearedNetwork 0 N])).
  { intros c Hc. unfold clearNetwork.
    assert (Hsame : (clearNetwork_loop N c).1 = c).
    { apply map_eq. intros k. apply option_eq. intros e.
      rewrite clearNetwork_loop_lookup. split; [tauto|]. intros Hk. split; [done|].
      by eapply Hc. }
    rewrite clearNetwork_loop_count, Hsame. do 2 f_equal. f_equal. lia. }
  split; [apply Hnone|].
  apply Hnone. simpl. intros k e Hk. by apply clearNetwork_loop_lookup in Hk as [_ ?].
Qed.

Lemma total_insert_fresh (counts : gmap string Counter) (L : string) (n : nat) :
  counts !! L = None ->
  byNetwork_total {| totalSize := 0; byNetwork := <[L := Count n]> counts; keys := [] |}
  = (n + byNetwork_total {| totalSize := 0; byNetwork := counts; keys := [] |})%nat.
Proof.
  intros Hnone. unfold byNetwork_total. cbn [byNetwork].
  rewrite map_fold_insert_L; [done| |done].
  intros j1 j2 [n1|o1] [n2|o2] y _ _ _; lia.
Qed.

Lemma total_insert_count (counts : gmap string Counter) (L : string) (n m : nat) :
  counts !! L = Some (Count n) ->
  (byNetwork_total {| totalSize := 0; byNetwork := <[L := Count m]> counts; keys := [] |}
   + n)%nat
  = (m + byNetwork_total {| totalSize := 0; byNetwork := counts; keys := [] |})%nat.
Proof.
  intros Hn.
  rewrite <- (insert_delete_eq counts L (Count m)).
  rewrite total_insert_fresh by apply lookup_delete_eq.
  rewrite <- (insert_delete_id counts L (Count n) Hn) at 2.
  rewrite total_insert_fresh by apply lookup_delete_eq.
  lia.
Qed.

Lemma total_step_plain (counts : gmap string Counter) (kv : string * Entry) :
  (forall L c, counts !! L = Some c -> exists n, c = Count n) ->
  Js.inherited (network_label kv.2) = false ->
  byNetwork_total {| totalSize := 0; byNetwork := getStats_step counts kv; keys := [] |}
  = S (byNetwork_total {| totalSize := 0; byNetwork := counts; keys := [] |})
  /\ (forall L c, getStats_step counts kv !! L = Some c -> exists n, c = Count n).
Proof.
  intros Hall Hplain. unfold Js.inherited in Hplain.
  apply orb_false_elim in Hplain as [Hp Hf]. unfold getStats_step.
  destruct (counts !! network_label kv.2) as [[n|ones]|] eqn:Hc.
  - split.
    + pose proof (total_insert_count counts (network_label kv.2) n (n + 1) Hc). lia.
    + intros L c. destruct (decide (network_label kv.2 = L)) as [<-|Hne].
      * rewrite lookup_insert_eq. intros [= <-]. by eexists.
      * rewrite lookup_insert_ne by done. apply Hall.
  - apply Hall in Hc as [n Hn]. discriminate.
  - rewrite Hp, Hf. split.
    + by rewrite total_insert_fresh.
    + intros L c. destruct (decide (network_label kv.2 = L)) as [<-|Hne].
      * rewrite lookup_insert_eq. intros [= <-]. by eexists.
      * rewrite lookup_insert_ne by done. apply Hall.
Qed.

Lemma total_fold_plain (l : list (string * Entry)) (counts : gmap string Counter) :
  (forall L c, counts !! L = Some c -> exists n, c = Count n) ->
  Forall (fun kv : string * Entry => Js.inherited (network_label kv.2) = false) l ->
  byNetwork_total {| totalSize := 0; byNetwork := foldl getStats_step counts l;
                     keys := [] |}
  = (byNetwork_total {| totalSize := 0; byNetwork := counts; keys := [] |}
     + length l)%nat.
Proof.
  intros Hall Hl. revert counts Hall.
  induction Hl as [|kv l Hkv Hl IH]; intros counts Hall; simpl; [lia|].
  destruct (total_step_plain counts kv Hall Hkv) as [Ht Hall'].
  rewrite (IH _ Hall'), Ht. lia.
Qed.

(** X4: the property [getStats] leaves in [byNetwork] for a label is
    fixed by the number of entries counted under that label: none when
    there is no such entry or the label is "__proto__", the number of
    these entries when the label is an ordinary name, and for a name of
    a function of [Object.prototype] that function's text followed by one
    "1" per entry.  A label has entries exactly when some entry of the
    cache carries it.  In a cache none of whose labels is a name defined
    by [Object.prototype], every counter is a number and the counters add
    up to [totalSize]. *)
Theorem getStats_counters_sum (cache : Cache) :
  (forall L,
     byNetwork (getStats cache) !! L
     = if decide (labelled cache L = 0%nat) then None
       else if decide (L = "__proto__") then None
       else if decide (L ∈ Js.Object_prototype_functions)
       then Some (Text (labelled cache L))
       else Some (Count (labelled cache L)))
  /\ (forall L,
        labelled cache L <> 0%nat
        <-> exists k e, cache !! k = Some e /\ network_label e = L)
  /\ ((forall k e, cache !! k = Some e -> Js.inherited (network_label e) = false) ->
      byNetwork_total (getStats cache) = totalSize (getStats cache)
      /\ (forall L c, byNetwork (getStats cache) !! L = Some c ->
            c = Count (labelled cache L) /\ (0 < labelled cache L)%nat)).
Proof.
  split; [apply byNetwork_lookup|]. split.
  - intros L. unfold labelled. split.
    + intros Hne.
      destruct (filter (fun kv : string * Entry => network_label kv.2 = L)
                  (map_to_list cache)) as [|[k e] rest] eqn:Hf; [done|].
      assert (Hin : (k, e) ∈ filter (fun kv : string * Entry => network_label kv.2 = L)
                      (map_to_list cache)) by (rewrite Hf; left).
      apply list_elem_of_filter in Hin as [Hl Hin].
      apply elem_of_map_to_list in Hin. by exists k, e.
    + intros (k & e & Hk & Hl) Hz. apply length_zero_iff_nil in Hz.
      assert (Hin : (k, e) ∈ filter (fun kv : string * Entry => network_label kv.2 = L)
                      (map_to_list cache)).
      { apply list_elem_of_filter. split; [done|]. by apply elem_of_map_to_list. }
      rewrite Hz in Hin. by apply elem_of_nil in Hin.
  - intros Hplain. split.
    + assert (Ht : byNetwork_total (getStats cache)
                   = byNetwork_total {| totalSize := 0; byNetwork := byNetwork (getStats cache);
                                        keys := [] |}) by done.
      rewrite Ht. unfold getStats. cbn [byNetwork totalSize].
      rewrite total_fold_plain.
      * unfold byNetwork_total. cbn [byNetwork].
        by rewrite map_fold_empty, length_map_to_list.
      * intros L c. by rewrite lookup_empty.
      * apply Forall_forall. intros [k e] Hin. apply elem_of_map_to_list in Hin.
        by eapply Hplain.
    + intros L c. rewrite byNetwork_lookup.
      destruct (decide (labelled cache L = 0%nat)) as [|Hne]; [done|].
      destruct (decide (L = "__proto__")) as [|Hp]; [done|].
      destruct (decide (L ∈ Js.Object_prototype_functions)) as [Hf|Hf].
      * exfalso. unfold labelled in Hne.
        destruct (filter (fun kv : string * Entry => network_label kv.2 = L)
                    (map_to_list cache)) as [|[k e] rest] eqn:Hfl; [done|].
        assert (Hin : (k, e) ∈ filter (fun kv : string * Entry => network_label kv.2 = L)
                        (map_to_list cache)) by (rewrite Hfl; left).
        apply list_elem_of_filter in Hin as [Hl Hin].
        apply elem_of_map_to_list in Hin. apply Hplain in Hin.
        simpl in Hl. rewrite Hl in Hin. unfold Js.inherited in Hin.
        apply orb_false_elim in Hin as [_ Hin].
        by apply bool_decide_eq_false in Hin.
      * intros [= <-]. split; [done|lia].
Qed.

(** Entries stored under the tags "constructor" (twice), "__proto__" and
    "sepolia". *)
Example getStats_inherited_labels :
  let cache :=
    set (set (set (set ∅ "0xAB" (IdNum 1) "constructor" "ipfs://a" 1)
                "0xAB" (IdNum 2) "constructor" "ipfs://b" 2)
           "0xAB" (IdNum 3) "__proto__" "ipfs://c" 3)
      "0xAB" (IdNum 4) "sepolia" "ipfs://d" 4 in
  totalSize (getStats cache) = 4%nat
  /\ byNetwork (getStats cache) !! "constructor" = Some (Text 2)
  /\ byNetwork (getStats cache) !! "__proto__" = None
  /\ byNetwork (getStats cache) !! "sepolia" = Some (Count 1).
Proof. vm_compute. repeat split. Qed.

End CacheExtras.

(** ** More on [getCachedTokenURI] and its callers *)

Section ResolverExtras.

Import RateLimited.

Variable tokenURI_rpc : TokenId -> nat -> Error + string.
Variable Date_now : list Event -> Z.
Variable cfg : RateLimitConfig.

Local Abbreviation getCachedTokenURI :=
  (RateLimited.getCachedTokenURI tokenURI_rpc Date_now).
Local Abbreviation loadNFT := (RateLimited.loadNFT tokenURI_rpc Date_now cfg).
Local Abbreviation check_seed := (RateLimited.check_seed tokenURI_rpc Date_now).
Local Abbreviation check_seeds := (RateLimited.check_seeds tokenURI_rpc Date_now).

Lemma truthy_opt_Some (p : string) :
  p <> EmptyString -> Js.truthy_opt (Some p) = true.
Proof.
  intros Hp. unfold Js.truthy_opt, Js.truthy.
  by destruct (String.eqb_spec p EmptyString).
Qed.

Lemma getCachedTokenURI_hit_eq (i : TokenId) (st : App) (nc : NetworkConfig) (p : string) :
  NETWORKS !! currentNetwork st = Some nc ->
  TOKEN_URI_CACHE.get (cache st) (plantoidAddress nc) i (currentNetwork st) = Some p ->
  p <> EmptyString ->
  getCachedTokenURI i st = (inr p, st).
Proof.
  intros Hnc Hget Hp. unfold RateLimited.getCachedTokenURI.
  rewrite Hnc, Hget, (truthy_opt_Some p Hp). done.
Qed.

(** X5: when the cache holds a non-empty pointer for the token under the
    current network, [getCachedTokenURI] returns it without calling the
    contract and without touching the state. *)
Theorem getCachedTokenURI_hit (i : TokenId) (st : App) (nc : NetworkConfig) (p : string) :
  NETWORKS !! currentNetwork st = Some nc ->
  TOKEN_URI_CACHE.get (cache st) (plantoidAddress nc) i (currentNetwork st) = Some p ->
  p <> EmptyString ->
  getCachedTokenURI i st = (inr p, st)
  /\ attempts i (trace (getCachedTokenURI i st).2) = attempts i (trace st).
Proof.
  intros Hnc Hget Hp. by rewrite (getCachedTokenURI_hit_eq i st nc p Hnc Hget Hp).
Qed.

Lemma getCachedTokenURI_stores (i i' : TokenId) (st : App) (nc : NetworkConfig)
    (uri : string) :
  NETWORKS !! currentNetwork st = Some nc ->
  Js.truthy_opt (TOKEN_URI_CACHE.get (cache st) (plantoidAddress nc) i
                   (currentNetwork st)) = false ->
  tokenURI_rpc i (attempts i (trace st)) = inr uri ->
  template i = template i' ->
  exists st',
    getCachedTokenURI i st = (inr uri, st')
    /\ currentNetwork st' = currentNetwork st
    /\ trace st' = trace st ++ [EvRpc i]
    /\ TOKEN_URI_CACHE.get (cache st') (plantoidAddress nc) i' (currentNetwork st)
       = Some uri.
Proof.
  intros Hnc Hmiss Hrpc Hi.
  rewrite (getCachedTokenURI_miss _ _ i st nc Hnc Hmiss), Hrpc.
  eexists. split; [done|]. split; [done|]. split; [done|].
  simpl. unfold TOKEN_URI_CACHE.get, TOKEN_URI_CACHE.set.
  rewrite (getCacheKey_normalised _ (plantoidAddress nc) i i' _ eq_refl Hi).
  by rewrite lookup_insert_eq.
Qed.

(** X6: after a miss that the contract answers with a non-empty pointer,
    the pointer is cached: the same request, also with the token id in its
    other form (Number or decimal string), is then served from the cache,
    with no further call and no change of state. *)
Theorem getCachedTokenURI_memoises (i i' : TokenId) (st : App) (nc : NetworkConfig)
    (uri : string) :
  NETWORKS !! currentNetwork st = Some nc ->
  Js.truthy_opt (TOKEN_URI_CACHE.get (cache st) (plantoidAddress nc) i
                   (currentNetwork st)) = false ->
  tokenURI_rpc i (attempts i (trace st)) = inr uri ->
  uri <> EmptyString ->
  template i = template i' ->
  let r := getCachedTokenURI i st in
  r.1 = inr uri
  /\ trace r.2 = trace st ++ [EvRpc i]
  /\ getCachedTokenURI i' r.2 = (inr uri, r.2).
Proof.
  intros Hnc Hmiss Hrpc Hne Hi r. subst r.
  destruct (getCachedTokenURI_stores i i' st nc uri Hnc Hmiss Hrpc Hi)
    as (st' & -> & Hn & Ht & Hg).
  simpl. split; [done|]. split; [done|].
  apply (getCachedTokenURI_hit_eq i' st' nc uri); rewrite ?Hn; done.
Qed.

(** X7: an empty pointer is stored but never served: when the contract
    answers a miss with the empty string, the entry is written, and the
    next request for the token calls the contract again. *)
Theorem getCachedTokenURI_empty_pointer (i : TokenId) (st : App) (nc : NetworkConfig) :
  NETWORKS !! currentNetwork st = Some nc ->
  Js.truthy_opt (TOKEN_URI_CACHE.get (cache st) (plantoidAddress nc) i
                   (currentNetwork st)) = false ->
  tokenURI_rpc i (attempts i (trace st)) = inr EmptyString ->
  let r := getCachedTokenURI i st in
  TOKEN_URI_CACHE.get (cache r.2) (plantoidAddress nc) i (currentNetwork st)
  = Some EmptyString
  /\ attempts i (trace (getCachedTokenURI i r.2).2) = S (S (attempts i (trace st))).
Proof.
  intros Hnc Hmiss Hrpc r. subst r.
  rewrite (getCachedTokenURI_miss _ _ i st nc Hnc Hmiss), Hrpc. simpl.
  assert (Hget : TOKEN_URI_CACHE.get
                   (TOKEN_URI_CACHE.set (cache st) (plantoidAddress nc) i
                      (currentNetwork st) EmptyString
                      (Date_now (trace st ++ [EvRpc i])))
                   (plantoidAddress nc) i (currentNetwork st) = Some EmptyString).
  { unfold TOKEN_URI_CACHE.get, TOKEN_URI_CACHE.set. by rewrite lookup_insert_eq. }
  split; [exact Hget|].
  set (st1 := with_cache _ _).
  assert (Hnc1 : NETWORKS !! currentNetwork st1 = Some nc) by exact Hnc.
  assert (Hmiss1 : Js.truthy_opt
                     (TOKEN_URI_CACHE.get (cache st1) (plantoidAddress nc) i
                        (currentNetwork st1)) = false).
  { subst st1. simpl. by rewrite Hget. }
  assert (Ha : attempts i (trace st1) = S (attempts i (trace st))).
  { subst st1. simpl. rewrite attempts_app. unfold attempts at 2. simpl.
    rewrite bool_decide_eq_true_2 by done. simpl. lia. }
  clearbody st1.
  rewrite (getCachedTokenURI_miss _ _ i st1 nc Hnc1 Hmiss1).
  destruct (tokenURI_rpc i (attempts i (trace st1))) as [e|u]; simpl;
    rewrite !attempts_app, Ha; unfold attempts; simpl;
    rewrite bool_decide_eq_true_2 by done; simpl; lia.
Qed.

Lemma getCachedTokenURI_throw_keeps_cache (i : TokenId) (st : App) (e : Error) :
  (getCachedTokenURI i st).1 = inl e ->
  cache (getCachedTokenURI i st).2 = cache st.
Proof.
  unfold RateLimited.getCachedTokenURI.
  destruct (NETWORKS !! currentNetwork st) as [nc|]; [|done].
  destruct (Js.truthy_opt _); [discriminate|].
  by destruct (tokenURI_rpc i (attempts i (trace st))).
Qed.

(** X8: when [getCachedTokenURI] throws, nothing was cached: either the
    current network has no configuration, and then the contract was not
    called and the state is as before, or the call of the contract failed
    and its error is the one thrown, after one call and one console
    line. *)
Theorem getCachedTokenURI_failure (i : TokenId) (st : App) (e : Error) :
  (getCachedTokenURI i st).1 = inl e ->
  cache (getCachedTokenURI i st).2 = cache st
  /\ ((NETWORKS !! currentNetwork st = None
       /\ e = TypeError_plantoidAddress
       /\ (getCachedTokenURI i st).2 = st)
      \/ (is_Some (NETWORKS !! currentNetwork st)
          /\ tokenURI_rpc i (attempts i (trace st)) = inl e
          /\ trace (getCachedTokenURI i st).2
             = trace st ++ [EvRpc i; EvLog (LogFetchFailed i)])).
Proof.
  unfold RateLimited.getCachedTokenURI.
  destruct (NETWORKS !! currentNetwork st) as [nc|] eqn:Hnc.
  - destruct (Js.truthy_opt _); [discriminate|].
    destruct (tokenURI_rpc i (attempts i (trace st))) as [e'|u] eqn:Hrpc;
      simpl; [|discriminate].
    intros [= ->]. split; [done|]. right. split; [by eexists|]. split; [done|].
    by rewrite <- app_assoc.
  - simpl. intros [= <-]. split; [done|]. by left.
Qed.

(** X9: the staleness check of the first revision reads the cache: for an
    eligible record whose token has a non-empty cached pointer, the record
    is kept or dropped by comparing that pointer with [revealedUri], and
    the contract is not asked. *)
Theorem check_seed_uses_cached_pointer (acc : list Combined) (s : Combined)
    (st : App) (nc : NetworkConfig) (p : string) :
  Gallery.eligible s ->
  NETWORKS !! currentNetwork st = Some nc ->
  TOKEN_URI_CACHE.get (cache st) (plantoidAddress nc) (IdStr (tokenId (seed s)))
    (currentNetwork st) = Some p ->
  p <> EmptyString ->
  check_seed acc s st
  = (if bool_decide (Some p = revealedUri s) then acc else acc ++ [s], st).
Proof.
  intros He Hnc Hget Hp.
  rewrite (check_seed_eligible _ _ acc s st He). simpl.
  by rewrite (getCachedTokenURI_hit_eq _ st nc p Hnc Hget Hp).
Qed.

Lemma check_seeds_sublist (l acc : list Combined) (st : App) :
  exists kept,
    (check_seeds acc l st).1 = acc ++ kept
    /\ sublist kept
         (List.filter (fun s => Gallery.notRevealed s && Gallery.hasSignature s) l).
Proof.
  revert acc st. induction l as [|x l IH]; intros acc st; simpl.
  - exists []. by rewrite app_nil_r.
  - unfold RateLimited.check_seed at 1.
    destruct (Gallery.notRevealed x && Gallery.hasSignature x) eqn:Hg.
    + destruct (getCachedTokenURI _ st) as [[e|uri] st1].
      * destruct (IH (acc ++ [x]) st1) as (kept & -> & Hs).
        exists (x :: kept). rewrite <- app_assoc. split; [done|]. by constructor.
      * destruct (bool_decide (Some uri = revealedUri x)); simpl.
        -- destruct (IH acc st1) as (kept & -> & Hs).
           exists kept. split; [done|]. by constructor.
        -- destruct (IH (acc ++ [x]) st1) as (kept & -> & Hs).
           exists (x :: kept). rewrite <- app_assoc. split; [done|]. by constructor.
    + apply IH.
Qed.

Lemma check_seeds_all_fail (l acc : list Combined) (st : App) :
  (forall t k, exists e, tokenURI_rpc t k = inl e) ->
  cache st = ∅ ->
  (check_seeds acc l st).1
  = acc ++ List.filter (fun s => Gallery.notRevealed s && Gallery.hasSignature s) l
  /\ cache (check_seeds acc l st).2 = ∅.
Proof.
  intros Hfail. revert acc st. induction l as [|x l IH]; intros acc st Hc; simpl.
  - by rewrite app_nil_r.
  - unfold RateLimited.check_seed.
    destruct (Gallery.notRevealed x && Gallery.hasSignature x) eqn:Hg; [|by apply IH].
    destruct (getCachedTokenURI (IdStr (tokenId (seed x))) st) as [[e|uri] st1] eqn:Hr.
    + assert (Hc1 : cache st1 = ∅).
      { pose proof (getCachedTokenURI_throw_keeps_cache (IdStr (tokenId (seed x))) st e)
          as Hf.
        rewrite Hr in Hf. simpl in Hf. rewrite Hf by done. exact Hc. }
      destruct (IH (acc ++ [x]) st1 Hc1) as [-> Hc2]. by rewrite <- app_assoc.
    + exfalso. revert Hr. unfold RateLimited.getCachedTokenURI.
      destruct (NETWORKS !! currentNetwork st) as [nc|]; [|discriminate].
      unfold TOKEN_URI_CACHE.get. rewrite Hc, lookup_empty. simpl.
      destruct (Hfail (IdStr (tokenId (seed x))) (attempts (IdStr (tokenId (seed x))) (trace st)))
        as [e' ->].
      discriminate.
Qed.

(** X10: the first revision keeps the eligible records in the order of the
    main subgraph: its list is a sublist of the combined records that pass
    the eligibility test; and when every call of the contract fails on a
    cold cache, no record is dropped, the list being all of them. *)
Theorem check_seeds_keeps_order (combined : list Combined) (st : App) :
  sublist (check_seeds [] combined st).1
    (List.filter (fun s => Gallery.notRevealed s && Gallery.hasSignature s) combined)
  /\ ((forall t k, exists e, tokenURI_rpc t k = inl e) -> cache st = ∅ ->
      (check_seeds [] combined st).1
      = List.filter (fun s => Gallery.notRevealed s && Gallery.hasSignature s) combined).
Proof.
  split.
  - destruct (check_seeds_sublist combined [] st) as (kept & -> & Hs). done.
  - intros Hfail Hc. by destruct (check_seeds_all_fail combined [] st Hfail Hc) as [-> _].
Qed.

(** X11: an item that resolves at the first attempt costs one call and no
    pause, and is displayed once; loading the same item again (in either
    form of its id) with that non-empty pointer cached displays it with no
    call of the contract at all. *)
Theorem loadNFT_first_success_then_cached (i i' : TokenId) (st : App)
    (nc : NetworkConfig) (uri : string) :
  NETWORKS !! currentNetwork st = Some nc ->
  Js.truthy_opt (TOKEN_URI_CACHE.get (cache st) (plantoidAddress nc) i
                   (currentNetwork st)) = false ->
  tokenURI_rpc i (attempts i (trace st)) = inr uri ->
  uri <> EmptyString ->
  template i = template i' ->
  let r := loadNFT i st in
  trace r.2 = trace st ++ [EvJitter; EvRpc i; EvDisplay i uri]
  /\ trace (loadNFT i' r.2).2 = trace r.2 ++ [EvJitter; EvDisplay i' uri].
Proof.
  intros Hnc Hmiss Hrpc Hne Hi r.
  assert (Hrpc' : tokenURI_rpc i (attempts i (trace (emit EvJitter st))) = inr uri).
  { simpl. by rewrite attempts_jitter. }
  destruct (getCachedTokenURI_stores i i' (emit EvJitter st) nc uri Hnc Hmiss Hrpc' Hi)
    as (st1 & Hr1 & Hn1 & Ht1 & Hg1).
  assert (Hr : loadNFT i st = (inr tt, emit (EvDisplay i uri) st1)).
  { unfold RateLimited.loadNFT, try_catch, bind, tell, displayNFT. by rewrite Hr1. }
  subst r. rewrite Hr. simpl. rewrite Ht1. simpl.
  split; [by rewrite <- !app_assoc|].
  assert (Hhit : getCachedTokenURI i' (emit EvJitter (emit (EvDisplay i uri) st1))
                 = (inr uri, emit EvJitter (emit (EvDisplay i uri) st1))).
  { apply (getCachedTokenURI_hit_eq i' _ nc uri); simpl; rewrite ?Hn1; done. }
  unfold RateLimited.loadNFT, try_catch, bind, tell, displayNFT.
  rewrite Hhit. simpl. rewrite Ht1. simpl. by rewrite <- !app_assoc.
Qed.

End ResolverExtras.

Lemma getCachedTokenURI_hit_witness :
  NETWORKS !! currentNetwork cached_app = Some sepolia_config
  /\ RateLimited.getCachedTokenURI timeout_ledger (fun _ => 0) (IdStr "12") cached_app
     = (inr "ipfs://unrevealed", cached_app).
Proof.
  assert (Hnc : NETWORKS !! currentNetwork cached_app = Some sepolia_config)
    by reflexivity.
  split; [exact Hnc|].
  apply (getCachedTokenURI_hit timeout_ledger (fun _ => 0) (IdStr "12") cached_app
           sepolia_config "ipfs://unrevealed" Hnc); [reflexivity|discriminate].
Defined.

Lemma getCachedTokenURI_memoises_witness :
  let r := RateLimited.getCachedTokenURI unrevealed_ledger (fun _ => 0) (IdNum 12)
             fresh_app in
  NETWORKS !! currentNetwork fresh_app = Some sepolia_config
  /\ r.1 = inr "ipfs://unrevealed"
  /\ RateLimited.getCachedTokenURI unrevealed_ledger (fun _ => 0) (IdStr "12") r.2
     = (inr "ipfs://unrevealed", r.2).
Proof.
  assert (Hnc : NETWORKS !! currentNetwork fresh_app = Some sepolia_config)
    by reflexivity.
  split; [exact Hnc|].
  destruct (getCachedTokenURI_memoises unrevealed_ledger (fun _ => 0) (IdNum 12)
              (IdStr "12") fresh_app sepolia_config "ipfs://unrevealed" Hnc)
    as (H1 & _ & H3); [reflexivity|reflexivity|discriminate|reflexivity|].
  split; [exact H1|exact H3].
Defined.

Lemma getCachedTokenURI_empty_pointer_witness :
  let r := RateLimited.getCachedTokenURI empty_pointer_ledger (fun _ => 0) (IdNum 12)
             fresh_app in
  NETWORKS !! currentNetwork fresh_app = Some sepolia_config
  /\ RateLimited.attempts (IdNum 12)
       (trace (RateLimited.getCachedTokenURI empty_pointer_ledger (fun _ => 0)
                 (IdNum 12) r.2).2) = 2%nat.
Proof.
  assert (Hnc : NETWORKS !! currentNetwork fresh_app = Some sepolia_config)
    by reflexivity.
  split; [exact Hnc|].
  destruct (getCachedTokenURI_empty_pointer empty_pointer_ledger (fun _ => 0)
              (IdNum 12) fresh_app sepolia_config Hnc) as [_ H2];
    [reflexivity|reflexivity|exact H2].
Defined.

Lemma getCachedTokenURI_failure_witness :
  exists e,
    (RateLimited.getCachedTokenURI timeout_ledger (fun _ => 0) (IdNum 12) fresh_app).1
    = inl e
    /\ cache (RateLimited.getCachedTokenURI timeout_ledger (fun _ => 0) (IdNum 12)
                fresh_app).2 = cache fresh_app.
Proof.
  eexists. split; [reflexivity|].
  eapply (getCachedTokenURI_failure timeout_ledger (fun _ => 0) (IdNum 12) fresh_app).
  reflexivity.
Defined.

Lemma check_seed_uses_cached_pointer_witness :
  Gallery.eligible (sample_record 12)
  /\ RateLimited.check_seed timeout_ledger (fun _ => 0) [] (sample_record 12) cached_app
     = ([sample_record 12], cached_app).
Proof.
  assert (He : Gallery.eligible (sample_record 12)).
  { split; [reflexivity|]. exists "0xdead". repeat split; discriminate. }
  split; [exact He|].
  apply (check_seed_uses_cached_pointer timeout_ledger (fun _ => 0) []
           (sample_record 12) cached_app sepolia_config "ipfs://unrevealed" He);
    [reflexivity|reflexivity|discriminate].
Defined.

Lemma loadNFT_first_success_then_cached_witness :
  let r := RateLimited.loadNFT unrevealed_ledger (fun _ => 0) RATE_LIMIT_CONFIG
             (IdNum 12) fresh_app in
  NETWORKS !! currentNetwork fresh_app = Some sepolia_config
  /\ trace r.2 = [EvJitter; EvRpc (IdNum 12); EvDisplay (IdNum 12) "ipfs://unrevealed"]
  /\ trace (RateLimited.loadNFT unrevealed_ledger (fun _ => 0) RATE_LIMIT_CONFIG
              (IdNum 12) r.2).2
     = trace r.2 ++ [EvJitter; EvDisplay (IdNum 12) "ipfs://unrevealed"].
Proof.
  assert (Hnc : NETWORKS !! currentNetwork fresh_app = Some sepolia_config)
    by reflexivity.
  split; [exact Hnc|].
  apply (loadNFT_first_success_then_cached unrevealed_ledger (fun _ => 0)
           RATE_LIMIT_CONFIG (IdNum 12) (IdNum 12) fresh_app sepolia_config
           "ipfs://unrevealed" Hnc); [reflexivity|reflexivity|discriminate|reflexivity].
Defined.

(** ** Eligibility in the loop of the first revision *)

Section EligibilityLoop.

Import Gallery.

Variable tokenURI_rpc : TokenId -> nat -> Error + string.
Variable Date_now : list Event -> Z.

Local Abbreviation getCachedTokenURI :=
  (RateLimited.getCachedTokenURI tokenURI_rpc Date_now).
Local Abbreviation check_seed := (RateLimited.check_seed tokenURI_rpc Date_now).
Local Abbreviation check_seeds := (RateLimited.check_seeds tokenURI_rpc Date_now).

Lemma check_seed_acc (acc : list Combined) (s : Combined) (st : App) :
  check_seed acc s st = (acc ++ (check_seed [] s st).1, (check_seed [] s st).2).
Proof.
  unfold RateLimited.check_seed.
  destruct (notRevealed s && hasSignature s); [|by rewrite app_nil_r].
  destruct (getCachedTokenURI (IdStr (tokenId (seed s))) st) as [[e|uri] st1]; [done|].
  destruct (negb (bool_decide (Some uri = revealedUri s))); [done|].
  by rewrite app_nil_r.
Qed.

Lemma check_seeds_acc (l acc : list Combined) (st : App) :
  check_seeds acc l st = (acc ++ (check_seeds [] l st).1, (check_seeds [] l st).2).
Proof.
  revert acc st. induction l as [|x l IH]; intros acc st; simpl.
  - by rewrite app_nil_r.
  - rewrite (check_seed_acc acc x st).
    destruct (check_seed [] x st) as [a1 st1]. simpl.
    rewrite (IH (acc ++ a1) st1), (IH a1 st1). simpl. by rewrite app_assoc.
Qed.

Lemma check_seeds_app (l1 l2 acc : list Combined) (st : App) :
  check_seeds acc (l1 ++ l2) st
  = check_seeds (check_seeds acc l1 st).1 l2 (check_seeds acc l1 st).2.
Proof.
  revert acc st. induction l1 as [|x l1 IH]; intros acc st; simpl; [done|].
  destruct (check_seed acc x st) as [a1 st1]. apply IH.
Qed.

Lemma check_seeds_split (before after : list Combined) (s : Combined) (st : App) :
  (check_seeds [] (before ++ s :: after) st).1
  = (check_seeds [] before st).1
    ++ (check_seed [] s (check_seeds [] before st).2).1
    ++ (check_seeds [] after (check_seed [] s (check_seeds [] before st).2).2).1.
Proof.
  rewrite check_seeds_app. simpl.
  destruct (check_seeds [] before st) as [a0 st0]. simpl.
  rewrite (check_seed_acc a0 s st0).
  destruct (check_seed [] s st0) as [a1 st1]. simpl.
  rewrite check_seeds_acc. simpl. by rewrite app_assoc.
Qed.

Lemma check_seed_contribution (s : Combined) (st : App) :
  ((check_seed [] s st).1 = [] \/ (check_seed [] s st).1 = [s])
  /\ ((check_seed [] s st).1 = [s]
      <-> eligible s
          /\ ~ exists uri, (getCachedTokenURI (IdStr (tokenId (seed s))) st).1 = inr uri
                           /\ revealedUri s = Some uri).
Proof.
  unfold RateLimited.check_seed.
  destruct (notRevealed s && hasSignature s) eqn:Hg.
  - apply gate_eligible in Hg.
    destruct (getCachedTokenURI (IdStr (tokenId (seed s))) st) as [[e|uri] st1]; simpl.
    + split; [by right|]. split; [|done]. intros _. split; [done|].
      intros (uri & Hu & _). discriminate.
    + destruct (bool_decide (Some uri = revealedUri s)) eqn:Hb; simpl.
      * apply bool_decide_eq_true in Hb. split; [by left|]. split; [done|].
        intros [_ Hno]. exfalso. apply Hno. by exists uri.
      * apply bool_decide_eq_false in Hb. split; [by right|]. split; [|done].
        intros _. split; [done|]. intros (uri' & [= <-] & Hu). congruence.
  - split; [by left|]. split; [done|]. intros [He _].
    apply gate_eligible in He. congruence.
Qed.

End EligibilityLoop.

(** C7: a combined record is put in the reveal-display list exactly when
    its [revealed] flag is false and its matched signature is present,
    not empty and not "0x".  In the revision that trusts the subgraph this
    condition alone decides.  In the revision that also asks the contract
    the loop adds to the list, at the turn of each record and in the order
    of the records, the record itself exactly when it passes this
    condition and the contract (or the cache) does not answer its proposed
    pointer, and nothing otherwise; when every call of the contract fails
    on an empty cache the list is exactly the records that pass the
    condition.  A record with [revealed = false] and signature "0x" is
    left out, one with [revealed = true] and signature "0xdead" is left
    out, one with [revealed = false] and signature "0xdead" is taken, by
    both revisions. *)
Theorem reveal_eligibility (combined : list Combined) (s : Combined) :
  (s ∈ Subgraph.unrevealedWithSignatures combined <-> s ∈ combined /\ Gallery.eligible s)
  /\ (forall rpc now acc st,
        (~ Gallery.eligible s -> RateLimited.check_seed rpc now acc s st = (acc, st))
        /\ (Gallery.eligible s ->
            (RateLimited.check_seed rpc now acc s st).1 = acc ++ [s]
            \/ exists uri,
                 (RateLimited.getCachedTokenURI rpc now
                    (IdStr (tokenId (seed s))) st).1 = inr uri
                 /\ revealedUri s = Some uri
                 /\ (RateLimited.check_seed rpc now acc s st).1 = acc))
  /\ (forall rpc now st,
        s ∈ (RateLimited.check_seeds rpc now [] combined st).1 ->
        s ∈ combined /\ Gallery.eligible s)
  /\ (forall rpc now st before after,
        combined = before ++ s :: after ->
        let r0 := RateLimited.check_seeds rpc now [] before st in
        let r1 := RateLimited.check_seed rpc now [] s r0.2 in
        (RateLimited.check_seeds rpc now [] combined st).1
        = r0.1 ++ r1.1 ++ (RateLimited.check_seeds rpc now [] after r1.2).1
        /\ (r1.1 = [] \/ r1.1 = [s])
        /\ (r1.1 = [s]
            <-> Gallery.eligible s
                /\ ~ exists uri,
                       (RateLimited.getCachedTokenURI rpc now
                          (IdStr (tokenId (seed s))) r0.2).1 = inr uri
                       /\ revealedUri s = Some uri))
  /\ (forall rpc now st,
        (forall t k, exists e, rpc t k = inl e) -> cache st = ∅ ->
        (RateLimited.check_seeds rpc now [] combined st).1
        = List.filter (fun c => Gallery.notRevealed c && Gallery.hasSignature c) combined
        /\ (s ∈ (RateLimited.check_seeds rpc now [] combined st).1
            <-> s ∈ combined /\ Gallery.eligible s))
  /\ (revealed (seed s) = false -> revealedSignature s = Some "0x" ->
      s ∉ Subgraph.unrevealedWithSignatures combined)
  /\ (revealed (seed s) = true -> revealedSignature s = Some "0xdead" ->
      s ∉ Subgraph.unrevealedWithSignatures combined)
  /\ (revealed (seed s) = false -> revealedSignature s = Some "0xdead" ->
      s ∈ combined -> s ∈ Subgraph.unrevealedWithSignatures combined)
  /\ Subgraph.unrevealedWithSignatures eligibility_examples
     = [eligibility_record "3" false "0xdead"]
  /\ (RateLimited.check_seeds unrevealed_ledger (fun _ => 0) [] eligibility_examples
        fresh_app).1
     = [eligibility_record "3" false "0xdead"].
Proof.
  split; [apply elem_of_unrevealedWithSignatures|].
  split; [|split; [|split; [|split; [|split; [|split; [|split; [|split]]]]]]].
  - intros rpc now acc st. split; [apply check_seed_not_eligible|].
    intros He. rewrite (check_seed_eligible rpc now acc s st He). simpl.
    destruct (RateLimited.getCachedTokenURI _ _ _ _) as [[e|uri] st']; simpl;
      [by left|].
    destruct (bool_decide (Some uri = revealedUri s)) eqn:Hb; [|by left].
    apply bool_decide_eq_true in Hb. right. by exists uri.
  - intros rpc now st Hin.
    apply check_seeds_sound in Hin as [Hin|Hin]; [|done].
    by apply elem_of_nil in Hin.
  - intros rpc now st before after -> r0 r1. subst r0 r1.
    split; [apply check_seeds_split|]. apply check_seed_contribution.
  - intros rpc now st Hfail Hcache.
    destruct (check_seeds_all_fail rpc now combined [] st Hfail Hcache) as [Heq _].
    simpl in Heq. split; [exact Heq|].
    rewrite Heq, list_elem_of_In, filter_In, <- list_elem_of_In.
    by rewrite gate_eligible.
  - intros Hr Hs. rewrite elem_of_unrevealedWithSignatures.
    intros [_ (_ & sig & Hsig & _ & Hx)]. congruence.
  - intros Hr Hs. rewrite elem_of_unrevealedWithSignatures.
    intros [_ (Hr' & _)]. congruence.
  - intros Hr Hs Hin. rewrite elem_of_unrevealedWithSignatures.
    split; [done|]. split; [done|]. exists "0xdead". by repeat split.
  - reflexivity.
  - reflexivity.
Qed.

(** ** More on the paginated table *)

Section PaginationExtras.

Import Gallery.

Lemma page_records_take_drop (p : Pagination) (k : Z) :
  0 < itemsPerPage p -> totalItems p = Z.of_nat (length (data p)) -> 1 <= k ->
  page_records p k
  = take (Z.to_nat (itemsPerPage p))
      (drop (Z.to_nat ((k - 1) * itemsPerPage p)) (data p)).
Proof.
  intros Hipp Htot Hk. unfold page_records, currentPageData, endIndex, startIndex.
  simpl. set (i := (k - 1) * itemsPerPage p). assert (0 <= i) by (subst i; nia).
  rewrite Htot.
  destruct (Z.le_gt_cases (i + itemsPerPage p) (Z.of_nat (length (data p)))).
  - rewrite Z.min_l by lia. apply slice_take_drop; lia.
  - rewrite Z.min_r by lia.
    destruct (Z.le_gt_cases (Z.of_nat (length (data p))) i).
    + unfold Js.slice. destruct (Z.ltb_spec i 0); [lia|].
      destruct (Z.ltb_spec (Z.of_nat (length (data p))) 0); [lia|].
      rewrite !drop_ge by lia. by rewrite !take_nil.
    + replace (Z.of_nat (length (data p)))
        with (i + (Z.of_nat (length (data p)) - i)) at 1 by lia.
      rewrite slice_take_drop by lia.
      rewrite !take_ge; [done|rewrite length_drop; lia..].
Qed.

Lemma concat_takes {A} (l : list A) (w m : nat) :
  concat (List.map (fun i => take w (drop (i * w) l)) (seq 0 m)) = take (m * w) l.
Proof.
  induction m as [|m IH]; [done|].
  rewrite seq_S, map_app, concat_app, IH. simpl. rewrite app_nil_r.
  rewrite take_take_drop. f_equal. lia.
Qed.

(** X12: with [itemsPerPage > 0] the pages 1 to [totalPages] cut the stored
    list into consecutive pieces: put one after the other they are the
    list, every page before the last holds [itemsPerPage] records, and no
    page is empty. *)
Theorem pages_partition_data (p : Pagination) :
  0 < itemsPerPage p -> totalItems p = Z.of_nat (length (data p)) ->
  exists n : nat,
    totalPages p = Js.Finite (Z.of_nat n)
    /\ concat (List.map (fun i => page_records p (Z.of_nat i + 1)) (seq 0 n))
       = data p
    /\ (forall k, 1 <= k < Z.of_nat n ->
          Z.of_nat (length (page_records p k)) = itemsPerPage p)
    /\ (forall k, 1 <= k <= Z.of_nat n -> page_records p k <> []).
Proof.
  intros Hipp Htot.
  destruct (ceil_div_spec (totalItems p) (itemsPerPage p) Hipp) as (n & Hn & Hb).
  assert (0 <= n) by nia.
  exists (Z.to_nat n). rewrite Z2Nat.id by done. split; [exact Hn|].
  split; [|split].
  - rewrite (map_ext_in _ (fun i => take (Z.to_nat (itemsPerPage p))
                                   (drop (i * Z.to_nat (itemsPerPage p)) (data p)))).
    + rewrite concat_takes. apply take_ge. nia.
    + intros i _. rewrite page_records_take_drop by lia. do 2 f_equal. nia.
  - intros k Hk. rewrite page_records_take_drop by lia.
    rewrite length_take, length_drop. nia.
  - intros k Hk. rewrite page_records_take_drop by lia.
    intros Hnil. apply (f_equal length) in Hnil.
    rewrite length_take, length_drop in Hnil. simpl in Hnil. nia.
Qed.

Lemma pages_partition_data_witness :
  let p := UNREVEALED_PAGINATION (sample_app 1) in
  0 < itemsPerPage p /\ totalItems p = Z.of_nat (length (data p))
  /\ exists n : nat,
       totalPages p = Js.Finite (Z.of_nat n)
       /\ concat (List.map (fun i => page_records p (Z.of_nat i + 1)) (seq 0 n))
          = sample_records.
Proof.
  assert (H1 : 0 < itemsPerPage (UNREVEALED_PAGINATION (sample_app 1))) by (simpl; lia).
  assert (H2 : totalItems (UNREVEALED_PAGINATION (sample_app 1))
               = Z.of_nat (length (data (UNREVEALED_PAGINATION (sample_app 1)))))
    by reflexivity.
  split; [exact H1|]. split; [exact H2|].
  destruct (pages_partition_data _ H1 H2) as (n & Hn & Hc & _).
  exists n. split; [exact Hn|exact Hc].
Defined.

Lemma ceil_last_page_start (total ipp n : Z) :
  0 < ipp -> 0 <= total -> total <= n * ipp < total + ipp ->
  forall k, 1 <= k <= n -> (k - 1) * ipp < total.
Proof. intros. nia. Qed.

Lemma store_and_display_in_sync (l : list Combined) (st : App) :
  0 < itemsPerPage (UNREVEALED_PAGINATION st) ->
  paged_in_sync l (itemsPerPage (UNREVEALED_PAGINATION st)) (store_and_display l st).
Proof.
  intros Hipp. unfold paged_in_sync, store_and_display, displayUnrevealedTablePaginated.
  simpl. repeat split; try done; lia.
Qed.

Lemma changePage_in_sync (l : list Combined) (ipp : Z) (k : Z) (st : App) :
  0 < ipp -> paged_in_sync l ipp st -> paged_in_sync l ipp (changePage k st).
Proof.
  intros Hipp (Hd & Ht & Hi & H1 & H2 & Htab). unfold changePage.
  destruct (ceil_div_spec (totalItems (UNREVEALED_PAGINATION st))
              (itemsPerPage (UNREVEALED_PAGINATION st))) as (n & Hn & Hb); [lia|].
  rewrite Hn. simpl.
  destruct (Z.leb_spec 1 k); simpl; [|by repeat split].
  destruct (Z.leb_spec k n); simpl; [|by repeat split].
  unfold paged_in_sync, displayUnrevealedTablePaginated. simpl.
  repeat split; try done.
  rewrite Hi, Ht in Hb.
  pose proof (ceil_last_page_start (Z.of_nat (length l)) ipp n Hipp ltac:(lia) Hb k
                ltac:(lia)).
  lia.
Qed.

Lemma changePages_in_sync (l : list Combined) (ipp : Z) (pages : list Z) (st : App) :
  0 < ipp -> paged_in_sync l ipp st -> paged_in_sync l ipp (changePages pages st).
Proof.
  intros Hipp. revert st. unfold changePages.
  induction pages as [|k pages IH]; intros st Hs; simpl; [done|].
  apply IH. by apply changePage_in_sync.
Qed.

Lemma changePage_keeps_rest (k : Z) (st : App) :
  cache (changePage k st) = cache st
  /\ currentNetwork (changePage k st) = currentNetwork st
  /\ NETWORK_STORAGE (changePage k st) = NETWORK_STORAGE st
  /\ trace (changePage k st) = trace st.
Proof.
  unfold changePage.
  destruct (_ && _); by repeat split.
Qed.

(** X13: once a list is stored and shown, any run of [changePage] requests
    leaves the list and its length stored as they are, keeps the current
    page on a page of the list, and leaves the table showing exactly the
    current page; the cache, the selected network and its stored
    preference are never touched. *)
Theorem changePage_keeps_table_in_sync (l : list Combined) (pages : list Z)
    (st : App) :
  0 < itemsPerPage (UNREVEALED_PAGINATION st) ->
  let st' := changePages pages (store_and_display l st) in
  paged_in_sync l (itemsPerPage (UNREVEALED_PAGINATION st)) st'
  /\ cache st' = cache st
  /\ currentNetwork st' = currentNetwork st
  /\ NETWORK_STORAGE st' = NETWORK_STORAGE st.
Proof.
  intros Hipp st'. split.
  - apply changePages_in_sync; [done|]. by apply store_and_display_in_sync.
  - subst st'. unfold changePages.
    assert (Hgen : forall s,
               cache (foldl (fun s k => changePage k s) s pages) = cache s
               /\ currentNetwork (foldl (fun s k => changePage k s) s pages)
                  = currentNetwork s
               /\ NETWORK_STORAGE (foldl (fun s k => changePage k s) s pages)
                  = NETWORK_STORAGE s).
    { induction pages as [|k pages IH]; intros s; simpl; [done|].
      destruct (IH (changePage k s)) as (-> & -> & ->).
      by destruct (changePage_keeps_rest k s) as (-> & -> & -> & _). }
    destruct (Hgen (store_and_display l st)) as (-> & -> & ->). done.
Qed.

Lemma changePage_keeps_table_in_sync_witness :
  0 < itemsPerPage (UNREVEALED_PAGINATION fresh_app)
  /\ paged_in_sync sample_records 5
       (changePages [2; 7; 3; 0] (store_and_display sample_records fresh_app))
  /\ currentPage (UNREVEALED_PAGINATION
                    (changePages [2; 7; 3; 0]
                       (store_and_display sample_records fresh_app))) = 3.
Proof.
  assert (H : 0 < itemsPerPage (UNREVEALED_PAGINATION fresh_app)) by (simpl; lia).
  split; [exact H|]. split; [|reflexivity].
  apply (changePage_keeps_table_in_sync sample_records [2; 7; 3; 0] fresh_app H).
Defined.

(** X14: with [itemsPerPage > 0] the pager is drawn exactly when the list
    has more than [itemsPerPage] records; its left button is disabled
    exactly on page 1 and its right button exactly on the last page. *)
Theorem pager_buttons (p : Pagination) :
  0 < itemsPerPage p -> 0 <= totalItems p ->
  (pager (render p) = None <-> totalItems p <= itemsPerPage p)
  /\ (forall pg, pager (render p) = Some pg ->
        pager_current pg = currentPage p
        /\ (pager_prev_disabled pg = true <-> currentPage p = 1)
        /\ (pager_next_disabled pg = true
            <-> totalItems p <= currentPage p * itemsPerPage p
                /\ (currentPage p - 1) * itemsPerPage p < totalItems p)).
Proof.
  intros Hipp Htot.
  destruct (ceil_div_spec (totalItems p) (itemsPerPage p) Hipp) as (n & Hn & Hb).
  unfold render, totalPages. rewrite Hn. simpl.
  destruct (Z.ltb_spec 1 n) as [Hlt|Hge]; simpl.
  - split; [split; [discriminate|intros; nia]|].
    intros pg [= <-]. simpl. split; [done|].
    rewrite !bool_decide_eq_true. split; [done|].
    split.
    + intros [= ->]. nia.
    + intros [H1 H2]. f_equal. nia.
  - split; [split; [intros; nia|done]|]. discriminate.
Qed.

Lemma pager_buttons_witness :
  let p := UNREVEALED_PAGINATION (sample_app 3) in
  0 < itemsPerPage p /\ 0 <= totalItems p
  /\ exists pg, pager (render p) = Some pg
                /\ pager_next_disabled pg = true
                /\ pager_prev_disabled pg = false.
Proof.
  assert (H1 : 0 < itemsPerPage (UNREVEALED_PAGINATION (sample_app 3))) by (simpl; lia).
  assert (H2 : 0 <= totalItems (UNREVEALED_PAGINATION (sample_app 3))) by (simpl; lia).
  split; [exact H1|]. split; [exact H2|].
  destruct (pager_buttons _ H1 H2) as [_ Hpg].
  destruct (pager (render (UNREVEALED_PAGINATION (sample_app 3)))) as [pg|] eqn:E;
    [|discriminate E].
  exists pg. split; [reflexivity|].
  destruct (Hpg pg eq_refl) as (_ & Hprev & Hnext). split.
  - apply Hnext. simpl. lia.
  - destruct (pager_prev_disabled pg); [|reflexivity].
    destruct Hprev as [Hprev _]. specialize (Hprev eq_refl). discriminate Hprev.
Defined.

Lemma render_row_eligible (s : Combined) :
  eligible s -> row_canReveal (render_row s) = true.
Proof.
  intros He. apply gate_eligible in He.
  unfold notRevealed, hasSignature in He. unfold render_row. simpl.
  apply andb_prop in He as [Hr Hs]. by rewrite Hs, Hr.
Qed.

Lemma slice_subseteq {A} (arr : list A) (a b : Z) (x : A) :
  x ∈ Js.slice arr a b -> x ∈ arr.
Proof.
  unfold Js.slice. intros Hx.
  apply subseteq_take in Hx. by apply subseteq_drop in Hx.
Qed.

(** X15: after the loader that trusts the subgraph has stored a non-empty
    list, every row the table shows, on the first page and after any run
    of page changes, has its reveal button enabled: the stored records are
    exactly the eligible ones, so the "No Signature" state never shows. *)
Theorem stored_rows_can_reveal (mainSeeds : list Seed) (mds : list SeedMetadata)
    (pages : list Z) (st : App) :
  is_Some (NETWORKS !! currentNetwork st) ->
  0 < itemsPerPage (UNREVEALED_PAGINATION st) ->
  Subgraph.unrevealedWithSignatures (combinedData mainSeeds mds) <> [] ->
  exists t,
    unrevealedTable (changePages pages (Subgraph.loadUnrevealedNFTs mainSeeds mds st))
    = Some (TableRows t)
    /\ Forall (fun row => row_canReveal row = true) (rows t).
Proof.
  intros [nc Hnc] Hipp Hne. unfold Subgraph.loadUnrevealedNFTs. rewrite Hnc.
  destruct (Subgraph.unrevealedWithSignatures (combinedData mainSeeds mds))
    as [|e l] eqn:He; [done|].
  change (0 <? length (e :: l))%nat with true. cbv iota.
  set (sorted := Js.sort Subgraph.by_tokenId_desc (e :: l)).
  destruct (changePages_in_sync sorted _ pages (store_and_display sorted st) Hipp
              (store_and_display_in_sync sorted st Hipp))
    as (Hd & _ & _ & _ & _ & Htab).
  eexists. split; [exact Htab|].
  unfold render. simpl. apply Forall_forall. intros row Hrow.
  apply list_elem_of_In, in_map_iff in Hrow as (s & <- & Hs).
  apply render_row_eligible.
  apply list_elem_of_In in Hs. unfold currentPageData in Hs.
  apply slice_subseteq in Hs. rewrite Hd in Hs.
  subst sorted. rewrite sort_perm, <- He in Hs.
  by apply elem_of_unrevealedWithSignatures in Hs as [_ ?].
Qed.

Lemma stored_rows_can_reveal_witness :
  let seeds := [seed_of "1"; seed_of "2"] in
  let mds := [metadata_of "1"; metadata_of "2"] in
  is_Some (NETWORKS !! currentNetwork fresh_app)
  /\ 0 < itemsPerPage (UNREVEALED_PAGINATION fresh_app)
  /\ exists t,
       unrevealedTable (changePages [1] (Subgraph.loadUnrevealedNFTs seeds mds fresh_app))
       = Some (TableRows t)
       /\ Forall (fun row => row_canReveal row = true) (rows t).
Proof.
  assert (H1 : is_Some (NETWORKS !! currentNetwork fresh_app)) by (vm_compute; eauto).
  assert (H2 : 0 < itemsPerPage (UNREVEALED_PAGINATION fresh_app)) by (simpl; lia).
  split; [exact H1|]. split; [exact H2|].
  apply (stored_rows_can_reveal [seed_of "1"; seed_of "2"]
           [metadata_of "1"; metadata_of "2"] [1] fresh_app H1 H2).
  vm_compute. discriminate.
Defined.

Lemma check_seeds_none_eligible (tokenURI_rpc : TokenId -> nat -> Error + string)
    (Date_now : list Event -> Z) (l acc : list Combined) (st : App) :
  Forall (fun s => ~ eligible s) l ->
  RateLimited.check_seeds tokenURI_rpc Date_now acc l st = (acc, st).
Proof.
  induction 1 as [|s l Hs Hl IH]; simpl; [done|].
  by rewrite (check_seed_not_eligible _ _ acc s st Hs).
Qed.

(** X16: when the current network is configured and no combined record is
    eligible, both revisions of [loadUnrevealedNFTs] only hide the section:
    the list stored by an earlier load, the table drawn from it, the cache
    and the trace are as they were, and the contract is not called. *)
Theorem loadUnrevealedNFTs_nothing_eligible
    (tokenURI_rpc : TokenId -> nat -> Error + string) (Date_now : list Event -> Z)
    (mainSeeds : list Seed) (mds : list SeedMetadata) (st : App) :
  is_Some (NETWORKS !! currentNetwork st) ->
  Forall (fun s => ~ eligible s) (combinedData mainSeeds mds) ->
  Subgraph.loadUnrevealedNFTs mainSeeds mds st = st
  /\ RateLimited.loadUnrevealedNFTs tokenURI_rpc Date_now mainSeeds mds st = st.
Proof.
  intros [nc Hnc] Hnone. split.
  - unfold Subgraph.loadUnrevealedNFTs. rewrite Hnc.
    rewrite unrevealedWithSignatures_filter.
    assert (Hf : List.filter (fun s => notRevealed s && hasSignature s)
                   (combinedData mainSeeds mds) = []).
    { induction Hnone as [|s l Hs Hl IH]; simpl; [done|].
      destruct (notRevealed s && hasSignature s) eqn:Hg; [|done].
      by apply gate_eligible in Hg. }
    by rewrite Hf.
  - unfold RateLimited.loadUnrevealedNFTs. rewrite Hnc.
    by rewrite (check_seeds_none_eligible _ _ _ [] st Hnone).
Qed.

Lemma loadUnrevealedNFTs_nothing_eligible_witness :
  let revealed_seed := {| seed_id := "0xab_9"; tokenId := "9"; revealed := true;
                          holder := None |} in
  is_Some (NETWORKS !! currentNetwork (sample_app 2))
  /\ Subgraph.loadUnrevealedNFTs [revealed_seed] [metadata_of "9"] (sample_app 2)
     = sample_app 2
  /\ RateLimited.loadUnrevealedNFTs timeout_ledger (fun _ => 0) [revealed_seed]
       [metadata_of "9"] (sample_app 2) = sample_app 2.
Proof.
  assert (H1 : is_Some (NETWORKS !! currentNetwork (sample_app 2)))
    by (vm_compute; eauto).
  split; [exact H1|].
  apply (loadUnrevealedNFTs_nothing_eligible timeout_ledger (fun _ => 0) _ _
           (sample_app 2) H1).
  repeat constructor. intros [Hr _]. discriminate Hr.
Defined.

End PaginationExtras.

(** ** More on the batch loop of [loadNFTs] *)

Section LoopExtras.

Import RateLimited.

Lemma batches_from_mono (f f' : nat) (bsz start : Z) (bs : list Batch) :
  batches_from f bsz start = Some bs -> (f <= f')%nat ->
  batches_from f' bsz start = Some bs.
Proof.
  revert f' start bs. induction f as [|f IH]; intros f' start bs; [done|].
  intros H Hle. destruct f' as [|f']; [lia|]. simpl in *.
  destruct (1 <=? start); [|done].
  destruct (batches_from f bsz (start - bsz)) as [rest|] eqn:Hr; [|done].
  by rewrite (IH f' _ rest Hr) by lia.
Qed.

Lemma chunks_from_mono {A} (f f' : nat) (mc : Z) (arr : list A) (i : Z)
    (cs : list (list A)) :
  chunks_from f mc arr i = Some cs -> (f <= f')%nat ->
  chunks_from f' mc arr i = Some cs.
Proof.
  revert f' i cs. induction f as [|f IH]; intros f' i cs; [done|].
  intros H Hle. destruct f' as [|f']; [lia|]. simpl in *.
  destruct (i <? Z.of_nat (length arr)); [|done].
  destruct (chunks_from f mc arr (i + mc)) as [rest|] eqn:Hr; [|done].
  by rewrite (IH f' _ rest Hr) by lia.
Qed.

Lemma process_batches_mono (tokenURI_rpc : TokenId -> nat -> Error + string)
    (Date_now : list Event -> Z) (cfg : RateLimitConfig) (f f' : nat)
    (bs : list Batch) (st st' : App) :
  process_batches tokenURI_rpc Date_now cfg f bs st = Some st' -> (f <= f')%nat ->
  process_batches tokenURI_rpc Date_now cfg f' bs st = Some st'.
Proof.
  intros H Hle. revert st H. induction bs as [|b bs IH]; intros st H; simpl in *; [done|].
  unfold process_batch in *.
  destruct (run_tasks _ _ _ (indices b) st) as [promises st1].
  destruct (chunks f (maxConcurrent cfg) promises) as [cs|] eqn:Hc; [|done].
  unfold chunks in *. rewrite (chunks_from_mono f f' _ _ _ cs Hc Hle).
  by apply IH.
Qed.

(** X17: with positive [batchSize] and [maxConcurrent] the batch loop of
    [loadNFTs] comes to its end for every total supply, whatever the
    contract answers and whatever the cache holds: no failure of an item
    stops it, and the state it ends in is the same for every bound on the
    number of iterations that is above the total supply. *)
Theorem loadNFTs_loop_terminates (tokenURI_rpc : TokenId -> nat -> Error + string)
    (Date_now : list Event -> Z) (cfg : RateLimitConfig) (N : Z) (st : App) :
  1 <= batchSize cfg -> 1 <= maxConcurrent cfg ->
  exists st',
    forall fuel, (Z.to_nat N < fuel)%nat ->
      loadNFTs_loop tokenURI_rpc Date_now cfg fuel N st = Some st'.
Proof.
  intros Hb Hm.
  destruct (loadNFTs_loop_completes tokenURI_rpc Date_now cfg (S (Z.to_nat N)) N st
              Hb Hm ltac:(lia)) as [st' Hst].
  exists st'. intros fuel Hf. unfold loadNFTs_loop, batches in *.
  destruct (batches_from (S (Z.to_nat N)) (batchSize cfg) N) as [bs|] eqn:Hbs; [|done].
  rewrite (batches_from_mono _ fuel _ _ bs Hbs) by lia.
  apply (process_batches_mono _ _ _ (S (Z.to_nat N))); [done|lia].
Qed.

Lemma loadNFTs_loop_terminates_witness :
  1 <= batchSize RATE_LIMIT_CONFIG /\ 1 <= maxConcurrent RATE_LIMIT_CONFIG
  /\ exists st',
       forall fuel, (Z.to_nat 12 < fuel)%nat ->
         loadNFTs_loop timeout_ledger (fun _ => 0) RATE_LIMIT_CONFIG fuel 12 fresh_app
         = Some st'.
Proof.
  assert (H1 : 1 <= batchSize RATE_LIMIT_CONFIG) by (simpl; lia).
  assert (H2 : 1 <= maxConcurrent RATE_LIMIT_CONFIG) by (simpl; lia).
  split; [exact H1|]. split; [exact H2|].
  apply (loadNFTs_loop_terminates timeout_ledger (fun _ => 0) RATE_LIMIT_CONFIG 12
           fresh_app H1 H2).
Defined.

Lemma batches_from_diverges (fuel : nat) (bsz start : Z) :
  bsz <= 0 -> 1 <= start -> batches_from fuel bsz start = None.
Proof.
  intros Hb. revert start. induction fuel as [|fuel IH]; intros start Hs; [done|].
  simpl. destruct (Z.leb_spec 1 start); [|lia].
  by rewrite IH by lia.
Qed.

Lemma chunks_from_diverges {A} (fuel : nat) (mc : Z) (arr : list A) (i : Z) :
  mc <= 0 -> i < Z.of_nat (length arr) -> chunks_from fuel mc arr i = None.
Proof.
  intros Hm. revert i. induction fuel as [|fuel IH]; intros i Hi; [done|].
  simpl. destruct (Z.ltb_spec i (Z.of_nat (length arr))); [|lia].
  by rewrite IH by lia.
Qed.

(** X18: a [batchSize] that is zero or negative makes the outer loop of
    [loadNFTs] run for ever on every positive total supply, and a
    [maxConcurrent] that is zero or negative makes the chunk loop run for
    ever on every non-empty batch: no number of iterations is enough. *)
Theorem loadNFTs_loops_need_positive_config (cfg : RateLimitConfig) (fuel : nat) :
  (batchSize cfg <= 0 ->
   forall N, 1 <= N ->
     batches fuel cfg N = None
     /\ loadNFTs_program fuel cfg N = None
     /\ forall rpc now st, loadNFTs_loop rpc now cfg fuel N st = None)
  /\ (maxConcurrent cfg <= 0 ->
      forall b, indices b <> [] ->
        batch_program fuel cfg b = None
        /\ forall rpc now st, process_batch rpc now cfg fuel b st = None).
Proof.
  split.
  - intros Hb N HN.
    assert (Hn : batches fuel cfg N = None) by (by apply batches_from_diverges).
    split; [done|]. split.
    + unfold loadNFTs_program. by rewrite Hn.
    + intros rpc now st. unfold loadNFTs_loop. by rewrite Hn.
  - intros Hm b Hne. split.
    + unfold batch_program, chunks. rewrite chunks_from_diverges; [done|done|].
      destruct (indices b); [done|simpl; lia].
    + intros rpc now st. unfold process_batch.
      pose proof (run_tasks_length rpc now cfg (indices b) st) as Hl.
      destruct (run_tasks rpc now cfg (indices b) st) as [promises st1].
      simpl in Hl. unfold chunks. rewrite chunks_from_diverges; [done|done|].
      rewrite Hl. destruct (indices b); [done|simpl; lia].
Qed.

Lemma loadNFTs_loops_need_positive_config_witness :
  batches 1000 stalled_config 12 = None
  /\ batch_program 1000 stalled_config {| batchEnd := 8; indices := [12; 11; 10; 9; 8] |}
     = None.
Proof.
  destruct (loadNFTs_loops_need_positive_config stalled_config 1000) as [Hb Hm].
  split.
  - apply (Hb ltac:(simpl; lia) 12 ltac:(lia)).
  - apply (Hm ltac:(simpl; lia) {| batchEnd := 8; indices := [12; 11; 10; 9; 8] |}
             ltac:(discriminate)).
Defined.

Lemma chunks_from_lookup {A} (fuel : nat) (mc : Z) (arr : list A) (i : Z) :
  1 <= mc -> 0 <= i ->
  (length arr - Z.to_nat i < fuel)%nat ->
  exists cs,
    chunks_from fuel mc arr i = Some cs
    /\ forall (k : nat) c, cs !! k = Some c ->
         c = take (Z.to_nat mc) (drop (Z.to_nat (i + Z.of_nat k * mc)) arr)
         /\ i + Z.of_nat k * mc < Z.of_nat (length arr).
Proof.
  intros Hmc. revert i. induction fuel as [|fuel IH]; intros i Hi Hf; [lia|].
  simpl. destruct (Z.ltb_spec i (Z.of_nat (length arr))) as [Hlt|Hge].
  - destruct (IH (i + mc)) as (cs & -> & Hk); [lia|lia|].
    eexists. split; [done|]. intros [|k] c Hl; simpl in Hl.
    + injection Hl as <-. rewrite slice_take_drop by lia.
      split; [do 2 f_equal; lia|lia].
    + apply Hk in Hl as [-> Hlt']. split; [do 2 f_equal; lia|lia].
  - exists []. split; [done|]. by intros k c.
Qed.

(** X19: with a positive [maxConcurrent] the chunk loop ends and cuts the
    promises of a batch into consecutive groups: put together they are
    the batch in order, no group is empty or larger than [maxConcurrent],
    and only the last group can be smaller. *)
Theorem chunks_partition {A} (fuel : nat) (mc : Z) (arr : list A) :
  1 <= mc -> (length arr < fuel)%nat ->
  exists cs,
    chunks fuel mc arr = Some cs
    /\ concat cs = arr
    /\ (forall (k : nat) c, cs !! k = Some c ->
          1 <= Z.of_nat (length c) <= mc
          /\ (Z.of_nat (length c) < mc -> cs !! S k = None)).
Proof.
  intros Hmc Hf. unfold chunks.
  destruct (chunks_from_spec fuel mc arr 0 Hmc) as (cs & Hcs & Hc & _); [lia|simpl; lia|].
  destruct (chunks_from_lookup fuel mc arr 0 Hmc) as (cs' & Hcs' & Hk); [lia|simpl; lia|].
  rewrite Hcs in Hcs'. injection Hcs' as <-.
  exists cs. split; [done|]. split; [by rewrite Hc|].
  intros k c Hl. destruct (Hk k c Hl) as [-> Hlt].
  rewrite length_take, length_drop. split; [lia|].
  intros Hshort. destruct (cs !! S k) as [c'|] eqn:Hn; [|done].
  apply Hk in Hn as [_ Hlt']. lia.
Qed.

Lemma chunks_partition_witness :
  1 <= maxConcurrent RATE_LIMIT_CONFIG /\ (length [12; 11; 10; 9; 8] < 6)%nat
  /\ exists cs, chunks 6 (maxConcurrent RATE_LIMIT_CONFIG) [12; 11; 10; 9; 8] = Some cs
                /\ concat cs = [12; 11; 10; 9; 8].
Proof.
  assert (H1 : 1 <= maxConcurrent RATE_LIMIT_CONFIG) by (simpl; lia).
  assert (H2 : (length [12; 11; 10; 9; 8] < 6)%nat) by (simpl; lia).
  split; [exact H1|]. split; [exact H2|].
  destruct (chunks_partition 6 (maxConcurrent RATE_LIMIT_CONFIG) [12; 11; 10; 9; 8]
              H1 H2) as (cs & Hcs & Hc & _).
  exists cs. split; [exact Hcs|exact Hc].
Defined.

Lemma batches_from_lookup_is_Some (fuel : nat) (bsz start : Z) (bs : list Batch) (k : nat) :
  1 <= bsz -> batches_from fuel bsz start = Some bs ->
  1 <= start - Z.of_nat k * bsz -> is_Some (bs !! k).
Proof.
  intros Hb. revert start bs k. induction fuel as [|fuel IH]; intros start bs k; [done|].
  simpl. destruct (Z.leb_spec 1 start) as [Hs|Hs].
  - destruct (batches_from fuel bsz (start - bsz)) as [rest|] eqn:Hr; [|done].
    intros [= <-] Hk. destruct k as [|k]; [by eexists|]. simpl.
    apply (IH (start - bsz) rest k Hr). lia.
  - intros _ Hk. nia.
Qed.

(** X20: the pause of [delayBetweenBatches] separates the batches: for a
    positive [batchSize] the test [batchEnd > 1] that guards it holds
    after a batch exactly when another batch follows, so the loop never
    ends on a pause and never starts a batch without one before it. *)
Theorem pause_between_batches_only (cfg : RateLimitConfig) (fuel : nat) (N : Z)
    (bs : list Batch) :
  1 <= batchSize cfg -> batches fuel cfg N = Some bs ->
  forall (k : nat) b, bs !! k = Some b ->
    ((1 <? batchEnd b) = true <-> is_Some (bs !! S k)).
Proof.
  intros Hb Hbs k b Hl. unfold batches in Hbs.
  assert (Hspec : forall (j : nat) b', bs !! j = Some b' ->
            batchEnd b' = Z.max 1 (N - Z.of_nat j * batchSize cfg - batchSize cfg + 1)
            /\ 1 <= N - Z.of_nat j * batchSize cfg).
  { clear k b Hl. revert N bs Hbs.
    induction fuel as [|fuel IH]; intros N bs Hbs; [done|].
    simpl in Hbs. destruct (Z.leb_spec 1 N) as [HN|HN].
    - destruct (batches_from fuel (batchSize cfg) (N - batchSize cfg)) as [rest|] eqn:Hr;
        [|done].
      injection Hbs as <-. intros [|j] b' Hj; simpl in Hj.
      + injection Hj as <-. simpl. split; [f_equal; lia|lia].
      + destruct (IH _ _ Hr j b' Hj) as [-> Hp]. split; [f_equal; lia|lia].
    - injection Hbs as <-. by intros j b'. }
  destruct (Hspec k b Hl) as [He Hp]. rewrite He. split.
  - intros Hlt. apply Z.ltb_lt in Hlt.
    apply (batches_from_lookup_is_Some fuel (batchSize cfg) N bs (S k) Hb Hbs). lia.
  - intros [b' Hn]. apply Hspec in Hn as [_ Hp']. apply Z.ltb_lt. lia.
Qed.

Lemma pause_between_batches_only_witness :
  1 <= batchSize RATE_LIMIT_CONFIG
  /\ batches 13 RATE_LIMIT_CONFIG 12
     = Some [ {| batchEnd := 8; indices := [12; 11; 10; 9; 8] |};
              {| batchEnd := 3; indices := [7; 6; 5; 4; 3] |};
              {| batchEnd := 1; indices := [2; 1] |} ]
  /\ ((1 <? 3) = true
       <-> is_Some ([ {| batchEnd := 8; indices := [12; 11; 10; 9; 8] |};
                      {| batchEnd := 3; indices := [7; 6; 5; 4; 3] |};
                      {| batchEnd := 1; indices := [2; 1] |} ] !! 2%nat)).
Proof.
  assert (H1 : 1 <= batchSize RATE_LIMIT_CONFIG) by (simpl; lia).
  split; [exact H1|]. split; [reflexivity|].
  exact (pause_between_batches_only RATE_LIMIT_CONFIG 13 12 _ H1 eq_refl 1%nat
           {| batchEnd := 3; indices := [7; 6; 5; 4; 3] |} eq_refl).
Defined.

End LoopExtras.

(** ** What the loader leaves untouched, and what is in flight *)

Section FrameExtras.

Import RateLimited.

Variable tokenURI_rpc : TokenId -> nat -> Error + string.
Variable Date_now : list Event -> Z.
Variable cfg : RateLimitConfig.

Lemma loader_frame_refl (st : App) : loader_frame st st.
Proof.
  repeat split; try done. exists []. by rewrite app_nil_r.
Qed.

Lemma loader_frame_trans (a b c : App) :
  loader_frame a b -> loader_frame b c -> loader_frame a c.
Proof.
  intros (H1 & H2 & H3 & H4 & [e1 H5] & H6 & H7) (G1 & G2 & G3 & G4 & [e2 G5] & G6 & G7).
  repeat split; try congruence.
  - exists (e1 ++ e2). by rewrite G5, H5, app_assoc.
  - intros k Hk. by apply G6, H6.
  - intros k e Hk Ht. by apply G7; [apply H7|].
Qed.

Lemma loader_frame_emit (e : Event) (st : App) : loader_frame st (emit e st).
Proof. repeat split; try done. by exists [e]. Qed.

Lemma getCachedTokenURI_frame (t : TokenId) (st : App) :
  loader_frame st (getCachedTokenURI tokenURI_rpc Date_now t st).2.
Proof.
  unfold getCachedTokenURI.
  destruct (NETWORKS !! currentNetwork st) as [nc|]; [|apply loader_frame_refl].
  destruct (Js.truthy_opt _) eqn:Htr; [apply loader_frame_refl|].
  destruct (tokenURI_rpc t _) as [err|uri]; simpl.
  - eapply loader_frame_trans; apply loader_frame_emit.
  - repeat split; try done.
    + by exists [EvRpc t].
    + intros k Hk. unfold TOKEN_URI_CACHE.set, with_cache, emit.
      cbn [cache currentNetwork trace].
      destruct (decide (k = TOKEN_URI_CACHE.getCacheKey (plantoidAddress nc) t
                             (currentNetwork st))) as [->|Hne].
      * rewrite lookup_insert_eq. by eexists.
      * by rewrite lookup_insert_ne.
    + intros k e Hk Ht. unfold TOKEN_URI_CACHE.set, with_cache, emit.
      cbn [cache currentNetwork trace].
      destruct (decide (k = TOKEN_URI_CACHE.getCacheKey (plantoidAddress nc) t
                             (currentNetwork st))) as [->|Hne].
      * exfalso. unfold TOKEN_URI_CACHE.get in Htr. rewrite Hk in Htr.
        simpl in Htr. congruence.
      * by rewrite lookup_insert_ne.
Qed.

Lemma body_frame (t : TokenId) (st : App) :
  loader_frame st
    ((perform tokenURI <~ getCachedTokenURI tokenURI_rpc Date_now t ;;
      displayNFT t tokenURI)%js st).2.
Proof.
  unfold bind. pose proof (getCachedTokenURI_frame t st) as Hg.
  destruct (getCachedTokenURI _ _ t st) as [[err|uri] st1]; simpl in *; [done|].
  eapply loader_frame_trans; [exact Hg|apply loader_frame_emit].
Qed.

Lemma loadNFT_frame (t : TokenId) (st : App) :
  loader_frame st (loadNFT tokenURI_rpc Date_now cfg t st).2.
Proof.
  unfold loadNFT, try_catch. unfold bind at 1. unfold tell at 1.
  pose proof (body_frame t (emit EvJitter st)) as Hb.
  pose proof (loader_frame_emit EvJitter st) as Hj.
  destruct ((perform tokenURI <~ getCachedTokenURI _ _ t ;; displayNFT t tokenURI)%js
              (emit EvJitter st)) as [[err|[]] st1]; simpl in Hb.
  - assert (H1 : loader_frame st st1) by (eapply loader_frame_trans; eauto).
    destruct (is_throttling err).
    + unfold bind at 1. unfold tell at 1.
      pose proof (body_frame t (emit (EvSleep (retryDelay cfg)) st1)) as Hr.
      destruct ((perform tokenURI <~ getCachedTokenURI _ _ t ;; displayNFT t tokenURI)%js
                  (emit (EvSleep (retryDelay cfg)) st1)) as [[err2|[]] st2]; simpl in *.
      * eapply loader_frame_trans; [exact H1|].
        eapply loader_frame_trans; [apply loader_frame_emit|].
        eapply loader_frame_trans; [exact Hr|apply loader_frame_emit].
      * eapply loader_frame_trans; [exact H1|].
        eapply loader_frame_trans; [apply loader_frame_emit|exact Hr].
    + simpl. eapply loader_frame_trans; [exact H1|apply loader_frame_emit].
  - simpl. eapply loader_frame_trans; eauto.
Qed.

Lemma run_tasks_frame (ids : list Z) (st : App) :
  loader_frame st (run_tasks tokenURI_rpc Date_now cfg ids st).2.
Proof.
  revert st. induction ids as [|i ids IH]; intros st; simpl; [apply loader_frame_refl|].
  unfold settle. pose proof (loadNFT_frame (IdNum i) st) as Hl.
  destruct (loadNFT _ _ _ (IdNum i) st) as [[err|[]] st1]; simpl in Hl;
    specialize (IH st1);
    destruct (run_tasks _ _ _ ids st1) as [rs st2]; simpl in *;
    eapply loader_frame_trans; eauto.
Qed.

Lemma process_batches_frame (fuel : nat) (bs : list Batch) (st st' : App) :
  process_batches tokenURI_rpc Date_now cfg fuel bs st = Some st' ->
  loader_frame st st'.
Proof.
  revert st. induction bs as [|b bs IH]; intros st; simpl.
  - intros [= <-]. apply loader_frame_refl.
  - unfold process_batch. pose proof (run_tasks_frame (indices b) st) as Hr.
    destruct (run_tasks _ _ _ (indices b) st) as [promises st1]. simpl in Hr.
    destruct (chunks fuel (maxConcurrent cfg) promises) as [cs|]; [|done].
    intros Hp. apply IH in Hp.
    eapply loader_frame_trans; [exact Hr|].
    destruct (1 <? batchEnd b); [|done].
    eapply loader_frame_trans; [apply loader_frame_emit|exact Hp].
Qed.

(** X21: the batch loop of [loadNFTs] only adds: when it ends, the
    current network, the stored reveal list and the reveal table are what
    they were, everything traced before is still the beginning of the
    trace, no cache key has gone, and every cache entry that held a
    non-empty pointer is unchanged, timestamp included. *)
Theorem loadNFTs_loop_only_adds (fuel : nat) (N : Z) (st st' : App) :
  loadNFTs_loop tokenURI_rpc Date_now cfg fuel N st = Some st' ->
  currentNetwork st' = currentNetwork st
  /\ UNREVEALED_PAGINATION st' = UNREVEALED_PAGINATION st
  /\ unrevealedTable st' = unrevealedTable st
  /\ (exists evs, trace st' = trace st ++ evs)
  /\ (forall k, is_Some (cache st !! k) -> is_Some (cache st' !! k))
  /\ (forall k e, cache st !! k = Some e ->
        TOKEN_URI_CACHE.tokenURI e <> EmptyString -> cache st' !! k = Some e).
Proof.
  unfold loadNFTs_loop. destruct (batches fuel cfg N) as [bs|]; [|done].
  intros Hp. apply process_batches_frame in Hp as (H1 & H2 & H3 & H4 & H5 & H6 & H7).
  repeat split; try done.
  intros k e Hk Hne. apply H7; [done|].
  destruct (TOKEN_URI_CACHE.tokenURI e); [done|reflexivity].
Qed.

End FrameExtras.

Lemma loadNFTs_loop_only_adds_witness :
  exists st',
    RateLimited.loadNFTs_loop throttled_once_ledger (fun _ => 7) RATE_LIMIT_CONFIG 13 12
      cached_app = Some st'
    /\ currentNetwork st' = "sepolia"
    /\ cache st' !! "sepolia_0x66078a2061a68d5ba6cddbc81517837da0c7d7b5_12"
       = Some {| TOKEN_URI_CACHE.tokenURI := "ipfs://unrevealed";
                 TOKEN_URI_CACHE.timestamp := 0;
                 TOKEN_URI_CACHE.network := "sepolia";
                 TOKEN_URI_CACHE.contractAddress :=
                   "0x66078a2061a68d5ba6cddbc81517837da0c7d7b5" |}.
Proof.
  destruct (RateLimited.loadNFTs_loop throttled_once_ledger (fun _ => 7)
              RATE_LIMIT_CONFIG 13 12 cached_app) as [st'|] eqn:Hrun;
    [|vm_compute in Hrun; discriminate].
  exists st'. split; [reflexivity|].
  destruct (loadNFTs_loop_only_adds throttled_once_ledger (fun _ => 7) RATE_LIMIT_CONFIG
              13 12 cached_app st' Hrun) as (Hn & _ & _ & _ & _ & Hkeep).
  split; [exact Hn|].
  apply Hkeep; [reflexivity|discriminate].
Defined.

Section InFlightExtras.

Import RateLimited.

Lemma run_to_await_spawns (l : list Z) (rest : list Instr) (s : Sched) :
  match rest with Spawn _ :: _ => False | _ => True end ->
  run_to_await s (List.map Spawn l ++ rest)
  = {| inflight := inflight s ++ l; settled := settled s; main := rest |}.
Proof.
  intros Hrest. revert s. induction l as [|i l IH]; intros s; simpl.
  - rewrite app_nil_r. destruct rest as [|[j|c|ms] rest']; done.
  - rewrite IH. simpl. by rewrite <- app_assoc.
Qed.

Lemma nsteps_spawns (l : list Z) (rest : list Instr) (fl se : list Z) (s' : Sched) :
  nsteps sched_step (length l)
    {| inflight := fl; settled := se; main := List.map Spawn l ++ rest |} s' ->
  s' = {| inflight := fl ++ l; settled := se; main := rest |}.
Proof.
  revert fl. induction l as [|i l IH]; intros fl Hn; simpl in Hn.
  - inversion Hn; subst. by rewrite app_nil_r.
  - inversion Hn as [|n x y z Hstep Hrest]; subst.
    eapply spawn_step_det in Hstep; [|reflexivity]. subst y. simpl in Hrest.
    apply IH in Hrest. by rewrite Hrest, <- app_assoc.
Qed.

Lemma batches_program_is_Some (fuel : nat) (cfg : RateLimitConfig) (bs : list Batch) :
  1 <= maxConcurrent cfg ->
  Forall (fun b => (length (indices b) < fuel)%nat) bs ->
  is_Some (batches_program fuel cfg bs).
Proof.
  intros Hm Hall. induction Hall as [|b bs Hb _ IH]; simpl; [by eexists|].
  unfold batch_program.
  destruct (chunks_spec fuel (maxConcurrent cfg) (indices b) Hm Hb) as (cs & -> & _ & _).
  destruct IH as [ps ->]. by eexists.
Qed.

(** X22: for positive [batchSize] and [maxConcurrent] and a total supply
    N >= 1, [loadNFTs] reaches its first [await] after calling [loadNFT]
    for the whole first batch: every run starts with these
    min(batchSize, N) calls, the tasks N, N-1, ... of the first batch are
    then all in flight and none has settled, and the group awaited first
    is made of the first [maxConcurrent] of them. *)
Theorem loadNFTs_first_await (cfg : RateLimitConfig) (N : Z) (fuel : nat) :
  1 <= batchSize cfg -> 1 <= maxConcurrent cfg -> 1 <= N -> (Z.to_nat N < fuel)%nat ->
  exists program s c rest,
    loadNFTs_program fuel cfg N = Some program
    /\ s = run_to_await (sched_init program) program
    /\ rtc sched_step (sched_init program) s
    /\ (forall s', nsteps sched_step (Z.to_nat (Z.min (batchSize cfg) N))
                     (sched_init program) s' -> s' = s)
    /\ inflight s = down_from N (Z.to_nat (Z.min (batchSize cfg) N))
    /\ settled s = []
    /\ main s = AwaitAllSettled c :: rest
    /\ c = take (Z.to_nat (maxConcurrent cfg)) (inflight s).
Proof.
  intros Hb Hm HN Hf. unfold loadNFTs_program, batches.
  destruct (batches_from_spec fuel (batchSize cfg) N Hb Hf) as (bs & Hbs & Hk & _).
  rewrite Hbs.
  assert (Hlen : Forall (fun b => (length (indices b) < fuel)%nat) bs).
  { apply Forall_lookup. intros k b Hl. apply Hk in Hl as (-> & _ & Hp).
    rewrite down_from_length. lia. }
  destruct (batches_from_lookup_is_Some fuel (batchSize cfg) N bs 0 Hb Hbs) as [b0 Hb0];
    [lia|].
  destruct bs as [|b bs']; [done|]. simpl in Hb0. injection Hb0 as ->.
  destruct (Hk 0%nat b0 eq_refl) as (Hi & _ & _).
  replace (N - Z.of_nat 0 * batchSize cfg) with N in Hi by lia.
  apply Forall_cons in Hlen as [Hl0 Hlen].
  destruct (batches_program_is_Some fuel cfg bs' Hm Hlen) as [ps Hps].
  simpl. rewrite Hps. unfold batch_program, chunks.
  destruct (chunks_from_spec fuel (maxConcurrent cfg) (indices b0) 0 Hm)
    as (cs & Hcs & Hc & _); [lia|simpl; lia|].
  destruct (chunks_from_lookup fuel (maxConcurrent cfg) (indices b0) 0 Hm)
    as (cs' & Hcs' & Hck); [lia|simpl; lia|].
  rewrite Hcs in Hcs'. injection Hcs' as <-. rewrite Hcs.
  destruct cs as [|c cs].
  { change (Z.to_nat 0) with 0%nat in Hc. rewrite drop_0, Hi in Hc.
    apply (f_equal length) in Hc. rewrite down_from_length in Hc. simpl in Hc. lia. }
  destruct (Hck 0%nat c eq_refl) as [Hc0 _]. simpl in Hc0.
  set (tail := List.map AwaitAllSettled cs
               ++ (if 1 <? batchEnd b0 then [Pause (delayBetweenBatches cfg)] else [])).
  set (rest := (tail ++ ps)%list).
  assert (Hprog : ((List.map Spawn (indices b0)
                   ++ List.map AwaitAllSettled (c :: cs)
                   ++ (if 1 <? batchEnd b0 then [Pause (delayBetweenBatches cfg)] else []))
                   ++ ps)%list
                  = (List.map Spawn (indices b0) ++ AwaitAllSettled c :: rest)%list).
  { symmetry. exact (app_assoc _ (AwaitAllSettled c :: tail) ps). }
  rewrite Hprog.
  eexists _, _, c, rest. split; [reflexivity|]. split; [reflexivity|].
  split; [by apply run_to_await_reachable|].
  rewrite run_to_await_spawns by done. simpl.
  split.
  - intros s' Hn. rewrite <- (down_from_length N (Z.to_nat (Z.min (batchSize cfg) N))) in Hn.
    rewrite <- Hi in Hn. unfold sched_init in Hn. by apply nsteps_spawns in Hn.
  - split; [done|]. split; [done|]. split; [done|]. by rewrite Hc0, drop_0.
Qed.

Lemma loadNFTs_first_await_witness :
  exists program s c rest,
    RateLimited.loadNFTs_program 13 RATE_LIMIT_CONFIG 12 = Some program
    /\ s = RateLimited.run_to_await (RateLimited.sched_init program) program
    /\ inflight s = RateLimited.down_from 12 5
    /\ main s = AwaitAllSettled c :: rest
    /\ c = take 3 (inflight s).
Proof.
  destruct (loadNFTs_first_await RATE_LIMIT_CONFIG 12 13 ltac:(simpl; lia)
              ltac:(simpl; lia) ltac:(lia) ltac:(simpl; lia))
    as (program & s & c & rest & H1 & H2 & _ & _ & H3 & _ & H4 & H5).
  exists program, s, c, rest. repeat split; assumption.
Defined.

End InFlightExtras.

(** ** More on the cross-reference of the two subgraphs *)

Section MatcherExtras.

Import Gallery.

Lemma string_length_append (p r : string) :
  String.length (p +:+ r) = (String.length p + String.length r)%nat.
Proof. induction p as [|c p IH]; simpl; [done|]. by rewrite IH. Qed.

Lemma substring_all (s : string) : substring 0 (String.length s) s = s.
Proof. induction s as [|c s IH]; simpl; [done|]. by rewrite IH. Qed.

Lemma substring_app_r (p r : string) :
  substring (String.length p) (String.length r) (p +:+ r) = r.
Proof. induction p as [|c p IH]; simpl; [apply substring_all|exact IH]. Qed.

Lemma substring_split (s : string) (k : nat) :
  (k <= String.length s)%nat ->
  s = substring 0 k s +:+ substring k (String.length s - k) s.
Proof.
  revert k. induction s as [|c s IH]; intros k Hk.
  - simpl in Hk. assert (k = 0%nat) as -> by lia. done.
  - destruct k as [|k].
    + rewrite Nat.sub_0_r, substring_all. done.
    + simpl in Hk. cbn [String.length Nat.sub substring].
      change (String c (substring 0 k s) +:+ substring k (String.length s - k) s)
        with (String c (substring 0 k s +:+ substring k (String.length s - k) s)).
      f_equal. apply IH. lia.
Qed.

Lemma endsWith_spec (s suffix : string) :
  Js.endsWith s suffix = true <-> exists p, s = p +:+ suffix.
Proof.
  unfold Js.endsWith. split.
  - intros H. apply andb_prop in H as [Hle Heq].
    apply Nat.leb_le in Hle. apply String.eqb_eq in Heq.
    exists (substring 0 (String.length s - String.length suffix) s).
    pose proof (substring_split s (String.length s - String.length suffix)
                  ltac:(lia)) as Hs.
    replace (String.length s - (String.length s - String.length suffix))%nat
      with (String.length suffix) in Hs by lia.
    by rewrite Heq in Hs.
  - intros [p ->]. rewrite string_length_append.
    apply andb_true_intro. split; [apply Nat.leb_le; lia|].
    apply String.eqb_eq.
    replace (String.length p + String.length suffix - String.length suffix)%nat
      with (String.length p) by lia.
    apply substring_app_r.
Qed.

Lemma no_underscore_app_underscore (x y : string) :
  TOKEN_URI_CACHE.no_underscore (x +:+ "_" +:+ y) = false.
Proof.
  induction x as [|c x IH]; simpl; [done|]. rewrite IH. apply andb_false_r.
Qed.

Lemma last_underscore_inj (p a u m : string) :
  TOKEN_URI_CACHE.no_underscore u = true -> TOKEN_URI_CACHE.no_underscore m = true ->
  p +:+ "_" +:+ u = a +:+ "_" +:+ m -> u = m.
Proof.
  intros Hu Hm. revert a. induction p as [|c p IH]; intros [|c' a] H.
  - change (String "_" u = String "_" m) in H. congruence.
  - change (String "_" u = String c' (a +:+ "_" +:+ m)) in H.
    assert (u = a +:+ "_" +:+ m) as -> by congruence.
    by rewrite no_underscore_app_underscore in Hu.
  - change (String c (p +:+ "_" +:+ u) = String "_" m) in H.
    assert (m = p +:+ "_" +:+ u) as -> by congruence.
    by rewrite no_underscore_app_underscore in Hm.
  - change (String c (p +:+ "_" +:+ u) = String c' (a +:+ "_" +:+ m)) in H.
    apply (IH a). congruence.
Qed.

Lemma is_digit_not_underscore (c : ascii) :
  is_digit c = true -> Ascii.eqb c "_" = false.
Proof.
  intros H. destruct (Ascii.eqb_spec c "_") as [->|]; [|done].
  vm_compute in H. discriminate.
Qed.

Lemma all_digits_no_underscore (s : string) :
  all_digits s = true -> TOKEN_URI_CACHE.no_underscore s = true.
Proof.
  induction s as [|c s IH]; simpl; [done|]. intros H.
  apply andb_prop in H as [Hc Hs]. by rewrite (is_digit_not_underscore c Hc), IH.
Qed.

Lemma hex_char_not_underscore (d : Z) :
  0 <= d < 16 -> Ascii.eqb (Js.hex_char d) "_" = false.
Proof.
  intros Hd.
  assert (d = 0 \/ d = 1 \/ d = 2 \/ d = 3 \/ d = 4 \/ d = 5 \/ d = 6 \/ d = 7
          \/ d = 8 \/ d = 9 \/ d = 10 \/ d = 11 \/ d = 12 \/ d = 13 \/ d = 14
          \/ d = 15) as H by lia.
  repeat (destruct H as [->|H]; [reflexivity|]). by subst d.
Qed.

Lemma hex_go_no_underscore (fuel : nat) (n : Z) (acc : string) :
  TOKEN_URI_CACHE.no_underscore acc = true ->
  TOKEN_URI_CACHE.no_underscore (Js.hex_go fuel n acc) = true.
Proof.
  revert n acc. induction fuel as [|fuel IH]; intros n acc Hacc; simpl; [done|].
  destruct (n <=? 0); [done|]. apply IH. simpl.
  rewrite hex_char_not_underscore by (apply Z.mod_pos_bound; lia). done.
Qed.

Lemma no_underscore_app (x y : string) :
  TOKEN_URI_CACHE.no_underscore (x +:+ y)
  = TOKEN_URI_CACHE.no_underscore x && TOKEN_URI_CACHE.no_underscore y.
Proof.
  induction x as [|c x IH]; [done|].
  change (String c x +:+ y) with (String c (x +:+ y)). simpl.
  by rewrite IH, andb_assoc.
Qed.

Lemma hexTokenId_no_underscore (t : string) :
  TOKEN_URI_CACHE.no_underscore (hexTokenId t) = true.
Proof.
  unfold hexTokenId, Js.toString16.
  assert (Hh : forall n, TOKEN_URI_CACHE.no_underscore (Js.hex_of_nonneg n) = true).
  { intros n. unfold Js.hex_of_nonneg. destruct (n =? 0); [done|].
    by apply hex_go_no_underscore. }
  destruct (Js.parseInt t) as [n|]; [|done].
  destruct (n <? 0); rewrite !no_underscore_app, Hh; done.
Qed.

(** X23: on secondary ids of the two decimal schemes, the bare decimal
    token id or any prefix followed by "_" and the decimal token id, the
    callback of the matcher is an exact join: it accepts a record for a
    decimal token id exactly when the two decimal strings are equal, so
    that the hexadecimal tests never pair a record with another token. *)
Theorem matcher_exact_on_decimal_ids (t m a : string) (md : SeedMetadata) :
  all_digits t = true -> all_digits m = true ->
  md_id md = m \/ md_id md = a +:+ "_" +:+ m ->
  (md_matches t md = true <-> t = m).
Proof.
  intros Ht Hm Hid.
  pose proof (all_digits_no_underscore t Ht) as Htu.
  pose proof (all_digits_no_underscore m Hm) as Hmu.
  pose proof (hexTokenId_no_underscore t) as Hhu.
  assert (Hx : forall h, all_digits ("0x" +:+ h) = false) by done.
  split.
  - intros Hmatch. apply md_matches_true in Hmatch as [k Hk].
    apply first_strategy_Some in Hk as [Hk _].
    destruct Hid as [Hid|Hid]; destruct k; cbn [strategy_holds] in Hk;
      rewrite Hid in Hk.
    + by apply String.eqb_eq in Hk.
    + apply endsWith_spec in Hk as [p Hp].
      by rewrite Hp, no_underscore_app_underscore in Hmu.
    + apply endsWith_spec in Hk as [p Hp].
      by rewrite Hp, no_underscore_app_underscore in Hmu.
    + apply String.eqb_eq in Hk. unfold hexTokenId in Hk.
      by rewrite Hk, Hx in Hm.
    + apply String.eqb_eq in Hk.
      by rewrite <- Hk, no_underscore_app_underscore in Htu.
    + apply endsWith_spec in Hk as [p Hp].
      symmetry. by eapply last_underscore_inj.
    + apply endsWith_spec in Hk as [p Hp].
      apply last_underscore_inj in Hp; [|done..]. unfold hexTokenId in Hp.
      by rewrite Hp, Hx in Hm.
    + apply String.eqb_eq in Hk. rewrite <- Hk in Hhu.
      by rewrite no_underscore_app_underscore in Hhu.
  - intros ->. unfold md_matches. destruct Hid as [->| ->].
    + by rewrite String.eqb_refl.
    + destruct (String.eqb _ m); [done|].
      assert (Js.endsWith (a +:+ "_" +:+ m) ("_" +:+ m) = true) as ->; [|done].
      apply endsWith_spec. by exists a.
Qed.

Lemma matcher_exact_on_decimal_ids_witness :
  md_matches "7" (metadata_of "7") = true <-> "7" = "7".
Proof.
  apply (matcher_exact_on_decimal_ids "7" "7"
           "0x66078a2061a68d5ba6cddbc81517837da0c7d7b5" (metadata_of "7")
           eq_refl eq_refl).
  right. reflexivity.
Defined.

(** X24: the cross-reference is a left join on the main subgraph: every
    primary record comes out once, in its place and unchanged; a signature
    on a combined record is never empty and is the one of the first
    secondary record that the matcher accepts, whose pointer is taken with
    it; and a primary record that no secondary record matches gets no
    signature and no pointer and is not eligible for a reveal. *)
Theorem combinedData_left_join (mainSeeds : list Seed) (mds : list SeedMetadata) :
  List.map seed (combinedData mainSeeds mds) = mainSeeds
  /\ Forall (fun c =>
       (forall sig, revealedSignature c = Some sig ->
          sig <> EmptyString
          /\ exists md, List.find (md_matches (tokenId (seed c))) mds = Some md
                        /\ md_revealedSignature md = Some sig
                        /\ revealedUri c = Js.or_null (md_revealedUri md))
       /\ (Forall (fun md => md_matches (tokenId (seed c)) md = false) mds ->
           revealedUri c = None /\ revealedSignature c = None /\ ~ eligible c))
     (combinedData mainSeeds mds).
Proof.
  unfold combinedData. split.
  - rewrite List.map_map. simpl. apply List.map_id.
  - apply Forall_forall. intros c Hc. apply list_elem_of_In, in_map_iff in Hc as (s & <- & _).
    unfold combine. cbn [seed revealedSignature revealedUri]. split.
    + intros sig Hsig.
      destruct (List.find (md_matches (tokenId s)) mds) as [md|] eqn:Hf; [|done].
      simpl in Hsig. unfold Js.or_null in Hsig.
      destruct (Js.truthy_opt (md_revealedSignature md)) eqn:Ht; [|done].
      rewrite Hsig in Ht. split; [by intros ->|]. by exists md.
    + intros Hnone. apply find_None_Forall in Hnone. rewrite Hnone. simpl.
      split; [done|]. split; [done|]. intros [_ (sig & Hs & _)]. done.
Qed.

End MatcherExtras.

(** ** Decimal token ids *)

Section DecimalExtras.

Import Gallery.

Lemma pretty_N_char_digit (d : N) : is_digit (pretty_N_char d) = true.
Proof. unfold pretty_N_char. repeat case_match; reflexivity. Qed.

Lemma pretty_N_go_all_digits (x : N) (s : string) :
  all_digits s = true -> all_digits (pretty_N_go x s) = true.
Proof.
  revert s. induction (N.lt_wf_0 x) as [x _ IH]; intros s Hs.
  destruct (decide (x = 0)%N) as [->|Hx]; [by rewrite pretty_N_go_0|].
  rewrite pretty_N_go_step by lia. apply IH; [apply N.div_lt; lia|].
  simpl. by rewrite pretty_N_char_digit.
Qed.

Lemma digit_value_pretty (d : N) :
  (d < 10)%N -> Js.digit_value (pretty_N_char d) = Some (Z.of_N d).
Proof.
  intros Hd.
  assert (d = 0 \/ d = 1 \/ d = 2 \/ d = 3 \/ d = 4 \/ d = 5 \/ d = 6 \/ d = 7
          \/ d = 8 \/ d = 9)%N as H by lia.
  repeat (destruct H as [->|H]; [reflexivity|]). by subst d.
Qed.

Lemma parse_digits_step (c : ascii) (s : string) (acc : option Z) (d : Z) :
  Js.digit_value c = Some d -> d < 10 ->
  Js.parse_digits 10 (String c s) acc
  = Js.parse_digits 10 s (Some (default 0 acc * 10 + d)).
Proof.
  intros Hc Hd. cbn [Js.parse_digits]. rewrite Hc.
  by destruct (Z.ltb_spec d 10); [|lia].
Qed.

Lemma parse_digits_pretty_N_go (x : N) (s : string) (acc : option Z) :
  (0 < x)%N -> default 0 acc = 0 ->
  Js.parse_digits 10 (pretty_N_go x s) acc = Js.parse_digits 10 s (Some (Z.of_N x)).
Proof.
  revert s acc. induction (N.lt_wf_0 x) as [x _ IH]; intros s acc Hx Hacc.
  rewrite pretty_N_go_step by done.
  pose proof (N.mod_lt x 10 ltac:(lia)) as Hmod.
  pose proof (N.div_mod x 10 ltac:(lia)) as Hdm.
  destruct (decide (x `div` 10 = 0)%N) as [Hz|Hnz].
  - rewrite Hz, pretty_N_go_0.
    rewrite (parse_digits_step _ s acc (Z.of_N (x `mod` 10)))
      by (by apply digit_value_pretty || lia).
    rewrite Hacc. do 2 f_equal. lia.
  - rewrite (IH (x `div` 10)%N); [|apply N.div_lt; lia|lia|exact Hacc].
    rewrite (parse_digits_step _ s _ (Z.of_N (x `mod` 10)))
      by (by apply digit_value_pretty || lia).
    simpl. do 2 f_equal. lia.
Qed.

Lemma digits_unsigned (s : string) :
  all_digits s = true ->
  Js.trimStart s = s /\ Js.strip_sign s = (1, s) /\ Js.strip_prefix s = (10, s).
Proof.
  destruct s as [|c s]; [done|]. intros H. apply andb_prop in H as [Hc Hs].
  assert (Hhead : Js.is_white c = false /\ c <> "-"%char /\ c <> "+"%char).
  { repeat split; [|intros ->; vm_compute in Hc; discriminate..].
    unfold is_digit in Hc. unfold Js.is_white.
    apply andb_prop in Hc as [H1 H2]. apply Nat.leb_le in H1. apply Nat.leb_le in H2.
    repeat (apply orb_false_intro); apply Nat.eqb_neq; lia. }
  destruct Hhead as (Hw & Hminus & Hplus).
  split; [simpl; by rewrite Hw|]. split.
  - unfold Js.strip_sign.
    destruct c as [[] [] [] [] [] [] [] []]; try reflexivity; congruence.
  - destruct s as [|c2 s].
    + unfold Js.strip_prefix.
      destruct c as [[] [] [] [] [] [] [] []]; reflexivity.
    + apply andb_prop in Hs as [Hc2 _].
      assert (Hx : c2 <> "x"%char /\ c2 <> "X"%char)
        by (split; intros ->; vm_compute in Hc2; discriminate).
      destruct Hx as [Hx HX]. unfold Js.strip_prefix.
      destruct c as [[] [] [] [] [] [] [] []]; try reflexivity;
        destruct c2 as [[] [] [] [] [] [] [] []]; try reflexivity; congruence.
Qed.

Lemma parseInt_toString10 (n : Z) : Js.parseInt (Js.toString10 n) = Some n.
Proof.
  unfold Js.toString10, pretty, pretty_Z. destruct n as [|p|p]; [reflexivity|..].
  - unfold pretty, pretty_positive, pretty, pretty_N.
    destruct (decide (N.pos p = 0%N)); [done|].
    pose proof (pretty_N_go_all_digits (N.pos p) EmptyString eq_refl) as Hd.
    destruct (digits_unsigned _ Hd) as (Ht & Hs & Hp).
    unfold Js.parseInt. rewrite Ht, Hs, Hp.
    rewrite (parse_digits_pretty_N_go (N.pos p) EmptyString None) by (lia || done).
    simpl. done.
  - unfold pretty, pretty_positive, pretty, pretty_N.
    destruct (decide (N.pos p = 0%N)); [done|].
    pose proof (pretty_N_go_all_digits (N.pos p) EmptyString eq_refl) as Hd.
    destruct (digits_unsigned _ Hd) as (_ & _ & Hp).
    unfold Js.parseInt.
    change (Js.trimStart ("-" +:+ pretty_N_go (N.pos p) EmptyString))
      with ("-" +:+ pretty_N_go (N.pos p) EmptyString).
    change (Js.strip_sign ("-" +:+ pretty_N_go (N.pos p) EmptyString))
      with (-1, pretty_N_go (N.pos p) EmptyString).
    cbv beta iota. rewrite Hp.
    rewrite (parse_digits_pretty_N_go (N.pos p) EmptyString None) by (lia || done).
    simpl. done.
Qed.

(** X25: token ids that the subgraph gives as the decimal strings of
    integers between 0 and [Number.MAX_SAFE_INTEGER] are read back by
    [parseInt] as these integers: the comparator of the sort returns their
    difference, it orders two records by the numbers, and the hexadecimal
    form tried by the matcher is the one of the number. *)
Theorem decimal_ids_read_back (a b : Combined) (na nb : Z) :
  0 <= na <= MAX_SAFE_INTEGER -> 0 <= nb <= MAX_SAFE_INTEGER ->
  tokenId (seed a) = Js.toString10 na -> tokenId (seed b) = Js.toString10 nb ->
  Subgraph.by_tokenId_desc a b = Some (nb - na)
  /\ (Js.after Subgraph.by_tokenId_desc a b = true <-> na < nb)
  /\ (tokenId_ge a b <-> nb <= na)
  /\ numeric a
  /\ hexTokenId (tokenId (seed a)) = "0x" +:+ Js.toString16 (Some na).
Proof.
  intros _ _ Ha Hb.
  assert (Hc : Subgraph.by_tokenId_desc a b = Some (nb - na)).
  { unfold Subgraph.by_tokenId_desc. by rewrite Ha, Hb, !parseInt_toString10. }
  split; [done|]. split; [|split; [|split]].
  - unfold Js.after. rewrite Hc. rewrite Z.ltb_lt. lia.
  - unfold tokenId_ge. rewrite Ha, Hb, !parseInt_toString10. split.
    + intros (pa & pb & [= <-] & [= <-] & Hle). done.
    + intros Hle. by exists na, nb.
  - unfold numeric. rewrite Ha, parseInt_toString10. by eexists.
  - unfold hexTokenId. by rewrite Ha, parseInt_toString10.
Qed.

Lemma decimal_ids_read_back_witness :
  Subgraph.by_tokenId_desc (sample_record 7) (sample_record 12) = Some (12 - 7)
  /\ (Js.after Subgraph.by_tokenId_desc (sample_record 7) (sample_record 12) = true
      <-> 7 < 12).
Proof.
  destruct (decimal_ids_read_back (sample_record 7) (sample_record 12) 7 12
              ltac:(unfold MAX_SAFE_INTEGER; lia) ltac:(unfold MAX_SAFE_INTEGER; lia)
              eq_refl eq_refl) as (H1 & H2 & _).
  split; [exact H1|exact H2].
Defined.

End DecimalExtras.

(** ** The gallery of revealed seeds *)

Section GalleryExtras.

Import RevealedGallery.

Lemma after_desc_by {A} (key : A -> option Z) (x y : A) :
  is_Some (key x) -> is_Some (key y) ->
  if Js.after (desc_by key) x y then key_ge key y x else key_ge key x y.
Proof.
  intros [px Hx] [py Hy]. unfold Js.after, desc_by, key_ge. rewrite Hx, Hy.
  destruct (Z.ltb_spec 0 (py - px)).
  - exists py, px. repeat split; (done || lia).
  - exists px, py. repeat split; (done || lia).
Qed.

Lemma key_ge_trans {A} (key : A -> option Z) (a b c : A) :
  key_ge key a b -> key_ge key b c -> key_ge key a c.
Proof.
  intros (pa & pb & Ha & Hb & H1) (pb' & pc & Hb' & Hc & H2).
  exists pa, pc. repeat split; [done..|]. rewrite Hb in Hb'. injection Hb' as <-. lia.
Qed.

Lemma sort_insert_desc_by {A} (key : A -> option Z) (x : A) (l : list A) :
  is_Some (key x) -> Forall (fun y => is_Some (key y)) l ->
  StronglySorted (key_ge key) l ->
  StronglySorted (key_ge key) (Js.sort_insert (desc_by key) x l).
Proof.
  intros Hx Hl Hs. induction Hs as [|y l Hs IH Hy]; simpl; [by repeat constructor|].
  apply Forall_cons in Hl as [Hny Hl].
  pose proof (after_desc_by key x y Hx Hny) as Hxy.
  destruct (Js.after (desc_by key) x y).
  - constructor; [by apply IH|].
    rewrite sort_insert_perm. by constructor.
  - constructor; [by constructor|].
    constructor; [done|].
    eapply Forall_impl; [exact Hy|]. intros z Hz. by eapply key_ge_trans.
Qed.

Lemma sort_desc_by {A} (key : A -> option Z) (l : list A) :
  Forall (fun y => is_Some (key y)) l ->
  StronglySorted (key_ge key) (Js.sort (desc_by key) l).
Proof.
  induction 1 as [|x l Hx Hl IH]; simpl; [constructor|].
  apply sort_insert_desc_by; [done| |done]. by rewrite sort_perm.
Qed.

Lemma push_if_video_acc (C : gmap string IpfsMetadata) (acc : list Nft)
    (s : RevealedSeed) :
  push_if_video C acc s
  = match push_if_video C [] s with
    | Some pushed => Some (acc ++ pushed)
    | None => None
    end.
Proof.
  unfold push_if_video.
  destruct (C !! rs_id s) as [m|]; [|by rewrite app_nil_r].
  destruct (field_truthy (animation_url m)); [|by rewrite app_nil_r].
  destruct (gateway_field (animation_url m)); [|done].
  by destruct (if field_truthy (image m) then gateway_field (image m)
               else Some EmptyString).
Qed.

Lemma push_if_video_throws (C : gmap string IpfsMetadata) (s : RevealedSeed) :
  push_if_video C [] s = None
  <-> exists m, C !! rs_id s = Some m /\ ill_typed m = true.
Proof.
  unfold push_if_video, ill_typed.
  destruct (C !! rs_id s) as [m|]; [|split; [done|by intros (m & ? & _)]].
  split.
  - intros H. exists m. split; [done|].
    destruct (animation_url m) as [u| |]; simpl in *; try done.
    destruct (Js.truthy u); [|done].
    by destruct (image m) as [i| |]; simpl in *; try destruct (Js.truthy i).
  - intros (m' & [= <-] & H).
    destruct (animation_url m) as [u| |]; simpl in *; try done.
    destruct (image m) as [i| |]; simpl in *; try done. by rewrite H.
Qed.

Lemma push_if_video_pushed (C : gmap string IpfsMetadata) (s : RevealedSeed)
    (pushed : list Nft) :
  push_if_video C [] s = Some pushed ->
  pushed = match video_of C s with Some n => [n] | None => [] end.
Proof.
  unfold video_of. intros H. rewrite H. revert H. unfold push_if_video.
  destruct (C !! rs_id s) as [m|]; [|by intros [= <-]].
  destruct (field_truthy (animation_url m)); [|by intros [= <-]].
  destruct (gateway_field (animation_url m)); [|done].
  destruct (if field_truthy (image m) then gateway_field (image m)
            else Some EmptyString); [|done].
  by intros [= <-].
Qed.

Lemma forEach_push_Some (C : gmap string IpfsMetadata) (seeds : list RevealedSeed)
    (acc : list Nft) :
  (forall s, s ∈ seeds -> push_if_video C [] s <> None) ->
  forEach_push C acc seeds = Some (acc ++ omap (video_of C) seeds).
Proof.
  revert acc. induction seeds as [|s seeds IH]; intros acc Hok; simpl.
  - by rewrite app_nil_r.
  - rewrite push_if_video_acc.
    destruct (push_if_video C [] s) as [pushed|] eqn:Hp.
    + rewrite IH by (intros s' Hs'; apply Hok; by right).
      apply push_if_video_pushed in Hp. subst pushed.
      change (omap (video_of C) (s :: seeds))
        with (match video_of C s with
              | Some n => n :: omap (video_of C) seeds
              | None => omap (video_of C) seeds
              end).
      destruct (video_of C s); by rewrite <- app_assoc.
    + exfalso. apply (Hok s); [by left|done].
Qed.

Lemma forEach_push_None (C : gmap string IpfsMetadata) (seeds : list RevealedSeed)
    (acc : list Nft) :
  forEach_push C acc seeds = None
  <-> exists s, s ∈ seeds /\ push_if_video C [] s = None.
Proof.
  revert acc. induction seeds as [|s seeds IH]; intros acc; simpl.
  - split; [done|]. intros (s & Hs & _). by apply elem_of_nil in Hs.
  - rewrite push_if_video_acc.
    destruct (push_if_video C [] s) as [pushed|] eqn:Hp.
    + rewrite IH. split.
      * intros (s' & Hs' & Hn). exists s'. split; [by right|done].
      * intros (s' & Hs' & Hn). apply elem_of_cons in Hs' as [->|Hs'].
        -- congruence.
        -- by exists s'.
    + split; [|done]. intros _. exists s. split; [by left|done].
Qed.

Lemma video_of_Some (C : gmap string IpfsMetadata) (s : RevealedSeed) (n : Nft) :
  video_of C s = Some n ->
  nft_tokenId n = rs_tokenId s
  /\ exists m u, C !! rs_id s = Some m /\ animation_url m = FieldString u
                 /\ u <> EmptyString /\ nft_animationUrl n = gateway u.
Proof.
  unfold video_of, push_if_video.
  destruct (C !! rs_id s) as [m|]; [|done].
  destruct (animation_url m) as [u| |] eqn:Hu; simpl; try done.
  destruct (Js.truthy u) eqn:Ht; simpl; [|done].
  destruct (if field_truthy (image m) then gateway_field (image m)
            else Some EmptyString); [|done].
  intros [= <-]. simpl. split; [done|]. exists m, u. repeat split; try done.
  intros ->. done.
Qed.

Lemma fetch_step_requested (fetch : nat -> string -> FetchResult)
    (acc : gmap string IpfsMetadata * list string) (s : RevealedSeed) :
  (fetch_step fetch acc s).2
  = acc.2 ++ (if has_uri s then [metadataUrl (default EmptyString (rs_uri s))] else []).
Proof.
  unfold fetch_step, has_uri. destruct (Js.truthy_opt (rs_uri s)); simpl.
  - by destruct (fetch _ _).
  - by rewrite app_nil_r.
Qed.

Lemma fetch_fold_requested (fetch : nat -> string -> FetchResult)
    (acc : gmap string IpfsMetadata * list string) (seeds : list RevealedSeed) :
  (foldl (fetch_step fetch) acc seeds).2
  = acc.2 ++ List.map (fun s => metadataUrl (default EmptyString (rs_uri s)))
               (List.filter has_uri seeds).
Proof.
  revert acc. induction seeds as [|s seeds IH]; intros acc; simpl.
  - by rewrite app_nil_r.
  - rewrite IH, fetch_step_requested. destruct (has_uri s); simpl.
    + by rewrite <- app_assoc.
    + by rewrite app_nil_r.
Qed.

Lemma fetch_fold_content (fetch : nat -> string -> FetchResult)
    (acc : gmap string IpfsMetadata * list string) (seeds : list RevealedSeed)
    (i : string) (m : IpfsMetadata) :
  (foldl (fetch_step fetch) acc seeds).1 !! i = Some m ->
  acc.1 !! i = Some m
  \/ exists s k, s ∈ seeds /\ rs_id s = i /\ has_uri s = true
                 /\ fetch k (metadataUrl (default EmptyString (rs_uri s))) = FetchJson m.
Proof.
  revert acc. induction seeds as [|s seeds IH]; intros acc Hl; simpl in Hl; [by left|].
  apply IH in Hl as [Hl|(s' & k & Hin & Hid & Hu & Hf)].
  - unfold fetch_step in Hl. unfold has_uri.
    destruct (Js.truthy_opt (rs_uri s)) eqn:Hu; simpl in Hl; [|by left].
    destruct (fetch (length acc.2) _) as [m'| |] eqn:Hf; simpl in Hl; [|by left..].
    destruct (decide (rs_id s = i)) as [Hi|Hi].
    + rewrite Hi, lookup_insert_eq in Hl. injection Hl as ->.
      right. exists s, (length acc.2). repeat split; try done. by left.
    + rewrite lookup_insert_ne in Hl by done. by left.
  - right. exists s', k. repeat split; try done. by right.
Qed.

Lemma replace_absent (s pattern replacement : string) :
  Js.includes s pattern = false -> JsStr.replace s pattern replacement = s.
Proof.
  induction s as [|c s IH]; simpl; intros H.
  - apply orb_false_elim in H as [-> _]. done.
  - apply orb_false_elim in H as [Hp Hs]. rewrite Hp. f_equal. by apply IH.
Qed.

Lemma omap_length_le {A B} (f : A -> option B) (l : list A) :
  (length (omap f l) <= length l)%nat.
Proof.
  induction l as [|x l IH]; [done|].
  change (omap f (x :: l)) with (match f x with
                                 | Some y => y :: omap f l
                                 | None => omap f l
                                 end).
  destruct (f x); simpl; lia.
Qed.

Lemma prefix_app (p h : string) : String.prefix p (p +:+ h) = true.
Proof.
  induction p as [|c p IH]; [by destruct h|].
  change (String c p +:+ h) with (String c (p +:+ h)). simpl.
  by destruct (ascii_dec c c).
Qed.

Lemma skip_app (p h : string) : JsStr.skip (String.length p) (p +:+ h) = h.
Proof. induction p as [|c p IH]; [done|exact IH]. Qed.

Lemma replace_prefix (p h replacement : string) :
  JsStr.replace (p +:+ h) p replacement = replacement +:+ h.
Proof.
  assert (Hunfold : forall s, JsStr.replace s p replacement
            = if String.prefix p s
              then replacement +:+ JsStr.skip (String.length p) s
              else match s with
                   | EmptyString => EmptyString
                   | String c s' => String c (JsStr.replace s' p replacement)
                   end) by (by intros []).
  by rewrite Hunfold, prefix_app, skip_app.
Qed.

(** X26: the loop of [fetchIPFSMetadata] asks the gateway once for every
    revealed seed that has a pointer, in the order of the subgraph and
    whatever the earlier requests came to, and never for a seed without
    one; the address asked is the gateway prefix followed by the pointer
    without its first "ipfs://", so a pointer of another scheme is asked
    for through the IPFS gateway as it stands; and every document in the
    table is what a request for a seed of that id was answered with. *)
Theorem fetchIPFSMetadata_requests (fetch : nat -> string -> FetchResult)
    (seeds : list RevealedSeed) :
  (fetchIPFSMetadata fetch seeds).2
  = List.map (fun s => metadataUrl (default EmptyString (rs_uri s)))
      (List.filter has_uri seeds)
  /\ (forall h, metadataUrl ("ipfs://" +:+ h) = "https://ipfs.io/ipfs/" +:+ h)
  /\ (forall u, Js.includes u "ipfs://" = false ->
        metadataUrl u = "https://ipfs.io/ipfs/" +:+ u)
  /\ (forall i m, (fetchIPFSMetadata fetch seeds).1 !! i = Some m ->
        exists s k, s ∈ seeds /\ rs_id s = i /\ has_uri s = true
                    /\ fetch k (metadataUrl (default EmptyString (rs_uri s)))
                       = FetchJson m).
Proof.
  unfold fetchIPFSMetadata. split; [|split; [|split]].
  - by rewrite fetch_fold_requested.
  - intros h. unfold metadataUrl. by rewrite replace_prefix.
  - intros u Hu. unfold metadataUrl. by rewrite replace_absent.
  - intros i m Hl. apply fetch_fold_content in Hl as [Hl|Hl]; [done|exact Hl].
Qed.

(** X27: on a configured network the second revision of [loadNFTs] shows
    the error notice exactly when the document fetched for some revealed
    seed names a video and holds, for [animation_url] or for [image], a
    truthy value that is no string; then it shows no card and hides the
    loading notice.  In every case each card stands for a revealed seed
    whose metadata document was fetched and names a non-empty string as
    its [animation_url], shows that seed's token id, plays the video
    through the gateway and links to the seed on OpenSea, and there are at
    most as many cards as seeds.  When no document is of that kind the
    notice "No revealed NFTs with videos found" shows exactly when there
    is no card.  When every token id reads as an integer between 0 and
    [Number.MAX_SAFE_INTEGER] the cards are in descending numeric order.
    When the subgraph gives no seed, nothing is fetched and the notice
    shows without an error. *)
Theorem loadNFTs_gallery (reply : GraphReply) (fetch : nat -> string -> FetchResult)
    (net : string) (networkConfig : NetworkConfig) :
  NETWORKS !! net = Some networkConfig ->
  let seeds := queryRevealedSeeds reply net in
  let view := (loadNFTs reply fetch net).1 in
  let documents := (fetchIPFSMetadata fetch seeds).1 in
  let broken :=
    exists s m, s ∈ seeds /\ documents !! rs_id s = Some m /\ ill_typed m = true in
  (errorShown view <> None <-> broken)
  /\ (broken -> view = failed_view)
  /\ Forall (fun c =>
       exists s m u,
         s ∈ seeds
         /\ documents !! rs_id s = Some m
         /\ animation_url m = FieldString u /\ u <> EmptyString
         /\ card_seed c = rs_tokenId s
         /\ card_video c = gateway u
         /\ card_href c = getOpenSeaUrl (plantoidAddress networkConfig) (rs_tokenId s)
                            (isTestnet networkConfig))
     (gallery view)
  /\ (length (gallery view) <= length seeds)%nat
  /\ (~ broken -> (loadingShown view = true <-> gallery view = []))
  /\ (loadingShown view = true -> loadingText view = "No revealed NFTs with videos found")
  /\ (Forall (fun s => safe_numeric (rs_tokenId s)) seeds ->
      StronglySorted (key_ge (fun c => Js.parseInt (card_seed c))) (gallery view))
  /\ (reply = ReplyThrows \/ reply = ReplyErrors \/ reply = ReplyData None ->
      gallery view = [] /\ (loadNFTs reply fetch net).2 = []
      /\ loadingShown view = true /\ errorShown view = None)
  /\ (loadNFTs reply fetch net).2
     = (if (length seeds =? 0)%nat then [] else (fetchIPFSMetadata fetch seeds).2).
Proof.
  intros Hnet seeds view documents broken.
  assert (Hfail : reply = ReplyThrows \/ reply = ReplyErrors \/ reply = ReplyData None ->
            gallery view = [] /\ (loadNFTs reply fetch net).2 = []
            /\ loadingShown view = true /\ errorShown view = None).
  { intros Hr. subst view. unfold loadNFTs. rewrite Hnet.
    assert (queryRevealedSeeds reply net = []) as ->; [|done].
    unfold queryRevealedSeeds. destruct (mainSubgraphs !! net); [|done].
    by destruct Hr as [->|[->| ->]]. }
  revert Hfail. generalize (reply = ReplyThrows \/ reply = ReplyErrors
                            \/ reply = ReplyData None).
  intros P Hfail.
  subst view documents broken. unfold loadNFTs in *. rewrite Hnet in *.
  fold seeds in Hfail |- *.
  destruct (Nat.eqb_spec (length seeds) 0) as [Hz|Hnz].
  { apply nil_length_inv in Hz. rewrite Hz. simpl.
    split; [split; [done|by intros (s & m & Hs & _); apply elem_of_nil in Hs]|].
    split; [by intros (s & m & Hs & _); apply elem_of_nil in Hs|].
    repeat split; try done; try constructor; try tauto. }
  destruct (fetchIPFSMetadata fetch seeds) as [C requested] eqn:HC.
  cbn [fst snd] in *.
  assert (Hbroken : forEach_push C [] seeds = None
                    <-> exists s m, s ∈ seeds /\ C !! rs_id s = Some m
                                    /\ ill_typed m = true).
  { rewrite forEach_push_None. split.
    - intros (s & Hs & Hn). apply push_if_video_throws in Hn as (m & Hm & Hi).
      by exists s, m.
    - intros (s & m & Hs & Hm & Hi). exists s. split; [done|].
      apply push_if_video_throws. by exists m. }
  destruct (forEach_push C [] seeds) as [nftsWithVideos|] eqn:Hpush.
  2:{ cbn [fst snd gallery loadingShown loadingText errorShown].
      split; [split; [intros _; by apply Hbroken|done]|].
      split; [done|]. split; [constructor|]. split; [simpl; lia|].
      split; [intros Hn; exfalso; apply Hn; by apply Hbroken|].
      split; [done|]. split; [constructor|]. split; [exact Hfail|done]. }
  assert (Hok : forall s, s ∈ seeds -> push_if_video C [] s <> None).
  { intros s Hs Hn.
    assert (forEach_push C [] seeds = None) as Hcontra
      by (apply forEach_push_None; by exists s).
    congruence. }
  rewrite (forEach_push_Some C seeds [] Hok) in Hpush. injection Hpush as <-.
  cbn [app fst snd] in *.
  set (nfts := omap (video_of C) seeds) in *.
  assert (Hcards : forall c, c ∈ List.map (card networkConfig) (Js.sort by_tokenId_desc nfts) ->
            exists n s, n ∈ nfts /\ s ∈ seeds /\ video_of C s = Some n
                        /\ c = card networkConfig n).
  { intros c Hc. apply list_elem_of_In, in_map_iff in Hc as (n & <- & Hn).
    apply list_elem_of_In in Hn. rewrite sort_perm in Hn.
    pose proof Hn as Hn'. apply list_elem_of_omap in Hn' as (s & Hs & Hv).
    by exists n, s. }
  assert (Hlen : length (List.map (card networkConfig) (Js.sort by_tokenId_desc nfts))
                 = length nfts).
  { by rewrite length_map, sort_perm. }
  assert (Hview : forall text1 text2,
            gallery (if (length nfts =? 0)%nat
                     then {| gallery := List.map (card networkConfig)
                                          (Js.sort by_tokenId_desc nfts);
                             loadingText := text1; loadingShown := true;
                             errorShown := None |}
                     else {| gallery := List.map (card networkConfig)
                                          (Js.sort by_tokenId_desc nfts);
                             loadingText := text2; loadingShown := false;
                             errorShown := None |})
            = List.map (card networkConfig) (Js.sort by_tokenId_desc nfts))
    by (intros; by destruct (length nfts =? 0)%nat).
  assert (Hnone : ~ exists s m, s ∈ seeds /\ C !! rs_id s = Some m
                                /\ ill_typed m = true).
  { intros Hb. by apply Hbroken in Hb. }
  rewrite Hview in *.
  split; [split; [by destruct (length nfts =? 0)%nat|by intros Hb]|].
  split; [by intros Hb|].
  split; [|split; [|split; [|split; [|split; [|split]]]]].
  - apply Forall_forall. intros c Hc.
    destruct (Hcards c Hc) as (n & s & Hn & Hs & Hv & ->).
    apply video_of_Some in Hv as (Ht & m & u & Hm & Hu & Hne & Hg).
    exists s, m, u. simpl. rewrite Ht, Hg. repeat split; done.
  - rewrite Hlen. subst nfts. apply omap_length_le.
  - intros _. destruct (Nat.eqb_spec (length nfts) 0) as [Hz|Hz']; simpl.
    + split; [|done]. intros _. apply nil_length_inv. by rewrite Hlen.
    + split; [done|]. intros Hnil. rewrite <- Hlen, Hnil in Hz'. done.
  - by destruct (length nfts =? 0)%nat.
  - intros Hnum.
    apply (StronglySorted_fmap (card networkConfig)
             (key_ge (fun n => Js.parseInt (nft_tokenId n)))).
    + intros x y Hxy. exact Hxy.
    + apply (sort_desc_by (fun n => Js.parseInt (nft_tokenId n))).
      apply Forall_forall. intros n Hn. subst nfts.
      apply list_elem_of_omap in Hn as (s & Hs & Hv).
      apply video_of_Some in Hv as [-> _].
      eapply Forall_forall in Hnum; [|exact Hs].
      destruct Hnum as (z & -> & _). by eexists.
  - exact Hfail.
  - done.
Qed.

Lemma loadNFTs_gallery_witness :
  NETWORKS !! "sepolia" = Some sepolia_config
  /\ errorShown (loadNFTs (ReplyData (Some sample_revealed)) listed_fetch "sepolia").1
     <> None
  /\ (loadNFTs (ReplyData (Some sample_revealed)) listed_fetch "sepolia").1 = failed_view
  /\ (length (gallery (loadNFTs (ReplyData (Some sample_revealed)) sample_fetch
                         "sepolia").1)
      <= length (queryRevealedSeeds (ReplyData (Some sample_revealed)) "sepolia"))%nat
  /\ StronglySorted (key_ge (fun c => Js.parseInt (card_seed c)))
       (gallery (loadNFTs (ReplyData (Some sample_revealed)) sample_fetch "sepolia").1).
Proof.
  assert (H : NETWORKS !! "sepolia" = Some sepolia_config) by reflexivity.
  split; [exact H|].
  destruct (loadNFTs_gallery (ReplyData (Some sample_revealed)) listed_fetch "sepolia"
              sepolia_config H) as (H1 & H2 & _).
  destruct (loadNFTs_gallery (ReplyData (Some sample_revealed)) sample_fetch "sepolia"
              sepolia_config H) as (_ & _ & _ & H4 & _ & _ & H7 & _).
  assert (Hb : exists s m,
             s ∈ queryRevealedSeeds (ReplyData (Some sample_revealed)) "sepolia"
             /\ (fetchIPFSMetadata listed_fetch
                   (queryRevealedSeeds (ReplyData (Some sample_revealed)) "sepolia")).1
                 !! rs_id s = Some m
             /\ ill_typed m = true).
  { exists (revealed_seed "11" (Some "ipfs://Qm11")),
      {| animation_url := FieldTruthy; image := FieldFalsy |}.
    split; [|split; [vm_compute; reflexivity|reflexivity]].
    change (queryRevealedSeeds (ReplyData (Some sample_revealed)) "sepolia")
      with sample_revealed.
    unfold sample_revealed. do 2 right. left. }
  split; [by apply H1|]. split; [by apply H2|]. split; [exact H4|].
  apply H7. change (queryRevealedSeeds (ReplyData (Some sample_revealed)) "sepolia")
    with sample_revealed.
  repeat constructor.
  - exists 3. split; [reflexivity|unfold MAX_SAFE_INTEGER; lia].
  - exists 4. split; [reflexivity|unfold MAX_SAFE_INTEGER; lia].
  - exists 11. split; [reflexivity|unfold MAX_SAFE_INTEGER; lia].
Defined.

Example loadNFTs_gallery_sample :
  let r := loadNFTs (ReplyData (Some sample_revealed)) sample_fetch "sepolia" in
  List.map (fun c => (card_seed c, card_video c, card_poster c)) (gallery r.1)
  = [ ("11", "https://example.org/11.mp4", EmptyString);
      ("3", "https://ipfs.io/ipfs/video3", "https://example.org/3.png") ]
  /\ List.map card_href (gallery r.1)
     = [ "https://testnets.opensea.io/assets/sepolia/0x66078a2061A68d5bA6cDdBc81517837dA0C7d7b5/11";
         "https://testnets.opensea.io/assets/sepolia/0x66078a2061A68d5bA6cDdBc81517837dA0C7d7b5/3" ]
  /\ r.2 = ["https://ipfs.io/ipfs/Qm3"; "https://ipfs.io/ipfs/Qm11"]
  /\ loadingShown r.1 = false.
Proof. vm_compute. repeat split. Qed.

Example loadNFTs_gallery_listed :
  let r := loadNFTs (ReplyData (Some sample_revealed)) listed_fetch "sepolia" in
  r.1 = failed_view
  /\ r.2 = ["https://ipfs.io/ipfs/Qm3"; "https://ipfs.io/ipfs/Qm11"].
Proof. vm_compute. repeat split. Qed.

End GalleryExtras.

(** ** [window.revealNFT] *)

Section RevealExtras.

Import Reveal.









Example revealNFT_onchain_sample :
  (revealNFT_onchain unrevealed_ledger (fun _ => 0) willing_wallet
     "12" "ipfs://unrevealed" "0xdead" fresh_app).1
  = [RequestAccounts; Alert "This NFT appears to already be revealed!"]
  /\ (revealNFT willing_wallet "12" "ipfs://unrevealed" "0xdead" fresh_app).1
     = script "12" "ipfs://unrevealed" "0xdead".
Proof. split; reflexivity. Qed.

End RevealExtras.
